(** * gojuice: the evaluator, its value model and its scope chain

    A shallow embedding of the Go packages [scope] and [machine]: the
    tree-walking evaluator of a small JavaScript-like language.

    - Go's [int] is a 64-bit integer: a [Z] with the wrap-around written out.
    - Go's [float64] is the kernel's binary64 [float].
    - [map[string]interface{}] and [[]interface{}] are reference types: the
      runtime state carries a heap of maps and a heap of backing arrays, and
      a value of these kinds is a location in that heap.
    - [*scope.S] is a pointer: scopes live in a heap of their own, and
      [Runtime.Scope] and [S.Parent] are (possibly nil) locations.
    - A Go function returning [(interface{}, error)] that may also panic is a
      state transformer returning [Ok], [Err] or [Panic]; recursion through
      function calls is bounded by fuel.
    - A call that does not return has the outcome [OutOfFuel]: the fuel of
      the model ran out, or [fmt] was given a value that holds itself and
      followed it until the stack was exhausted and the process died. *)

From Stdlib Require Import ZArith Floats Ascii String.
From stdpp Require Import gmap strings list pretty finite.

Set Warnings "-register-all".

(** ** Go's 64-bit [int] *)

Module GoInt.
Local Open Scope Z_scope.

Definition MinInt : Z := - 2 ^ 63.
Definition MaxInt : Z := 2 ^ 63 - 1.

(** Two's complement wrap-around of an arithmetic result. *)
Definition wrap (z : Z) : Z := (z + 2 ^ 63) mod 2 ^ 64 - 2 ^ 63.

Definition add (x y : Z) : Z := wrap (x + y).
Definition sub (x y : Z) : Z := wrap (x - y).
Definition mul (x y : Z) : Z := wrap (x * y).

(** [x / y] and [x % y] for [y <> 0]: truncated toward zero; the quotient
    [MinInt / -1] wraps. Division by zero is a run-time panic, raised by
    the callers below. *)
Definition quo (x y : Z) : Z := wrap (Z.quot x y).
Definition rem (x y : Z) : Z := Z.rem x y.

Definition in_range (z : Z) : bool := (MinInt <=? z) && (z <=? MaxInt).

(** [float64(x)] for an [int] x: round to nearest, ties to even. *)
Definition to_float64 (z : Z) : float :=
  if z <? 0 then
    if z =? MinInt
    then PrimFloat.opp (PrimFloat.mul (PrimFloat.of_uint63 (Uint63.of_Z (2 ^ 62))) 2%float)
    else PrimFloat.opp (PrimFloat.of_uint63 (Uint63.of_Z (- z)))
  else PrimFloat.of_uint63 (Uint63.of_Z z).
End GoInt.

(** ** The syntax tree consumed by the evaluator

    The node types of [github.com/tdewolff/parse/v2/js] that the evaluator
    dispatches on, with the fields it reads. [Nil] is a nil [IExpr]/[IStmt]
    interface (an absent else branch, default value or operand);
    [OtherNode] stands for every node type without a case in [Eval]. *)

Inductive TokenType : Set :=
| DecimalToken | StringToken
| VarToken | LetToken | ConstToken
| EqToken | EqEqToken | EqEqEqToken
| AddToken | SubToken | MulToken | DivToken
| OtherToken (code : nat).

(** [js.IBinding]: either a [*js.Var] or a destructuring pattern. *)
Inductive IBinding : Set :=
| BindVar (Data : string)
| BindPattern.

Record BindingElementOf (N : Type) : Type := mkBindingElement {
  Binding : IBinding;
  Default : N
}.
Arguments mkBindingElement {N} _ _.
Arguments Binding {N} _.
Arguments Default {N} _.

(** [js.Property] with its [*js.PropertyName]. *)
Record PropertyOf (N : Type) : Type := mkProperty {
  Name_Literal : string;
  Name_Computed : N;
  Value : N
}.
Arguments mkProperty {N} _ _ _.
Arguments Name_Literal {N} _.
Arguments Name_Computed {N} _.
Arguments Value {N} _.

Inductive node : Type :=
| Nil
| IfStmt (Cond Body Else : node)
| ReturnStmt (Value : node)
| BlockStmt (List : list node)
| ExprStmt (Value : node)
| VarDecl (tok : TokenType) (List : list (BindingElementOf node))
| LiteralExpr (tok : TokenType) (Data : string)
| CallExpr (X : node) (Args : list node)
| Var (Data : string)
| BinaryExpr (Op : TokenType) (X Y : node)
| ArrowFunc (Params : list (BindingElementOf node)) (Body : list node)
| FuncDecl (Name : option string) (Params : list (BindingElementOf node)) (Body : list node)
| ObjectExpr (List : list (PropertyOf node))
| ArrayExpr (List : list node)
| DotExpr (X : node) (Y : string)
| ForInStmt (Init Value : node) (Body : list node)
| IndexExpr (X Y : node)
| OtherNode (kind : string).

Abbreviation BindingElement := (BindingElementOf node).
Abbreviation Property := (PropertyOf node).

(** ** Values

    The dynamic types an [interface{}] holds during evaluation. *)

Abbreviation loc := nat.

(** The receivers and names of the closures [EvalDotExpr] returns. *)
Inductive Receiver : Set := OnMap | OnSlice.
Inductive Method : Set := reduce | map_ | forEach.

Inductive value : Type :=
| VNil                                       (* the nil interface: Undefined *)
| VInt (n : Z)                               (* int *)
| VFloat64 (f : float)                       (* float64 *)
| VString (s : string)                       (* string *)
| VBool (b : bool)                           (* bool *)
| VMap (l : loc)                             (* map[string]interface{} *)
| VSlice (l : loc)                           (* []interface{} *)
| VJSFunc (parentScope : option loc)         (* the closure of GenerateJSFunction *)
          (expectedParams : list BindingElement) (body : list node)
| VBuiltin (recv : Receiver) (m : Method) (l : loc)  (* the closures of EvalDotExpr *)
| VNative (id : nat).                        (* a function registered by the host *)

(** ** Package scope *)

Module scope.

Record Binding : Type := mkBinding {
  Item : value;
  Constant : bool
}.

Record S : Type := mkS {
  Parent : option loc;
  bindings : gmap string Binding
}.

Definition New (parent : option loc) : S :=
  {| Parent := parent; bindings := ∅ |}.

Inductive MutatingConstantError : Type :=
| MkMutatingConstantError (Item : Binding).

(** [func (s *S) Set(name string, binding *Binding) error]: the scope after
    the call and the error returned, or [None] when the call does not
    return. Before it returns the error, [Set] writes its message,
    [fmt.Sprintf("%q => %#v is constant ...", name, old)], and [fmt] follows
    the item of [old] through every object and array it holds, with no
    check for one that holds itself: on such an item the recursion ends
    only with the stack. [renders] are the values [fmt] gets through; which
    they are is for the heap they live in to say. *)
Definition Set_ (renders : value -> bool) (s : S) (name : string) (binding : Binding)
  : option (S * option MutatingConstantError) :=
  match bindings s !! name with
  | Some old =>
      if Constant old
      then
        if renders (Item old)
        then Some (s, Some (MkMutatingConstantError old))
        else None
      else Some ({| Parent := Parent s; bindings := <[name := binding]> (bindings s) |}, None)
  | None =>
      Some ({| Parent := Parent s; bindings := <[name := binding]> (bindings s) |}, None)
  end.

Definition Get (s : S) (name : string) : option Binding :=
  bindings s !! name.

End scope.

(** ** Errors and panics *)

(** What [reflect] tells [Call] about a Go function type. *)
Inductive GoType : Set :=
| TInterface            (* interface{} *)
| TError                (* error *)
| TSliceOfInterface     (* []interface{} *)
| TOther (name : string).

Record FuncType : Set := mkFuncType {
  Ins : list GoType;
  IsVariadic : bool;
  Outs : list GoType
}.

Inductive error : Type :=
| NotPairError (Item : value)
| NotFunctionError (Item : value)
| IndexOutOfBoundsError (Item : value) (Index : Z)
| NonIntegerIndexError (Item : value) (Index : value)
| NotObjectError (Item : value)
| NotDeclaredError (Item : string)
| BinaryOpNotImplementedError (X Y : value)
| NotImplementedError (Item : node + BindingElement)
| NotCallableError (Item : value)
| WrongNumberOfArgsError (Item : value + list node) (Got Want : Z)
| WrongReturnValueError (Item : value) (Got Want : GoType)
| NoReturnValueError (Item : value)
| MutatingConstantError (e : scope.MutatingConstantError)
| NumError (input : string)                  (* *strconv.NumError *)
| HostError (msg : string).                  (* an error made by a host function *)

(** The run-time panics of Go that the evaluator can raise. *)
Inductive panic : Type :=
| NilDereference
| IndexOutOfRange (index len : Z)
| SliceBoundsOutOfRange
| IntegerDivideByZero
| MakeSliceLenOutOfRange
| ReflectZeroValue                           (* reflect: call of Value.Type on zero Value *)
| ReflectCall                                (* reflect: Call with unusable arguments *)
| HostPanic (msg : string).

Inductive result (A : Type) : Type :=
| Ok (a : A)
| Err (e : error)
| Panic (p : panic)
| OutOfFuel.
Arguments Ok {A} _.
Arguments Err {A} _.
Arguments Panic {A} _.
Arguments OutOfFuel {A}.

(** ** The runtime state

    One runtime of one machine: [M.Globals] and [Runtime.Globals], the
    active scope pointer, and the three heaps. [calls] records every
    invocation of a host function, oldest first: it is all the evaluator
    shows to its host. The [Debug] trace is not modelled. *)

Record Runtime : Type := mkRuntime {
  M_Globals : gmap string value;
  Globals : gmap string value;
  Scope : option loc;
  scopes : list scope.S;
  maps : list (gmap string value);
  slices : list (list value);
  calls : list (nat * list value)
}.

(** [New().NewRuntime()] after the host filled [M.Globals]. *)
Definition NewRuntime (globals : gmap string value) : Runtime :=
  {| M_Globals := globals; Globals := ∅;
     Scope := Some 0%nat; scopes := [scope.New None];
     maps := []; slices := []; calls := [] |}.

Definition M (A : Type) : Type := Runtime -> result A * Runtime.

Definition ret {A} (a : A) : M A := fun r => (Ok a, r).
Definition fail {A} (e : error) : M A := fun r => (Err e, r).
Definition throw {A} (p : panic) : M A := fun r => (Panic p, r).
Definition timeout {A} : M A := fun r => (OutOfFuel, r).

Definition bind {A B} (c : M A) (k : A -> M B) : M B :=
  fun r =>
    match c r with
    | (Ok a, r') => k a r'
    | (Err e, r') => (Err e, r')
    | (Panic p, r') => (Panic p, r')
    | (OutOfFuel, r') => (OutOfFuel, r')
    end.

Declare Scope go_scope.
Delimit Scope go_scope with go.
Notation "x <- c ;; k" := (bind c (fun x => k))
  (at level 100, c at next level, right associativity) : go_scope.
Notation "c ;; k" := (bind c (fun _ => k))
  (at level 100, right associativity) : go_scope.
Local Open Scope go_scope.

(** [defer cleanup()] around [body]: the deferred call runs however [body]
    ends, and a panic of its own replaces the outcome. *)
Definition defer {A} (cleanup : M unit) (body : M A) : M A :=
  fun r =>
    match body r with
    | (OutOfFuel, r') => (OutOfFuel, r')
    | (res, r') =>
        match cleanup r' with
        | (Ok _, r'') => (res, r'')
        | (Err e, r'') => (res, r'')
        | (Panic p, r'') => (Panic p, r'')
        | (OutOfFuel, r'') => (OutOfFuel, r'')
        end
    end.

(** *** Heap access *)

Definition set_Scope (p : option loc) : M unit := fun r =>
  (Ok tt, {| M_Globals := M_Globals r; Globals := Globals r; Scope := p;
             scopes := scopes r; maps := maps r; slices := slices r;
             calls := calls r |}).

Definition set_scopes (h : list scope.S) (r : Runtime) : Runtime :=
  {| M_Globals := M_Globals r; Globals := Globals r; Scope := Scope r;
     scopes := h; maps := maps r; slices := slices r; calls := calls r |}.

Definition set_maps (h : list (gmap string value)) (r : Runtime) : Runtime :=
  {| M_Globals := M_Globals r; Globals := Globals r; Scope := Scope r;
     scopes := scopes r; maps := h; slices := slices r; calls := calls r |}.

Definition set_slices (h : list (list value)) (r : Runtime) : Runtime :=
  {| M_Globals := M_Globals r; Globals := Globals r; Scope := Scope r;
     scopes := scopes r; maps := maps r; slices := h; calls := calls r |}.

Definition set_calls (c : list (nat * list value)) (r : Runtime) : Runtime :=
  {| M_Globals := M_Globals r; Globals := Globals r; Scope := Scope r;
     scopes := scopes r; maps := maps r; slices := slices r; calls := c |}.

Definition get_Scope : M (option loc) := fun r => (Ok (Scope r), r).

(** Dereferencing a [*scope.S]; nil panics. (A location outside the heap
    cannot arise in Go; the model treats it like nil.) *)
Definition load_scope (p : option loc) : M scope.S := fun r =>
  match p with
  | None => (Panic NilDereference, r)
  | Some l =>
      match scopes r !! l with
      | Some s => (Ok s, r)
      | None => (Panic NilDereference, r)
      end
  end.

Definition store_scope (l : loc) (s : scope.S) : M unit := fun r =>
  (Ok tt, set_scopes (<[l := s]> (scopes r)) r).

Definition alloc_scope (s : scope.S) : M loc := fun r =>
  (Ok (length (scopes r)), set_scopes (scopes r ++ [s]) r).

Definition load_map (l : loc) : M (gmap string value) := fun r =>
  match maps r !! l with
  | Some m => (Ok m, r)
  | None => (Panic NilDereference, r)
  end.

Definition store_map (l : loc) (m : gmap string value) : M unit := fun r =>
  (Ok tt, set_maps (<[l := m]> (maps r)) r).

Definition alloc_map (m : gmap string value) : M loc := fun r =>
  (Ok (length (maps r)), set_maps (maps r ++ [m]) r).

Definition load_slice (l : loc) : M (list value) := fun r =>
  match slices r !! l with
  | Some v => (Ok v, r)
  | None => (Panic NilDereference, r)
  end.

Definition store_slice (l : loc) (v : list value) : M unit := fun r =>
  (Ok tt, set_slices (<[l := v]> (slices r)) r).

Definition alloc_slice (v : list value) : M loc := fun r =>
  (Ok (length (slices r)), set_slices (slices r ++ [v]) r).

(** [len(v)] as a Go [int]. *)
Definition len {A} (v : list A) : Z := Z.of_nat (length v).

(** *** What fmt gets through

    [fmt] prints an object or an array ([%v] and [%#v] alike) by printing
    every value it holds, and keeps no record of where it has been: given
    a value that holds itself, directly or through others, it recurses
    until the stack is exhausted, which ends the process. Numbers, strings,
    booleans, nil and functions hold nothing. *)

(** The values an object or an array holds. *)
Definition held (r : Runtime) (v : value) : list value :=
  match v with
  | VMap l =>
      match maps r !! l with
      | Some m => (map_to_list m).*2
      | None => []
      end
  | VSlice l =>
      match slices r !! l with
      | Some xs => xs
      | None => []
      end
  | _ => []
  end.

(** Following what a value holds comes to an end within [n] steps. *)
Fixpoint finite (n : nat) (r : Runtime) (v : value) : bool :=
  match n with
  | O => false
  | S n' => forallb (finite n' r) (held r v)
  end.

(** [fmt] returns on the value. A descent through objects and arrays that
    meets none of them twice is no longer than the two heaps together;
    a longer one has met one twice, and goes on for ever. *)
Definition renders (r : Runtime) (v : value) : bool :=
  finite (S (length (maps r) + length (slices r))) r v.

(** A value written into a message with [%v] or [%#v]. (Syntax tree nodes
    and names are written too: [fmt] prints a node with the addresses of
    its children, and always returns.) *)
Definition format (v : value) : M unit := fun r =>
  if renders r v then (Ok tt, r) else (OutOfFuel, r).

(** [e.Runtime.Scope = scope.New(e.Runtime.Scope)] *)
Definition push_scope : M unit :=
  p <- get_Scope ;;
  l <- alloc_scope (scope.New p) ;;
  set_Scope (Some l).

(** [e.Runtime.Scope = e.Runtime.Scope.Parent] *)
Definition pop_scope : M unit :=
  p <- get_Scope ;;
  s <- load_scope p ;;
  set_Scope (scope.Parent s).

(** [e.Runtime.Scope.Set(name, binding)], with the error it returns. *)
Definition Scope_Set (name : string) (binding : scope.Binding)
  : M (option scope.MutatingConstantError) :=
  p <- get_Scope ;;
  s <- load_scope p ;;
  match p with
  | Some l =>
      fun r =>
        match scope.Set_ (renders r) s name binding with
        | Some (s', err) => (store_scope l s' ;; ret err) r
        | None => (OutOfFuel, r)
        end
  | None => throw NilDereference
  end.

(** ** What the evaluator takes from outside the repository

    The float and composite renderings of [fmt.Sprint], [strconv.ParseFloat],
    the order in which Go's [range] visits a map (unspecified by the
    language; nothing is assumed of it), and the functions the host
    registered: their types as [reflect] shows them, their code pointers,
    and what calling them does to the state, the panic of [reflect] on an
    argument the function's parameter type does not take included. *)

Record NativeFunc : Type := mkNativeFunc {
  Type_ : FuncType;
  CodePointer : Z;
  Run_ : list value -> M value
}.

Class Platform : Type := mkPlatform {
  fmt_Sprint_float64 : float -> string;
  fmt_Sprint_ref : Runtime -> value -> string;
  strconv_ParseFloat : string -> option float;
  range_map : Runtime -> gmap string value -> list string;
  natives : nat -> NativeFunc
}.

(** *** strconv.Atoi

    An optional sign followed by decimal digits, within the range of [int]. *)

Definition digit (a : ascii) : option Z :=
  let n := Z.of_nat (nat_of_ascii a) in
  if ((48 <=? n) && (n <=? 57))%Z then Some (n - 48)%Z else None.

Fixpoint digits (s : string) (acc : Z) : option Z :=
  match s with
  | EmptyString => Some acc
  | String a s' =>
      match digit a with
      | Some d => digits s' (10 * acc + d)%Z
      | None => None
      end
  end.

Definition Atoi (s : string) : option Z :=
  let '(neg, body) :=
    match s with
    | String "-"%char s' => (true, s')
    | String "+"%char s' => (false, s')
    | _ => (false, s)
    end in
  match body with
  | EmptyString => None
  | _ =>
      match digits body 0 with
      | Some n =>
          let v := if neg then (- n)%Z else n in
          if GoInt.in_range v then Some v else None
      | None => None
      end
  end.

Section Evaluator.

Context `{Platform}.

(** *** fmt.Sprint *)

Definition Sprint (v : value) : M string := fun r =>
  if renders r v
  then (Ok match v with
           | VNil => "<nil>"
           | VInt n => pretty n
           | VFloat64 f => fmt_Sprint_float64 f
           | VString s => s
           | VBool b => if b then "true" else "false"
           | _ => fmt_Sprint_ref r v
           end, r)
  else (OutOfFuel, r).

(** *** Runtime.Lookup

    The scope chain from the active scope outwards, then the runtime's
    globals, then the machine's. A chain of distinct scopes is no longer
    than the heap. *)

Fixpoint Lookup_scopes (n : nat) (p : option loc) (name : string) : M (option value) :=
  match p with
  | None => ret None
  | Some _ =>
      match n with
      | O => timeout
      | S n' =>
          s <- load_scope p ;;
          match scope.Get s name with
          | Some binding => ret (Some (scope.Item binding))
          | None => Lookup_scopes n' (scope.Parent s) name
          end
      end
  end.

Definition Lookup (name : string) : M value := fun r =>
  (found <- Lookup_scopes (length (scopes r)) (Scope r) name ;;
   match found with
   | Some item => ret item
   | None =>
       match Globals r !! name with
       | Some item => ret item
       | None =>
           match M_Globals r !! name with
           | Some item => ret item
           | None => fail (NotDeclaredError name)
           end
       end
   end) r.

(** *** The binary operators *)

Definition EqEqComparison (x y : value) : M value :=
  sx <- Sprint x ;;
  sy <- Sprint y ;;
  ret (VBool (bool_decide (sx = sy))).

Inductive Kind : Set :=
| Invalid | KBool | KInt | KFloat64 | KString | KMap | KSlice | KFunc.

Definition Kind_of (v : value) : Kind :=
  match v with
  | VNil => Invalid
  | VInt _ => KInt
  | VFloat64 _ => KFloat64
  | VString _ => KString
  | VBool _ => KBool
  | VMap _ => KMap
  | VSlice _ => KSlice
  | VJSFunc _ _ _ | VBuiltin _ _ _ | VNative _ => KFunc
  end.

Definition JSFuncType : FuncType :=
  {| Ins := [TSliceOfInterface]; IsVariadic := true; Outs := [TInterface; TError] |}.

Definition BuiltinType (m : Method) : FuncType :=
  match m with
  | reduce => {| Ins := [TInterface; TInterface]; IsVariadic := false; Outs := [TInterface; TError] |}
  | map_ | forEach => {| Ins := [TInterface]; IsVariadic := false; Outs := [TInterface; TError] |}
  end.

(** [reflect.TypeOf] on a function value. *)
Definition FuncType_of (v : value) : option FuncType :=
  match v with
  | VJSFunc _ _ _ => Some JSFuncType
  | VBuiltin _ m _ => Some (BuiltinType m)
  | VNative id => Some (Type_ (natives id))
  | _ => None
  end.

(** [reflect.Value.Pointer]: the identity of a map; the first element of a
    slice, which for every slice of capacity zero is the same address; the
    code pointer of a function, shared by all closures of one function
    literal. *)
Inductive pointer : Set :=
| PMap (l : loc)
| PSlice (l : loc)
| PZeroBase
| PJSFunc
| PBuiltin (recv : Receiver) (m : Method)
| PCode (p : Z)
| PNone.

Definition Pointer (v : value) : M pointer :=
  match v with
  | VMap l => ret (PMap l)
  | VSlice l =>
      xs <- load_slice l ;;
      ret (match xs with [] => PZeroBase | _ => PSlice l end)
  | VJSFunc _ _ _ => ret PJSFunc
  | VBuiltin recv m _ => ret (PBuiltin recv m)
  | VNative id => ret (PCode (CodePointer (natives id)))
  | _ => ret PNone
  end.

#[local] Instance Kind_eq_dec : EqDecision Kind.
Proof. solve_decision. Defined.
#[local] Instance Receiver_eq_dec : EqDecision Receiver.
Proof. solve_decision. Defined.
#[local] Instance Method_eq_dec : EqDecision Method.
Proof. solve_decision. Defined.
#[local] Instance pointer_eq_dec : EqDecision pointer.
Proof. solve_decision. Defined.
#[local] Instance GoType_eq_dec : EqDecision GoType.
Proof. solve_decision. Defined.
#[local] Instance FuncType_eq_dec : EqDecision FuncType.
Proof. solve_decision. Defined.

Definition EqEqEqComparison (x y : value) : M value :=
  if negb (bool_decide (Kind_of x = Kind_of y)) then ret (VBool false)
  else
    match x with
    | VNil => throw ReflectZeroValue
    | _ =>
        if negb (bool_decide (FuncType_of x = FuncType_of y)) then ret (VBool false)
        else
          match x, y with
          | VBool a, VBool b => ret (VBool (bool_decide (a = b)))
          | VInt a, VInt b => ret (VBool (a =? b)%Z)
          | VFloat64 a, VFloat64 b => ret (VBool (PrimFloat.eqb a b))
          | VString a, VString b => ret (VBool (bool_decide (a = b)))
          | _, _ =>
              px <- Pointer x ;;
              py <- Pointer y ;;
              ret (VBool (bool_decide (px = py)))
          end
    end.

Definition Add (x y : value) : M value :=
  match x, y with
  | VInt xv, VInt yv => ret (VInt (GoInt.add xv yv))
  | VInt xv, VFloat64 yv => ret (VFloat64 (PrimFloat.add (GoInt.to_float64 xv) yv))
  | VFloat64 xv, VInt yv => ret (VFloat64 (PrimFloat.add xv (GoInt.to_float64 yv)))
  | VFloat64 xv, VFloat64 yv => ret (VFloat64 (PrimFloat.add xv yv))
  | VString xv, VInt _ | VString xv, VFloat64 _ | VString xv, VString _ =>
      s <- Sprint y ;;
      ret (VString (xv +:+ s))
  | VSlice lx, VSlice ly =>
      xv <- load_slice lx ;;
      yv <- load_slice ly ;;
      l <- alloc_slice (xv ++ yv) ;;
      ret (VSlice l)
  | _, _ => format x ;; format y ;; fail (BinaryOpNotImplementedError x y)
  end.

Definition Div (x y : value) : M value :=
  match x, y with
  | VInt xv, VInt yv =>
      if (yv =? 0)%Z then throw IntegerDivideByZero
      else ret (VInt (GoInt.quo xv yv))
  | VInt xv, VFloat64 yv => ret (VFloat64 (PrimFloat.div (GoInt.to_float64 xv) yv))
  | VFloat64 xv, VInt yv => ret (VFloat64 (PrimFloat.div xv (GoInt.to_float64 yv)))
  | VFloat64 xv, VFloat64 yv => ret (VFloat64 (PrimFloat.div xv yv))
  | _, _ => format x ;; format y ;; fail (BinaryOpNotImplementedError x y)
  end.

Definition Sub (x y : value) : M value :=
  match x, y with
  | VInt xv, VInt yv => ret (VInt (GoInt.sub xv yv))
  | VInt xv, VFloat64 yv => ret (VFloat64 (PrimFloat.sub (GoInt.to_float64 xv) yv))
  | VFloat64 xv, VInt yv => ret (VFloat64 (PrimFloat.sub xv (GoInt.to_float64 yv)))
  | VFloat64 xv, VFloat64 yv => ret (VFloat64 (PrimFloat.sub xv yv))
  | _, _ => format x ;; format y ;; fail (BinaryOpNotImplementedError x y)
  end.

(** [copy(res[off:], src)]; slicing beyond the length panics. *)
Definition copy_at (res : list value) (off : Z) (src : list value) : option (list value) :=
  if ((off <? 0) || (len res <? off))%Z then None
  else
    let o := Z.to_nat off in
    let n := (length res - o) `min` length src in
    Some (take o res ++ take n src ++ drop (o + n) res).

(** [for i := 0; i < yv; i++ { copy(res[i*len(xv):], xv) }], with [k]
    iterations left. *)
Fixpoint Mul_copy_loop (k : nat) (i : Z) (xv res : list value) : M (list value) :=
  match k with
  | O => ret res
  | S k' =>
      match copy_at res (GoInt.mul i (len xv)) xv with
      | Some res' => Mul_copy_loop k' (i + 1)%Z xv res'
      | None => throw SliceBoundsOutOfRange
      end
  end.

(** Running out of memory is not modelled. *)
Definition Mul (x y : value) : M value :=
  match x, y with
  | VInt xv, VInt yv => ret (VInt (GoInt.mul xv yv))
  | VInt xv, VFloat64 yv => ret (VFloat64 (PrimFloat.mul (GoInt.to_float64 xv) yv))
  | VFloat64 xv, VInt yv => ret (VFloat64 (PrimFloat.mul xv (GoInt.to_float64 yv)))
  | VFloat64 xv, VFloat64 yv => ret (VFloat64 (PrimFloat.mul xv yv))
  | VString xv, VInt yv =>
      ret (VString (Nat.iter (Z.to_nat yv) (fun res => res +:+ xv) ""))
  | VSlice lx, VInt yv =>
      xv <- load_slice lx ;;
      let n := GoInt.mul (len xv) yv in
      if (n <? 0)%Z then throw MakeSliceLenOutOfRange
      else
        res <- Mul_copy_loop (Z.to_nat yv) 0 xv (replicate (Z.to_nat n) VNil) ;;
        l <- alloc_slice res ;;
        ret (VSlice l)
  | _, _ => format x ;; format y ;; fail (BinaryOpNotImplementedError x y)
  end.

(** [v[i]] on a slice: a run-time panic outside [0, len(v)). *)
Definition index (v : list value) (i : Z) : M value :=
  if (i <? 0)%Z then throw (IndexOutOfRange i (len v))
  else
    match v !! Z.to_nat i with
    | Some el => ret el
    | None => throw (IndexOutOfRange i (len v))
    end.

(** [v[i] = y] on the slice at [l]. *)
Definition index_assign (l : loc) (v : list value) (i : Z) (y : value) : M unit :=
  if ((i <? 0) || (len v <=? i))%Z then throw (IndexOutOfRange i (len v))
  else store_slice l (<[Z.to_nat i := y]> v).

(** [idx % len(v)], applied by both index paths to a negative index. *)
Definition negative_index (idx : Z) (v : list value) : M Z :=
  if (len v =? 0)%Z then throw IntegerDivideByZero
  else ret (GoInt.rem idx (len v)).

Definition EvalTruth (iVal : value) : bool :=
  match iVal with
  | VNil => false
  | VFloat64 val => negb (PrimFloat.eqb val 0%float)
  | VInt val => negb (val =? 0)%Z
  | VString val => negb (bool_decide (val = ""))
  | VBool val => val
  | _ => true
  end.

Definition AssertJSFunc (i : value) : M value :=
  if bool_decide (FuncType_of i = Some JSFuncType) then ret i
  else format i ;; fail (NotFunctionError i).

(** Calling a host function: the call is recorded, then the host runs. *)
Definition call_native (id : nat) (args : list value) : M value := fun r =>
  Run_ (natives id) args (set_calls (calls r ++ [(id, args)]) r).

(** [for key, val := range v] over the map at [l]: the keys present when the
    loop starts, in the order the platform picks; values are read when
    their turn comes. *)
Fixpoint range_map_loop {A} (l : loc) (keys : list string)
    (body : string -> value -> A -> M A) (acc : A) : M A :=
  match keys with
  | [] => ret acc
  | key :: keys' =>
      m <- load_map l ;;
      match m !! key with
      | Some val => acc' <- body key val acc ;; range_map_loop l keys' body acc'
      | None => range_map_loop l keys' body acc
      end
  end.

Definition range_over_map {A} (l : loc) (body : string -> value -> A -> M A) (acc : A) : M A :=
  fun r =>
    (m <- load_map l ;;
     range_map_loop l (range_map r m) body acc) r.

(** [for _, el := range v] over the slice at [l]: the length is fixed when
    the loop starts, elements are read when their turn comes. *)
Fixpoint range_slice_loop {A} (l : loc) (idxs : list nat)
    (body : value -> A -> M A) (acc : A) : M A :=
  match idxs with
  | [] => ret acc
  | i :: idxs' =>
      v <- load_slice l ;;
      match v !! i with
      | Some el => acc' <- body el acc ;; range_slice_loop l idxs' body acc'
      | None => range_slice_loop l idxs' body acc
      end
  end.

Definition range_over_slice {A} (l : loc) (body : value -> A -> M A) (acc : A) : M A :=
  v <- load_slice l ;;
  range_slice_loop l (seq 0 (length v)) body acc.

(** *** The evaluator, one level of the recursion

    [Eval] below is the evaluator called on the children of a node and on
    the bodies of the functions this level calls. *)

Section Level.

Variable Eval : node -> M value.

Definition EvalBindingElement (el : BindingElement) (value : value) (constant : bool) : M unit :=
  value <- match value with
           | VNil => Eval (Default el)
           | _ => ret value
           end ;;
  match Binding el with
  | BindVar Data =>
      _ <- Scope_Set Data {| scope.Item := value; scope.Constant := constant |} ;;
      ret tt
  | BindPattern => fail (NotImplementedError (inr el))
  end.

(** [for idx, el := range expectedParams.List] in the closure of
    [GenerateJSFunction]. *)
Fixpoint bind_params (expectedParams : list BindingElement) (idx : nat)
    (actualParams : list value) : M unit :=
  match expectedParams with
  | [] => ret tt
  | el :: rest =>
      let value := match actualParams !! idx with
                   | Some v => v
                   | None => VNil
                   end in
      EvalBindingElement el value false ;;
      bind_params rest (S idx) actualParams
  end.

(** The closure returned by [GenerateJSFunction], applied. *)
Definition JSFunction (parentScope : option loc) (expectedParams : list BindingElement)
    (body : list node) (actualParams : list value) : M value :=
  currentScope <- get_Scope ;;
  l <- alloc_scope (scope.New parentScope) ;;
  set_Scope (Some l) ;;
  defer (set_Scope currentScope)
    (if (len expectedParams <? len actualParams)%Z
     then fail (WrongNumberOfArgsError (inr body) (len actualParams) (len expectedParams))
     else
       bind_params expectedParams 0 actualParams ;;
       Eval (BlockStmt body)).

Definition GenerateJSFunction (body : list node) (expectedParams : list BindingElement) : M value :=
  parentScope <- get_Scope ;;
  ret (VJSFunc parentScope expectedParams body).

(** A direct Go call of a [func(...interface{}) (interface{}, error)]. *)
Definition invoke (f : value) (args : list value) : M value :=
  match f with
  | VJSFunc parentScope expectedParams body => JSFunction parentScope expectedParams body args
  | VNative id => call_native id args
  | _ => fail (NotFunctionError f)
  end.

(** The closures returned by [EvalDotExpr], applied. *)
Definition Builtin (recv : Receiver) (m : Method) (l : loc) (args : list value) : M value :=
  match recv, m, args with
  | OnMap, reduce, [iIterator; sum] =>
      iterator <- AssertJSFunc iIterator ;;
      range_over_map l (fun key val sum => invoke iterator [VString key; val; sum]) sum
  | OnMap, map_, [iIterator] =>
      iterator <- AssertJSFunc iIterator ;;
      res <- range_over_map l (fun key val (res : gmap string value) =>
        mapped <- invoke iterator [VString key; val] ;;
        match mapped with
        | VSlice la =>
            ary <- load_slice la ;;
            match ary with
            | [k; v] => name <- Sprint k ;; ret (<[name := v]> res)
            | _ => format mapped ;; fail (NotPairError mapped)
            end
        | _ => format mapped ;; fail (NotPairError mapped)
        end) ∅ ;;
      lres <- alloc_map res ;;
      ret (VMap lres)
  | OnMap, forEach, [iIterator] =>
      iterator <- AssertJSFunc iIterator ;;
      range_over_map l (fun key val (_ : unit) =>
        _ <- invoke iterator [VString key; val] ;; ret tt) tt ;;
      ret VNil
  | OnSlice, reduce, [iIterator; sum] =>
      iterator <- AssertJSFunc iIterator ;;
      range_over_slice l (fun el sum => invoke iterator [el; sum]) sum
  | OnSlice, map_, [iIterator] =>
      iterator <- AssertJSFunc iIterator ;;
      res <- range_over_slice l (fun el res =>
        mapped <- invoke iterator [el] ;; ret (res ++ [mapped])) [] ;;
      lres <- alloc_slice res ;;
      ret (VSlice lres)
  | OnSlice, forEach, [iIterator] =>
      iterator <- AssertJSFunc iIterator ;;
      range_over_slice l (fun el (_ : unit) =>
        _ <- invoke iterator [el] ;; ret tt) tt ;;
      ret VNil
  | _, _, _ => throw ReflectCall
  end.

(** [func Call(callable interface{}, iArgs []interface{})]: the checks made
    through [reflect], then the call. *)
Definition Call (callable : value) (iArgs : list value) : M value :=
  match FuncType_of callable with
  | None => format callable ;; fail (NotCallableError callable)
  | Some refType =>
      if negb (IsVariadic refType) && negb (length (Ins refType) =? length iArgs)%nat
      then
        format callable ;;
        fail (WrongNumberOfArgsError (inl callable) (len iArgs) (len (Ins refType)))
      else
        match Outs refType with
        | [out0; out1] =>
            if negb (bool_decide (out0 = TInterface))
            then format callable ;; fail (WrongReturnValueError callable out0 TInterface)
            else if negb (bool_decide (out1 = TError))
            then format callable ;; fail (WrongReturnValueError callable out1 TError)
            else
              match callable with
              | VJSFunc parentScope expectedParams body =>
                  JSFunction parentScope expectedParams body iArgs
              | VBuiltin recv m l => Builtin recv m l iArgs
              | VNative id =>
                  if (S (length iArgs) <? length (Ins refType))%nat
                  then throw ReflectCall
                  else call_native id iArgs
              | _ => format callable ;; fail (NotCallableError callable)
              end
        | _ => format callable ;; fail (NoReturnValueError callable)
        end
  end.

Definition EvalReturnStmt (Value : node) : M value := (Eval Value).

Definition EvalIndexExpr (X Y : node) : M value :=
  x <- Eval X ;;
  y <- Eval Y ;;
  match x with
  | VMap l =>
      v <- load_map l ;;
      key <- Sprint y ;;
      ret (default VNil (v !! key))
  | VSlice l =>
      v <- load_slice l ;;
      match y with
      | VInt idx =>
          idx <- (if (idx <? 0)%Z then negative_index idx v else ret idx) ;;
          if (len v <? idx)%Z
          then fail (IndexOutOfBoundsError x idx)
          else index v idx
      | _ => format y ;; fail (NonIntegerIndexError x y)
      end
  | _ => format x ;; fail (NotImplementedError (inl (IndexExpr X Y)))
  end.

Fixpoint EvalArrayExpr_loop (List : list node) (res : list value) : M (list value) :=
  match List with
  | [] => ret res
  | el :: List' =>
      v <- Eval el ;;
      EvalArrayExpr_loop List' (res ++ [v])
  end.

Definition EvalArrayExpr (List : list node) : M value :=
  res <- EvalArrayExpr_loop List [] ;;
  l <- alloc_slice res ;;
  ret (VSlice l).

Definition EvalForInStmt (Init Value : node) (Body : list node) : M unit :=
  val <- Eval Value ;;
  match Init with
  | VarDecl tok List =>
      match List with
      | [el0] =>
          let iterator (el : value) : M unit :=
            push_scope ;;
            defer pop_scope
              (EvalBindingElement el0 el
                 (match tok with ConstToken => true | _ => false end) ;;
               _ <- Eval (BlockStmt Body) ;;
               ret tt) in
          match val with
          | VMap l => range_over_map l (fun k _ (_ : unit) => iterator (VString k)) tt
          | VSlice l => range_over_slice l (fun el (_ : unit) => iterator el) tt
          | _ => format val ;; fail (NotImplementedError (inl Init))
          end
      | _ => fail (NotImplementedError (inl Init))
      end
  | _ => fail (NotImplementedError (inl (ForInStmt Init Value Body)))
  end.

Definition Method_of (Y : string) : option Method :=
  if String.eqb Y "reduce" then Some reduce
  else if String.eqb Y "map" then Some map_
  else if String.eqb Y "forEach" then Some forEach
  else None.

Definition EvalDotExpr (X : node) (Y : string) : M value :=
  x <- Eval X ;;
  match x with
  | VMap l =>
      match Method_of Y with
      | Some m => ret (VBuiltin OnMap m l)
      | None =>
          v <- load_map l ;;
          ret (default VNil (v !! Y))
      end
  | VSlice l =>
      match Method_of Y with
      | Some m => ret (VBuiltin OnSlice m l)
      | None => format x ;; fail (NotObjectError x)
      end
  | _ => format x ;; fail (NotObjectError x)
  end.

Fixpoint EvalObjectExpr_loop (List : list Property) (res : gmap string value)
  : M (gmap string value) :=
  match List with
  | [] => ret res
  | prop :: List' =>
      name <- match Name_Computed prop with
              | Nil => ret (Name_Literal prop)
              | computed => iName <- Eval computed ;; Sprint iName
              end ;;
      value <- Eval (Value prop) ;;
      EvalObjectExpr_loop List' (<[name := value]> res)
  end.

Definition EvalObjectExpr (List : list Property) : M value :=
  res <- EvalObjectExpr_loop List ∅ ;;
  l <- alloc_map res ;;
  ret (VMap l).

Definition EvalFuncDecl (Name : option string) (Params : list BindingElement)
    (Body : list node) : M unit :=
  genF <- GenerateJSFunction Body Params ;;
  match Name with
  | Some Data =>
      _ <- Scope_Set Data {| scope.Item := genF; scope.Constant := true |} ;;
      ret tt
  | None => throw NilDereference
  end.

Definition EvalArrowFunc (Params : list BindingElement) (Body : list node) : M value :=
  GenerateJSFunction Body Params.

Definition EvalAssignment (X Y : node) : M value :=
  y <- Eval Y ;;
  match X with
  | Var Data =>
      err <- Scope_Set Data {| scope.Item := y; scope.Constant := false |} ;;
      match err with
      | Some e => fail (MutatingConstantError e)
      | None => ret y
      end
  | DotExpr vX vY =>
      obj <- Eval vX ;;
      match obj with
      | VMap l =>
          hmap <- load_map l ;;
          store_map l (<[vY := y]> hmap) ;;
          ret y
      | _ => format obj ;; fail (NotObjectError obj)
      end
  | IndexExpr vX vY =>
      obj <- Eval vX ;;
      idx <- Eval vY ;;
      match obj with
      | VMap l =>
          ass <- load_map l ;;
          key <- Sprint idx ;;
          store_map l (<[key := y]> ass) ;;
          ret y
      | VSlice l =>
          ass <- load_slice l ;;
          match idx with
          | VInt i =>
              i <- (if (i <? 0)%Z then negative_index i ass else ret i) ;;
              if (len ass <? GoInt.add i 1)%Z
              then fail (IndexOutOfBoundsError obj i)
              else
                index_assign l ass i y ;;
                ret y
          | _ => format idx ;; fail (NonIntegerIndexError obj idx)
          end
      | _ => format obj ;; fail (NotObjectError obj)
      end
  | _ => fail (NotImplementedError (inl X))
  end.

Definition EvalBinaryExpr (Op : TokenType) (X Y : node) : M value :=
  match Op with
  | EqToken => EvalAssignment X Y
  | _ =>
      x <- Eval X ;;
      y <- Eval Y ;;
      match Op with
      | EqEqToken => EqEqComparison x y
      | EqEqEqToken => EqEqEqComparison x y
      | AddToken => Add x y
      | SubToken => Sub x y
      | MulToken => Mul x y
      | _ => fail (NotImplementedError (inl (BinaryExpr Op X Y)))
      end
  end.

Definition EvalIfStmt (Cond Body Else : node) : M unit :=
  cond <- Eval Cond ;;
  _ <- (if EvalTruth cond then Eval Body else Eval Else) ;;
  ret tt.

Definition EvalLiteralExpr (tok : TokenType) (Data : string) : M value :=
  match tok with
  | DecimalToken =>
      match Atoi Data with
      | Some intVal => ret (VInt intVal)
      | None =>
          match strconv_ParseFloat Data with
          | Some f => ret (VFloat64 f)
          | None => fail (NumError Data)
          end
      end
  | StringToken =>
      if (String.length Data <? 2)%nat then throw SliceBoundsOutOfRange
      else ret (VString (substring 1 (String.length Data - 2) Data))
  | _ => fail (NotImplementedError (inl (LiteralExpr tok Data)))
  end.

Fixpoint EvalCallExpr_args (Args : list node) : M (list value) :=
  match Args with
  | [] => ret []
  | arg :: Args' =>
      v <- Eval arg ;;
      vs <- EvalCallExpr_args Args' ;;
      ret (v :: vs)
  end.

Definition EvalCallExpr (X : node) (Args : list node) : M value :=
  callable <- Eval X ;;
  args <- EvalCallExpr_args Args ;;
  Call callable args.

Definition EvalVar (Data : string) : M value := Lookup Data.

Fixpoint EvalVarDecl_loop (constant : bool) (List : list BindingElement) : M unit :=
  match List with
  | [] => ret tt
  | el :: List' =>
      EvalBindingElement el VNil constant ;;
      EvalVarDecl_loop constant List'
  end.

Definition EvalVarDecl (tok : TokenType) (List : list BindingElement) : M unit :=
  EvalVarDecl_loop (match tok with ConstToken => true | _ => false end) List.

(** [for _, i := range stmt.List { if res, err = e.Eval(i); err != nil ... }] *)
Fixpoint EvalBlockStmt_loop (List : list node) (res : value) : M value :=
  match List with
  | [] => ret res
  | i :: List' =>
      res <- Eval i ;;
      EvalBlockStmt_loop List' res
  end.

Definition EvalBlockStmt (List : list node) : M value :=
  push_scope ;;
  defer pop_scope (EvalBlockStmt_loop List VNil).

(** The type switch of [func (e *Evaluator) Eval]. *)
Definition Eval_node (i : node) : M value :=
  match i with
  | Nil => ret VNil
  | IfStmt Cond Body Else => EvalIfStmt Cond Body Else ;; ret VNil
  | ReturnStmt Value => EvalReturnStmt Value
  | BlockStmt List => EvalBlockStmt List
  | ExprStmt Value => Eval Value
  | VarDecl tok List => EvalVarDecl tok List ;; ret VNil
  | LiteralExpr tok Data => EvalLiteralExpr tok Data
  | CallExpr X Args => EvalCallExpr X Args
  | Var Data => EvalVar Data
  | BinaryExpr Op X Y => EvalBinaryExpr Op X Y
  | ArrowFunc Params Body => EvalArrowFunc Params Body
  | FuncDecl Name Params Body => EvalFuncDecl Name Params Body ;; ret VNil
  | ObjectExpr List => EvalObjectExpr List
  | ArrayExpr List => EvalArrayExpr List
  | DotExpr X Y => EvalDotExpr X Y
  | ForInStmt Init Value Body => EvalForInStmt Init Value Body ;; ret VNil
  | IndexExpr X Y => EvalIndexExpr X Y
  | OtherNode _ => fail (NotImplementedError (inl i))
  end.

End Level.

(** [func (e *Evaluator) Eval(i interface{})], to a bounded depth of
    recursion. *)
Fixpoint Eval (fuel : nat) (i : node) : M value :=
  match fuel with
  | O => timeout
  | S fuel' => Eval_node (Eval fuel') i
  end.

(** [func (r *Runtime) Run(ast *js.AST) error] *)
Definition Run (fuel : nat) (ast : list node) : M unit :=
  _ <- Eval fuel (BlockStmt ast) ;;
  ret tt.

(** [func (r *Runtime) Call(funcName string, args ...interface{})] *)
Definition Runtime_Call (fuel : nat) (funcName : string) (args : list value) : M value :=
  f <- Lookup funcName ;;
  Call (Eval fuel) f args.

End Evaluator.

(** * Vocabulary of the properties *)

(** ** Scopes and states *)

(** A name that [Set] is allowed to rebind: unbound, or bound non-constant. *)
Definition rebindable (s : scope.S) (name : string) : Prop :=
  forall old, scope.Get s name = Some old -> scope.Constant old = false.

(** The scope a call of [Set] leaves: the scope as it was where the call
    does not return. *)
Definition after_Set (renders : value -> bool) (s : scope.S) (name : string)
    (binding : scope.Binding) : scope.S :=
  match scope.Set_ renders s name binding with
  | Some (s', _) => s'
  | None => s
  end.

(** [Set] called once per value of [vs], each time with a non-constant
    binding. *)
Definition reassign (renders : value -> bool) (s : scope.S) (name : string)
    (vs : list value) : scope.S :=
  foldl (fun s v => after_Set renders s name (scope.mkBinding v false)) s vs.

(** The scope [s] with [name] bound to [binding]. *)
Definition bound (s : scope.S) (name : string) (binding : scope.Binding) : scope.S :=
  {| scope.Parent := scope.Parent s;
     scope.bindings := <[name := binding]> (scope.bindings s) |}.

(** The state [r] with the scope at [l] replaced by [s]. *)
Definition with_scope (l : loc) (s : scope.S) (r : Runtime) : Runtime :=
  set_scopes (<[l := s]> (scopes r)) r.

(** The state [r] with its active scope pointer set to [p]. *)
Definition with_Scope (p : option loc) (r : Runtime) : Runtime := snd (set_Scope p r).

(** The state after [e.Runtime.Scope = scope.New(e.Runtime.Scope)]. *)
Definition pushed (r : Runtime) : Runtime := snd (push_scope r).

(** The statements of a list evaluate one after the other, none failing,
    and take the state from [r] to [r']. *)
Inductive evaluated (ev : node -> M value) : list node -> Runtime -> Runtime -> Prop :=
| evaluated_nil r : evaluated ev [] r r
| evaluated_cons i v List r r1 r2 :
    ev i r = (Ok v, r1) ->
    evaluated ev List r1 r2 ->
    evaluated ev (i :: List) r r2.

(** ** Calls and member access *)


(** The names [EvalDotExpr] answers with a built-in method. *)
Definition builtin_names : list (string * Method) :=
  [("reduce", reduce); ("map", map_); ("forEach", forEach)].

(** ** Operands *)

Definition is_number (v : value) : bool :=
  match v with VInt _ | VFloat64 _ => true | _ => false end.
Definition is_float (v : value) : bool :=
  match v with VFloat64 _ => true | _ => false end.
Definition is_string (v : value) : bool :=
  match v with VString _ => true | _ => false end.
Definition is_array (v : value) : bool :=
  match v with VSlice _ => true | _ => false end.

(** The operand pairs of [+] with a result: number and number, string and
    number or string, array and array. *)
Definition Add_supported (x y : value) : bool :=
  (is_number x && is_number y)
  || (is_string x && (is_number y || is_string y))
  || (is_array x && is_array y).

(** A string written [n] times in a row. *)
Fixpoint repeat_string (s : string) (n : nat) : string :=
  match n with
  | O => ""
  | S n' => s +:+ repeat_string s n'
  end.

(** ** Example programs and states *)

Definition num (Data : string) : node := LiteralExpr DecimalToken Data.
Definition declare (name : string) (init : node) : BindingElement :=
  mkBindingElement (BindVar name) init.
Definition assign (X Y : node) : node := ExprStmt (BinaryExpr EqToken X Y).

(** A fresh runtime of a machine without globals. *)
Definition r_new : Runtime := NewRuntime ∅.

(** One scope with a constant [a] and a non-constant [b]. *)
Definition s_ab : scope.S :=
  {| scope.Parent := None;
     scope.bindings := {[ "a" := scope.mkBinding (VInt 1) true;
                          "b" := scope.mkBinding (VInt 1) false ]} |}.

(** A runtime whose active scope, the only one, is [s_ab]. *)
Definition r_ab : Runtime :=
  {| M_Globals := ∅; Globals := ∅; Scope := Some 0%nat; scopes := [s_ab];
     maps := []; slices := []; calls := [] |}.

(** One scope with the constant [a], an object. *)
Definition s_self : scope.S :=
  {| scope.Parent := None;
     scope.bindings := {[ "a" := scope.mkBinding (VMap 0) true ]} |}.

(** The runtime after [const a = {}; a.self = a]: its active scope, the
    only one, is [s_self], and the object of [a] holds itself. *)
Definition r_self : Runtime :=
  {| M_Globals := ∅; Globals := ∅; Scope := Some 0%nat; scopes := [s_self];
     maps := [{[ "self" := VMap 0 ]}]; slices := []; calls := [] |}.

(** [const a = {}; a.self = a; a = 1] *)
Definition const_self_then_assign : list node :=
  [VarDecl ConstToken [declare "a" (ObjectExpr [])];
   assign (DotExpr (Var "a") "self") (Var "a");
   assign (Var "a") (num "1")].

(** A fresh runtime holding the array [[0, 2, 4]] at location 0. *)
Definition r_array : Runtime := set_slices [[VInt 0; VInt 2; VInt 4]] r_new.

(** [return 1; 2] *)
Definition block_return_then_2 : list node :=
  [ReturnStmt (num "1"); ExprStmt (num "2")].

(** An object literal with the one key [map], of value 1. *)
Definition object_with_map : node := ObjectExpr [mkProperty "map" Nil (num "1")].

(** [const a = 1; { a = 2; }] *)
Definition const_then_assign_in_block : list node :=
  [VarDecl ConstToken [declare "a" (num "1")];
   BlockStmt [assign (Var "a") (num "2")]].

(** [function f() {}; var f = 1; f] *)
Definition function_then_var : list node :=
  [FuncDecl (Some "f") [] [];
   VarDecl VarToken [declare "f" (num "1")];
   ExprStmt (Var "f")].

(** [(x = 7) => { x }], made in the root scope. *)
Definition f_default_7 : value :=
  VJSFunc (Some 0%nat) [declare "x" (num "7")] [ExprStmt (Var "x")].

(** [[0, 2, 4]] *)
Definition array_0_2_4 : node := ArrayExpr [num "0"; num "2"; num "4"].

(** [let n = 0 - 1; const a = [0, 2, 4]; a[n]] *)
Definition read_at_minus_1 : list node :=
  [VarDecl LetToken [declare "n" (BinaryExpr SubToken (num "0") (num "1"))];
   VarDecl ConstToken [declare "a" array_0_2_4];
   ExprStmt (IndexExpr (Var "a") (Var "n"))].

(** [let n = 0 - 1; const a = [0, 2, 4]; a[n] = 6] *)
Definition write_at_minus_1 : list node :=
  [VarDecl LetToken [declare "n" (BinaryExpr SubToken (num "0") (num "1"))];
   VarDecl ConstToken [declare "a" array_0_2_4];
   assign (IndexExpr (Var "a") (Var "n")) (num "6")].

(** ['a' + [1]] *)
Definition string_plus_array : node :=
  BinaryExpr AddToken (LiteralExpr StringToken "'a'") (ArrayExpr [num "1"]).

(** [let n = 0 - 1; [0, 2, 4] * n] *)
Definition array_times_minus_1 : list node :=
  [VarDecl LetToken [declare "n" (BinaryExpr SubToken (num "0") (num "1"))];
   ExprStmt (BinaryExpr MulToken array_0_2_4 (Var "n"))].

(** ** Name resolution *)

(** The scopes met from the pointer [p] outwards, following [Parent] to the
    root. *)
Inductive chain (r : Runtime) : option loc -> list scope.S -> Prop :=
| chain_root : chain r None []
| chain_parent l s ss :
    scopes r !! l = Some s ->
    chain r (scope.Parent s) ss ->
    chain r (Some l) (s :: ss).

(** The item of the first binding of [name] along a list of scopes. *)
Fixpoint resolve (ss : list scope.S) (name : string) : option value :=
  match ss with
  | [] => None
  | s :: ss' =>
      match scope.Get s name with
      | Some binding => Some (scope.Item binding)
      | None => resolve ss' name
      end
  end.

(** A scope binding [a] to 5, child of the scope at location 0. *)
Definition s_inner : scope.S :=
  {| scope.Parent := Some 0%nat;
     scope.bindings := {[ "a" := scope.mkBinding (VInt 5) false ]} |}.

(** A runtime with [s_ab] at the root, [s_inner] active, and the globals
    [g] of the runtime and [g], [h] of the machine. *)
Definition r_nested : Runtime :=
  {| M_Globals := {[ "g" := VInt 8; "h" := VInt 9 ]}; Globals := {[ "g" := VInt 7 ]};
     Scope := Some 1%nat; scopes := [s_ab; s_inner];
     maps := []; slices := []; calls := [] |}.

(** ** The scope discipline *)

(** What a step of evaluation from [r] to [r'] keeps: the active scope
    pointer; every scope that existed, unchanged unless it is the active
    one, which keeps at least its parent; and the sizes of the three heaps,
    which never shrink. *)
Record frame (r r' : Runtime) : Prop := mkFrame {
  frame_Scope : Scope r' = Scope r;
  frame_scopes : (length (scopes r) <= length (scopes r'))%nat;
  frame_inactive : forall l,
    Scope r <> Some l -> (l < length (scopes r))%nat -> scopes r' !! l = scopes r !! l;
  frame_parent : forall l s,
    scopes r !! l = Some s ->
    exists s', scopes r' !! l = Some s' /\ scope.Parent s' = scope.Parent s;
  frame_maps : (length (maps r) <= length (maps r'))%nat;
  frame_slices : (length (slices r) <= length (slices r'))%nat
}.

(** The same, with the active scope unchanged too: what a block, a loop
    iteration or a call keeps. *)
Definition sealed (r r' : Runtime) : Prop :=
  Scope r' = Scope r
  /\ (forall l, (l < length (scopes r))%nat -> scopes r' !! l = scopes r !! l)
  /\ (length (scopes r) <= length (scopes r'))%nat
  /\ (length (maps r) <= length (maps r'))%nat
  /\ (length (slices r) <= length (slices r'))%nat.

(** A computation that keeps the frame however it ends, short of running
    out of fuel. *)
Definition keeps_frame {A} (c : M A) : Prop :=
  forall r res r', c r = (res, r') -> res <> OutOfFuel -> frame r r'.

Definition keeps_sealed {A} (c : M A) : Prop :=
  forall r res r', c r = (res, r') -> res <> OutOfFuel -> sealed r r'.

(** A host whose functions keep the frame. *)
Definition natives_keep_frame (P : Platform) : Prop :=
  forall id args, keeps_frame (Run_ (natives id) args).

(** The capture function of the tests: it takes one value and returns
    nothing; what it was given is in [calls]. *)
Definition out : NativeFunc :=
  {| Type_ := {| Ins := [TInterface]; IsVariadic := false; Outs := [TInterface; TError] |};
     CodePointer := 0;
     Run_ := fun _ => ret VNil |}.

(** The platform [P] with the host functions replaced by [host]. *)
Definition with_natives (P : Platform) (host : nat -> NativeFunc) : Platform :=
  {| fmt_Sprint_float64 := @fmt_Sprint_float64 P;
     fmt_Sprint_ref := @fmt_Sprint_ref P;
     strconv_ParseFloat := @strconv_ParseFloat P;
     range_map := @range_map P;
     natives := host |}.

(** A fresh runtime of a machine whose one global is [out]. *)
Definition r_out : Runtime := NewRuntime {[ "out" := VNative 0 ]}.

(** [const a = 1; { a = 2; out(a); }] *)
Definition const_assign_out_in_block : list node :=
  [VarDecl ConstToken [declare "a" (num "1")];
   BlockStmt [assign (Var "a") (num "2");
              ExprStmt (CallExpr (Var "out") [Var "a"])]].

(** [(x) => { x = 2; }], made in the root scope. *)
Definition f_assigns_param : value :=
  VJSFunc (Some 0%nat) [declare "x" Nil] [assign (Var "x") (num "2")].

(** A fresh runtime holding, at location 0, an object with the one key [k],
    of value 1. *)
Definition r_object : Runtime := set_maps [{[ "k" := VInt 1 ]}] r_new.

(** A runtime whose one scope binds [o] to the object at location 0, of the
    one key [k], and [a] to the array [[0, 2, 4]] at location 0. *)
Definition r_heap : Runtime :=
  {| M_Globals := ∅; Globals := ∅; Scope := Some 0%nat;
     scopes := [{| scope.Parent := None;
                   scope.bindings := {[ "o" := scope.mkBinding (VMap 0) true;
                                        "a" := scope.mkBinding (VSlice 0) true ]} |}];
     maps := [{[ "k" := VInt 1 ]}];
     slices := [[VInt 0; VInt 2; VInt 4]];
     calls := [] |}.

Definition str (Data : string) : node := LiteralExpr StringToken Data.

(** The expressions of a list evaluate one after the other to the values
    [vs], none failing, and take the state from [r] to [r']. *)
Inductive yielded (ev : node -> M value)
  : list node -> Runtime -> list value -> Runtime -> Prop :=
| yielded_nil r : yielded ev [] r [] r
| yielded_cons i v List vs r r1 r2 :
    ev i r = (Ok v, r1) ->
    yielded ev List r1 vs r2 ->
    yielded ev (i :: List) r (v :: vs) r2.

(** ** Globals *)

(** The two tables of globals are what they were. *)
Definition same_globals (r r' : Runtime) : Prop :=
  Globals r' = Globals r /\ M_Globals r' = M_Globals r.

(** A computation that leaves the globals as they were, however it ends. *)
Definition keeps_globals {A} (c : M A) : Prop :=
  forall r res r', c r = (res, r') -> same_globals r r'.

(** A host whose functions leave the globals as they were. *)
Definition natives_keep_globals (P : Platform) : Prop :=
  forall id args, keeps_globals (Run_ (natives id) args).

(** [function f() {}; let x = 1] *)
Definition declares_f_and_x : list node :=
  [FuncDecl (Some "f") [] []; VarDecl LetToken [declare "x" (num "1")]].

(** ** Renderings *)

(** The text [fmt.Sprint] gives for a value in a state. *)
Definition rendered `{Platform} (r : Runtime) (v : value) : string :=
  match fst (Sprint v r) with
  | Ok s => s
  | _ => ""
  end.

(** ** Built-in methods *)

(** The number of arguments a built-in method takes. *)
Definition arity (m : Method) : nat :=
  match m with
  | reduce => 2
  | map_ | forEach => 1
  end.

(** A host function of the type of the interpreted functions,
    [func(...interface{}) (interface{}, error)], that adds two integers. *)
Definition plus : NativeFunc :=
  {| Type_ := JSFuncType;
     CodePointer := 1;
     Run_ := fun args =>
       match args with
       | [VInt a; VInt b] => ret (VInt (GoInt.add a b))
       | _ => ret VNil
       end |}.

(** What [plus] answers. *)
Definition plus_of (el sum : value) : value :=
  match el, sum with
  | VInt a, VInt b => VInt (GoInt.add a b)
  | _, _ => VNil
  end.

(** ** Statements *)

(** The outcome of a statement whose value is dropped: Undefined where it
    had a value, the error or panic as it is. *)
Definition dropped {A} (out : result A * Runtime) : result value * Runtime :=
  match out with
  | (Ok _, r) => (Ok VNil, r)
  | (Err e, r) => (Err e, r)
  | (Panic p, r) => (Panic p, r)
  | (OutOfFuel, r) => (OutOfFuel, r)
  end.

Definition is_VarDecl (i : node) : bool :=
  match i with VarDecl _ _ => true | _ => false end.

Definition is_iterable (v : value) : bool :=
  match v with VMap _ | VSlice _ => true | _ => false end.

(** [if (0) { 1 } else { 2 }] *)
Definition if_0_then_1_else_2 : node :=
  IfStmt (num "0") (BlockStmt [ExprStmt (num "1")]) (BlockStmt [ExprStmt (num "2")]).

(** ** Calls of interpreted functions *)

(** The state in which the closure of [GenerateJSFunction] binds its
    parameters and evaluates its body: a new scope, child of the scope the
    function was made in, is the active one. *)
Definition entered (parentScope : option loc) (r : Runtime) : Runtime :=
  with_Scope (Some (length (scopes r))) (set_scopes (scopes r ++ [scope.New parentScope]) r).

(** ** Object literals *)

(** The key of a property of an object literal: the literal name, or the
    rendering of the computed one. *)
Inductive named `{Platform} (ev : node -> M value) : Property -> Runtime -> string -> Runtime -> Prop :=
| named_literal prop r :
    Name_Computed prop = Nil ->
    named ev prop r (Name_Literal prop) r
| named_computed prop r iName r1 name :
    Name_Computed prop <> Nil ->
    ev (Name_Computed prop) r = (Ok iName, r1) ->
    Sprint iName r1 = (Ok name, r1) ->
    named ev prop r name r1.

(** The properties of a list evaluate one after the other, each its key
    before its value, none failing, to the keys and values [kvs]. *)
Inductive defined `{Platform} (ev : node -> M value)
  : list Property -> Runtime -> list (string * value) -> Runtime -> Prop :=
| defined_nil r : defined ev [] r [] r
| defined_cons prop name v List kvs r r1 r2 r3 :
    named ev prop r name r1 ->
    ev (Value prop) r1 = (Ok v, r2) ->
    defined ev List r2 kvs r3 ->
    defined ev (prop :: List) r ((name, v) :: kvs) r3.

(** The object a list of keys and values makes, written in that order. *)
Definition entries (kvs : list (string * value)) : gmap string value :=
  foldl (fun m kv => <[kv.1 := kv.2]> m) ∅ kvs.

(** [{a: 1, a: 2}] *)
Definition object_a_1_a_2 : list Property :=
  [mkProperty "a" Nil (num "1"); mkProperty "a" Nil (num "2")].

(** ** Member access *)

Definition is_object (v : value) : bool :=
  match v with VMap _ => true | _ => false end.

(** What an assignment can write to: a name, a member or an index. *)
Definition is_target (X : node) : bool :=
  match X with Var _ | DotExpr _ _ | IndexExpr _ _ => true | _ => false end.

(** ** Descents *)

(** A descent from [v]: each value is held by the one before it. *)
Fixpoint descends (r : Runtime) (v : value) (ws : list value) : Prop :=
  match ws with
  | [] => True
  | w :: ws' => w ∈ held r v /\ descends r w ws'
  end.

(** The place of an object or an array in the two heaps, one after the
    other. *)
Definition place (r : Runtime) (v : value) : nat :=
  match v with
  | VMap l => l
  | VSlice l => length (maps r) + l
  | _ => 0
  end.

(** A descent gone round [k] times. *)
Fixpoint laps (k : nat) (c : list value) : list value :=
  match k with
  | O => []
  | S k' => c ++ laps k' c
  end.

(** * Properties *)

(** ** Package scope: [Set] and constant bindings *)

Lemma Set_constant renders s name binding old :
  scope.Get s name = Some old ->
  scope.Constant old = true ->
  renders (scope.Item old) = true ->
  scope.Set_ renders s name binding = Some (s, Some (scope.MkMutatingConstantError old)).
Proof.
  unfold scope.Get, scope.Set_. intros -> -> ->. reflexivity.
Qed.

Lemma Set_constant_never_returns renders s name binding old :
  scope.Get s name = Some old ->
  scope.Constant old = true ->
  renders (scope.Item old) = false ->
  scope.Set_ renders s name binding = None.
Proof.
  unfold scope.Get, scope.Set_. intros -> -> ->. reflexivity.
Qed.

Lemma Set_rebindable renders s name binding :
  rebindable s name ->
  scope.Set_ renders s name binding = Some (bound s name binding, None).
Proof.
  unfold rebindable, scope.Get, scope.Set_. intros Hre.
  destruct (scope.bindings s !! name) as [old|] eqn:Hold; [|reflexivity].
  rewrite (Hre old eq_refl). reflexivity.
Qed.

Lemma bound_overwrites s name binding :
  scope.Get (bound s name binding) name = Some binding
  /\ (forall other, other <> name ->
        scope.Get (bound s name binding) other = scope.Get s other)
  /\ scope.Parent (bound s name binding) = scope.Parent s.
Proof.
  unfold scope.Get. cbn. repeat split.
  - apply lookup_insert_eq.
  - intros other Hne. apply lookup_insert_ne. congruence.
Qed.

Lemma reassign_snoc renders s name vs v :
  reassign renders s name (vs ++ [v]) =
  after_Set renders (reassign renders s name vs) name (scope.mkBinding v false).
Proof. unfold reassign. rewrite foldl_app. reflexivity. Qed.

Lemma reassign_rebindable renders s name vs :
  rebindable s name -> rebindable (reassign renders s name vs) name.
Proof.
  intros Hre. induction vs as [|v vs IH] using rev_ind; [exact Hre|].
  rewrite reassign_snoc. unfold after_Set. rewrite (Set_rebindable _ _ _ _ IH).
  intros old Hold. rewrite (proj1 (bound_overwrites _ _ _)) in Hold.
  injection Hold as <-. reflexivity.
Qed.

(** C7, on the code. [Set] on a name whose local binding is constant
    writes the message of the constant-mutation error before it returns
    it, and the message renders the old binding: when the item of that
    binding is an object or an array that holds itself, [fmt] does not get
    through it and [Set] does not return; on every other constant binding
    [Set] returns the error and leaves the scope as it was. On a name that
    is unbound or bound non-constant it returns no error, and the scope
    then holds the new binding under that name, with every other name and
    the parent untouched; and after any number of non-constant [Set]s of a
    name, one more succeeds and is the binding the scope then holds. *)
Theorem Set_renders_the_constant_it_refuses (renders : value -> bool) (s : scope.S)
    (name : string) (binding : scope.Binding) :
  (forall old, scope.Get s name = Some old -> scope.Constant old = true ->
     (renders (scope.Item old) = false -> scope.Set_ renders s name binding = None)
     /\ (renders (scope.Item old) = true ->
           scope.Set_ renders s name binding
           = Some (s, Some (scope.MkMutatingConstantError old))))
  /\ (rebindable s name ->
      scope.Set_ renders s name binding = Some (bound s name binding, None)
      /\ scope.Get (bound s name binding) name = Some binding
      /\ (forall other, other <> name ->
            scope.Get (bound s name binding) other = scope.Get s other)
      /\ scope.Parent (bound s name binding) = scope.Parent s)
  /\ (rebindable s name ->
      forall (vs : list value) (v : value),
        scope.Set_ renders (reassign renders s name vs) name (scope.mkBinding v false)
        = Some (reassign renders s name (vs ++ [v]), None)
        /\ scope.Get (reassign renders s name (vs ++ [v])) name
           = Some (scope.mkBinding v false)).
Proof.
  split; [|split].
  - intros old Hget Hconst. split; intros Hr.
    + exact (Set_constant_never_returns _ _ _ _ _ Hget Hconst Hr).
    + exact (Set_constant _ _ _ _ _ Hget Hconst Hr).
  - intros Hre. split; [exact (Set_rebindable _ _ _ _ Hre) | apply bound_overwrites].
  - intros Hre vs v.
    pose proof (reassign_rebindable renders s name vs Hre) as Hre'.
    rewrite reassign_snoc. unfold after_Set. rewrite (Set_rebindable _ _ _ _ Hre').
    split; [reflexivity | apply bound_overwrites].
Qed.

(** In the scope of [r_self] the constant [a] is an object that holds
    itself: [Set] on [a] does not return. In [s_ab], [Set] on the constant
    [a], which is 1, returns the error, and [b] takes a new binding each
    time. *)
Lemma Set_renders_the_constant_it_refuses_witness :
  (scope.Get s_self "a" = Some (scope.mkBinding (VMap 0) true)
   /\ renders r_self (VMap 0) = false
   /\ scope.Set_ (renders r_self) s_self "a" (scope.mkBinding (VInt 1) false) = None)
  /\ (scope.Get s_ab "a" = Some (scope.mkBinding (VInt 1) true)
      /\ scope.Set_ (renders r_ab) s_ab "a" (scope.mkBinding (VInt 2) false)
         = Some (s_ab, Some (scope.MkMutatingConstantError (scope.mkBinding (VInt 1) true))))
  /\ (rebindable s_ab "b"
      /\ scope.Set_ (renders r_ab) s_ab "b" (scope.mkBinding (VInt 2) true)
         = Some (bound s_ab "b" (scope.mkBinding (VInt 2) true), None)
      /\ scope.Get (reassign (renders r_ab) s_ab "b" ([VInt 2; VInt 3] ++ [VInt 4])) "b"
         = Some (scope.mkBinding (VInt 4) false)).
Proof.
  assert (Hb : rebindable s_ab "b").
  { intros old Hold. vm_compute in Hold. injection Hold as <-. reflexivity. }
  split; [|split].
  - split; [reflexivity|]. split; [reflexivity|].
    exact (proj1 (proj1 (Set_renders_the_constant_it_refuses (renders r_self) s_self "a"
                           (scope.mkBinding (VInt 1) false))
                    (scope.mkBinding (VMap 0) true) eq_refl eq_refl) eq_refl).
  - split; [reflexivity|].
    exact (proj2 (proj1 (Set_renders_the_constant_it_refuses (renders r_ab) s_ab "a"
                           (scope.mkBinding (VInt 2) false))
                    (scope.mkBinding (VInt 1) true) eq_refl eq_refl) eq_refl).
  - split; [exact Hb|]. split.
    + exact (proj1 (proj1 (proj2 (Set_renders_the_constant_it_refuses (renders r_ab) s_ab "b"
                                    (scope.mkBinding (VInt 2) true))) Hb)).
    + exact (proj2 (proj2 (proj2 (Set_renders_the_constant_it_refuses (renders r_ab) s_ab "b"
                                    (scope.mkBinding (VInt 2) true)))
                      Hb [VInt 2; VInt 3] (VInt 4))).
Defined.

(** ** Blocks and return *)

Section Blocks.

Variable ev : node -> M value.

Lemma push_scope_pushed r : push_scope r = (Ok tt, pushed r).
Proof. reflexivity. Qed.

Lemma pop_scope_parent r l s :
  Scope r = Some l -> scopes r !! l = Some s ->
  pop_scope r = (Ok tt, with_Scope (scope.Parent s) r).
Proof.
  intros Hl Hs. unfold pop_scope, bind, get_Scope, load_scope.
  rewrite Hl, Hs. reflexivity.
Qed.

(** The loop of a block goes through a prefix of statements that all
    succeed, whatever their kind, and carries on with the rest. *)
Lemma EvalBlockStmt_loop_app pre rest res r r1 :
  evaluated ev pre r r1 ->
  exists res', EvalBlockStmt_loop ev (pre ++ rest) res r = EvalBlockStmt_loop ev rest res' r1.
Proof.
  intros Hpre. revert res.
  induction Hpre as [r|i v List r r1 r2 Hi _ IH]; intros res.
  - exists res. reflexivity.
  - destruct (IH v) as [res' Hres']. exists res'.
    cbn [app EvalBlockStmt_loop]. unfold bind at 1. rewrite Hi. exact Hres'.
Qed.

Lemma EvalBlockStmt_last pre last r r1 r2 v l s :
  evaluated ev pre (pushed r) r1 ->
  ev last r1 = (Ok v, r2) ->
  Scope r2 = Some l -> scopes r2 !! l = Some s ->
  EvalBlockStmt ev (pre ++ [last]) r = (Ok v, with_Scope (scope.Parent s) r2).
Proof.
  intros Hpre Hlast Hl Hs.
  destruct (EvalBlockStmt_loop_app pre [last] VNil _ _ Hpre) as [res' Hloop].
  unfold EvalBlockStmt, bind at 1. rewrite push_scope_pushed.
  unfold defer. rewrite Hloop. cbn [EvalBlockStmt_loop]. unfold bind at 1.
  rewrite Hlast. cbn [ret]. rewrite (pop_scope_parent _ _ _ Hl Hs). reflexivity.
Qed.

End Blocks.

Section BlocksOnEval.

Context `{Platform}.

(** C3. A return statement evaluates to what its operand evaluates to; a
    block whose statements all succeed evaluates every one of them, a return
    among them included, and its result is the value of the last statement;
    in particular the block [return a; b] evaluates [b] after the return and
    yields the value of [b]. *)
Theorem block_result_is_last_statement (n : nat) :
  (forall Value r, Eval (S n) (ReturnStmt Value) r = Eval n Value r)
  /\ (forall pre last r r1 r2 v l s,
        evaluated (Eval n) pre (pushed r) r1 ->
        Eval n last r1 = (Ok v, r2) ->
        Scope r2 = Some l -> scopes r2 !! l = Some s ->
        Eval (S n) (BlockStmt (pre ++ [last])) r
        = (Ok v, with_Scope (scope.Parent s) r2))
  /\ (forall a b r r1 r2 va vb l s,
        Eval n (ReturnStmt a) (pushed r) = (Ok va, r1) ->
        Eval n b r1 = (Ok vb, r2) ->
        Scope r2 = Some l -> scopes r2 !! l = Some s ->
        Eval (S n) (BlockStmt [ReturnStmt a; b]) r
        = (Ok vb, with_Scope (scope.Parent s) r2)).
Proof.
  split; [|split].
  - reflexivity.
  - intros pre last r r1 r2 v l s Hpre Hlast Hl Hs.
    cbn [Eval Eval_node]. eapply EvalBlockStmt_last; eassumption.
  - intros a b r r1 r2 va vb l s Ha Hb Hl Hs.
    cbn [Eval Eval_node].
    apply (EvalBlockStmt_last (Eval n) [ReturnStmt a] b r r1 r2 vb l s); try assumption.
    econstructor; [exact Ha | constructor].
Qed.

End BlocksOnEval.

(** The block [return 1; 2] yields 2 on every platform. *)
Lemma block_result_is_last_statement_witness :
  (forall P : Platform,
     Eval 2 (ReturnStmt (num "1")) (pushed r_new) = (Ok (VInt 1), pushed r_new)
     /\ Eval 2 (ExprStmt (num "2")) (pushed r_new) = (Ok (VInt 2), pushed r_new)
     /\ Scope (pushed r_new) = Some 1%nat
     /\ scopes (pushed r_new) !! 1%nat = Some (scope.New (Some 0%nat)))
  /\ (forall P : Platform,
        Eval 3 (BlockStmt block_return_then_2) r_new
        = (Ok (VInt 2), with_Scope (Some 0%nat) (pushed r_new))).
Proof.
  split.
  - intros P. repeat split.
  - intros P.
    apply (proj2 (proj2 (block_result_is_last_statement 2))
             (num "1") (num "2") r_new (pushed r_new) (pushed r_new)
             (VInt 1) (VInt 2) 1%nat (scope.New (Some 0%nat)));
      reflexivity.
Defined.

(** ** Setting a name in the active scope *)

Lemma with_scope_same r l s : scopes r !! l = Some s -> with_scope l s r = r.
Proof.
  intros Hs. unfold with_scope. rewrite (list_insert_id _ _ _ Hs).
  destruct r; reflexivity.
Qed.

Lemma Scope_Set_constant r l s name binding old :
  Scope r = Some l -> scopes r !! l = Some s ->
  scope.Get s name = Some old -> scope.Constant old = true ->
  renders r (scope.Item old) = true ->
  Scope_Set name binding r = (Ok (Some (scope.MkMutatingConstantError old)), r).
Proof.
  intros Hl Hs Hold Hconst Hr.
  unfold Scope_Set, bind, get_Scope, load_scope. rewrite Hl, Hs.
  rewrite (Set_constant _ _ _ _ _ Hold Hconst Hr). cbn.
  fold (with_scope l s r). rewrite (with_scope_same _ _ _ Hs). reflexivity.
Qed.

Lemma Scope_Set_never_returns r l s name binding old :
  Scope r = Some l -> scopes r !! l = Some s ->
  scope.Get s name = Some old -> scope.Constant old = true ->
  renders r (scope.Item old) = false ->
  Scope_Set name binding r = (OutOfFuel, r).
Proof.
  intros Hl Hs Hold Hconst Hr.
  unfold Scope_Set, bind, get_Scope, load_scope. rewrite Hl, Hs.
  rewrite (Set_constant_never_returns _ _ _ _ _ Hold Hconst Hr). reflexivity.
Qed.

Lemma Scope_Set_rebindable r l s name binding :
  Scope r = Some l -> scopes r !! l = Some s ->
  rebindable s name ->
  Scope_Set name binding r = (Ok None, with_scope l (bound s name binding) r).
Proof.
  intros Hl Hs Hre.
  unfold Scope_Set, bind, get_Scope, load_scope. rewrite Hl, Hs.
  rewrite (Set_rebindable _ _ _ _ Hre). reflexivity.
Qed.

Lemma with_scope_lookup r l s l' :
  l' <> l -> scopes (with_scope l s r) !! l' = scopes r !! l'.
Proof. intros Hne. cbn. apply list_lookup_insert_ne. congruence. Qed.

Lemma with_scope_lookup_eq r l s s0 :
  scopes r !! l = Some s0 -> scopes (with_scope l s r) !! l = Some s.
Proof.
  intros Hs. cbn. apply list_lookup_insert_eq. eapply lookup_lt_Some. exact Hs.
Qed.

(** ** Member access *)

Section DotAccess.

Context `{Platform}.

Lemma Method_of_builtin_names Y m : In (Y, m) builtin_names -> Method_of Y = Some m.
Proof.
  cbn. intros [Heq|[Heq|[Heq|[]]]]; injection Heq as <- <-; reflexivity.
Qed.

(** C9. When the object a dot expression is applied to stores an entry under
    [reduce], [map] or [forEach], dot access with that name yields the
    built-in method of that name bound to the object, whatever the stored
    entry is, and leaves the state as the evaluation of the object
    expression left it. *)
Theorem EvalDotExpr_builtin_hides_entry (n : nat) (X : node) (Y : string) (m : Method)
    (r r1 : Runtime) (l : loc) (obj : gmap string value) (stored : value) :
  In (Y, m) builtin_names ->
  Eval n X r = (Ok (VMap l), r1) ->
  maps r1 !! l = Some obj ->
  obj !! Y = Some stored ->
  Eval (S n) (DotExpr X Y) r = (Ok (VBuiltin OnMap m l), r1).
Proof.
  intros Hin HX _ _. cbn [Eval Eval_node]. unfold EvalDotExpr, bind.
  rewrite HX, (Method_of_builtin_names _ _ Hin). reflexivity.
Qed.

(** Under every other name, dot access yields the stored entry. *)
Lemma EvalDotExpr_other_name (n : nat) (X : node) (Y : string)
    (r r1 : Runtime) (l : loc) (obj : gmap string value) (stored : value) :
  Method_of Y = None ->
  Eval n X r = (Ok (VMap l), r1) ->
  maps r1 !! l = Some obj ->
  obj !! Y = Some stored ->
  Eval (S n) (DotExpr X Y) r = (Ok stored, r1).
Proof.
  intros HY HX Hobj Hstored. cbn [Eval Eval_node]. unfold EvalDotExpr, bind.
  rewrite HX, HY. unfold load_map. rewrite Hobj. cbn. rewrite Hstored. reflexivity.
Qed.

End DotAccess.

(** On an object whose one key is [map], [.map] is the built-in method, not
    the stored 1. *)
Lemma EvalDotExpr_builtin_hides_entry_witness :
  In ("map", map_) builtin_names
  /\ (forall P : Platform,
        Eval 2 object_with_map r_new
        = (Ok (VMap 0), set_maps [{[ "map" := VInt 1 ]}] r_new))
  /\ (forall P : Platform,
        Eval 3 (DotExpr object_with_map "map") r_new
        = (Ok (VBuiltin OnMap map_ 0), set_maps [{[ "map" := VInt 1 ]}] r_new)).
Proof.
  assert (Hin : In ("map", map_) builtin_names) by (right; left; reflexivity).
  split; [exact Hin|]. split.
  - intros P. vm_compute. reflexivity.
  - intros P.
    apply (EvalDotExpr_builtin_hides_entry 2 object_with_map "map" map_ r_new
             (set_maps [{[ "map" := VInt 1 ]}] r_new) 0 {[ "map" := VInt 1 ]} (VInt 1) Hin).
    + vm_compute. reflexivity.
    + reflexivity.
    + reflexivity.
Defined.

(** ** Division *)

Section Division.

Context `{Platform}.

(** C4, on the code. The operator switch of [EvalBinaryExpr] has no case for
    the division token: a [/] expression never yields a value, and once its
    two operands have been evaluated it fails with the not-implemented
    error, whatever the operands are; [Div] is never reached. *)
Theorem EvalBinaryExpr_Div_not_implemented (n : nat) (X Y : node) (r : Runtime) :
  (forall v r', Eval (S n) (BinaryExpr DivToken X Y) r <> (Ok v, r'))
  /\ (forall x y r1 r2,
        Eval n X r = (Ok x, r1) ->
        Eval n Y r1 = (Ok y, r2) ->
        Eval (S n) (BinaryExpr DivToken X Y) r
        = (Err (NotImplementedError (inl (BinaryExpr DivToken X Y))), r2)).
Proof.
  split.
  - intros v r'. cbn [Eval Eval_node]. unfold EvalBinaryExpr, bind.
    destruct (Eval n X r) as [[x| | |] r1]; try discriminate.
    destruct (Eval n Y r1) as [[y| | |] r2]; discriminate.
  - intros x y r1 r2 HX HY. cbn [Eval Eval_node]. unfold EvalBinaryExpr, bind.
    rewrite HX, HY. reflexivity.
Qed.

End Division.

(** [4 / 2] fails with the not-implemented error on every platform. *)
Lemma EvalBinaryExpr_Div_not_implemented_witness :
  (forall P : Platform,
     Eval 1 (num "4") r_new = (Ok (VInt 4), r_new)
     /\ Eval 1 (num "2") r_new = (Ok (VInt 2), r_new))
  /\ (forall P : Platform,
        Eval 2 (BinaryExpr DivToken (num "4") (num "2")) r_new
        = (Err (NotImplementedError (inl (BinaryExpr DivToken (num "4") (num "2")))), r_new)).
Proof.
  split.
  - intros P. split; reflexivity.
  - intros P.
    apply (proj2 (EvalBinaryExpr_Div_not_implemented 1 (num "4") (num "2") r_new)
             (VInt 4) (VInt 2) r_new r_new); reflexivity.
Defined.

(** ** Assignment to a bare name *)

Section Assignment.

Context `{Platform}.

(** C2, as the code has it. [x = v] calls [Set] on the active scope and on
    no other. When the active scope itself binds [x] constant, to a value
    that the message of the error can render, it fails with the
    constant-mutation error; when the active scope does not bind [x], or
    not constant, it binds [x], non-constant, in the active scope and
    changes no other scope, whatever the enclosing scopes bind [x] to. *)
Theorem EvalAssignment_sets_active_scope (n : nat) (name : string) (Y : node)
    (r r1 : Runtime) (y : value) (l : loc) (s : scope.S) :
  Eval n Y r = (Ok y, r1) ->
  Scope r1 = Some l ->
  scopes r1 !! l = Some s ->
  (forall old, scope.Get s name = Some old -> scope.Constant old = true ->
     renders r1 (scope.Item old) = true ->
     Eval (S n) (BinaryExpr EqToken (Var name) Y) r
     = (Err (MutatingConstantError (scope.MkMutatingConstantError old)), r1))
  /\ (rebindable s name ->
      Eval (S n) (BinaryExpr EqToken (Var name) Y) r
      = (Ok y, with_scope l (bound s name (scope.mkBinding y false)) r1)
      /\ forall l', l' <> l ->
           scopes (with_scope l (bound s name (scope.mkBinding y false)) r1) !! l'
           = scopes r1 !! l').
Proof.
  intros HY Hl Hs. split.
  - intros old Hold Hconst Hr. cbn [Eval Eval_node].
    unfold EvalBinaryExpr, EvalAssignment, bind.
    rewrite HY, (Scope_Set_constant _ _ _ _ _ _ Hl Hs Hold Hconst Hr). reflexivity.
  - intros Hre. split.
    + cbn [Eval Eval_node]. unfold EvalBinaryExpr, EvalAssignment, bind.
      rewrite HY, (Scope_Set_rebindable _ _ _ _ _ Hl Hs Hre). reflexivity.
    + intros l' Hne. apply with_scope_lookup. exact Hne.
Qed.

End Assignment.

(** In the scope [s_ab], [b = 2] rebinds [b] and [a = 2] fails, on every
    platform. *)
Lemma EvalAssignment_sets_active_scope_witness :
  (forall P : Platform, Eval 1 (num "2") r_ab = (Ok (VInt 2), r_ab))
  /\ Scope r_ab = Some 0%nat
  /\ scopes r_ab !! 0%nat = Some s_ab
  /\ rebindable s_ab "b"
  /\ scope.Get s_ab "a" = Some (scope.mkBinding (VInt 1) true)
  /\ renders r_ab (VInt 1) = true
  /\ (forall P : Platform,
        Eval 2 (BinaryExpr EqToken (Var "b") (num "2")) r_ab
        = (Ok (VInt 2), with_scope 0 (bound s_ab "b" (scope.mkBinding (VInt 2) false)) r_ab))
  /\ (forall P : Platform,
        Eval 2 (BinaryExpr EqToken (Var "a") (num "2")) r_ab
        = (Err (MutatingConstantError
                  (scope.MkMutatingConstantError (scope.mkBinding (VInt 1) true))), r_ab)).
Proof.
  assert (Hb : rebindable s_ab "b").
  { intros old Hold. vm_compute in Hold. injection Hold as <-. reflexivity. }
  split; [intros P; reflexivity|]. split; [reflexivity|]. split; [reflexivity|].
  split; [exact Hb|]. split; [reflexivity|]. split; [reflexivity|]. split; intros P.
  - apply (proj2 (EvalAssignment_sets_active_scope 1 "b" (num "2") r_ab r_ab (VInt 2) 0 s_ab
                    eq_refl eq_refl eq_refl) Hb).
  - apply (proj1 (EvalAssignment_sets_active_scope 1 "a" (num "2") r_ab r_ab (VInt 2) 0 s_ab
                    eq_refl eq_refl eq_refl)
             (scope.mkBinding (VInt 1) true) eq_refl eq_refl eq_refl).
Defined.

(** What [const a = 1; { a = 2; }] does on every platform: no error; the
    block's scope, at location 2, got a binding of its own, and the constant
    of the enclosing scope, at location 1, still holds 1. *)
Lemma const_then_assign_in_block_runs (P : Platform) (fuel : nat) :
  exists r,
    Run (5 + fuel) const_then_assign_in_block r_new = (Ok tt, r)
    /\ scopes r !! 1%nat = Some (bound (scope.New (Some 0%nat)) "a" (scope.mkBinding (VInt 1) true))
    /\ scopes r !! 2%nat = Some (bound (scope.New (Some 1%nat)) "a" (scope.mkBinding (VInt 2) false)).
Proof. eexists. split; [|split]; vm_compute; reflexivity. Qed.

(** C2, the claim as stated, refuted: assigning in an inner block to a name
    that the enclosing scope binds constant does not fail with the
    constant-mutation error, on any platform and with any fuel. *)
Lemma assign_to_enclosing_const_does_not_fail :
  ~ exists (P : Platform) (fuel : nat) (e : scope.MutatingConstantError) (r : Runtime),
      Run fuel const_then_assign_in_block r_new = (Err (MutatingConstantError e), r).
Proof.
  intros (P & fuel & e & r & Hrun).
  do 5 (destruct fuel as [|fuel]; [vm_compute in Hrun; discriminate|]).
  destruct (const_then_assign_in_block_runs P fuel) as (r' & Hok & _).
  cbn [Nat.add] in Hok. rewrite Hok in Hrun. discriminate.
Qed.

(** ** Declarations *)

Section Declarations.

Variable ev : node -> M value.

(** A binding element given a value binds it as it is. *)
Lemma EvalBindingElement_value name dflt value constant r :
  value <> VNil ->
  EvalBindingElement ev (declare name dflt) value constant r
  = (_ <- Scope_Set name (scope.mkBinding value constant) ;; ret tt) r.
Proof.
  intros Hv. unfold EvalBindingElement. cbn [Binding declare].
  destruct value; try contradiction; reflexivity.
Qed.

(** A binding element given nil binds what its default evaluates to. *)
Lemma EvalBindingElement_nil name dflt constant r v r1 :
  ev dflt r = (Ok v, r1) ->
  EvalBindingElement ev (declare name dflt) VNil constant r
  = (_ <- Scope_Set name (scope.mkBinding v constant) ;; ret tt) r1.
Proof.
  intros Hd. unfold EvalBindingElement. cbn [Binding Default declare].
  unfold bind at 1. rewrite Hd. reflexivity.
Qed.

End Declarations.

Section Redeclaration.

Context `{Platform}.

(** C8, as the code has it. A [let]/[const] declaration of a name, its
    initial value evaluated without error, and a parameter binding given a
    value, return no error whatever the active scope already binds the name
    to; when that binding is absent or not constant the new binding replaces
    it, and when it is constant, of a value that the message of the error
    [Set] makes can render, the declaration changes nothing: the old binding
    stays. *)
Theorem redeclaration_never_fails (n : nat) :
  (forall tok name init r r1 v l s,
     Eval n init r = (Ok v, r1) ->
     Scope r1 = Some l ->
     scopes r1 !! l = Some s ->
     let constant := match tok with ConstToken => true | _ => false end in
     (rebindable s name ->
        Eval (S n) (VarDecl tok [declare name init]) r
        = (Ok VNil, with_scope l (bound s name (scope.mkBinding v constant)) r1))
     /\ (forall old, scope.Get s name = Some old -> scope.Constant old = true ->
           renders r1 (scope.Item old) = true ->
           Eval (S n) (VarDecl tok [declare name init]) r = (Ok VNil, r1)))
  /\ (forall name dflt value r l s,
        value <> VNil ->
        Scope r = Some l ->
        scopes r !! l = Some s ->
        (rebindable s name ->
           EvalBindingElement (Eval n) (declare name dflt) value false r
           = (Ok tt, with_scope l (bound s name (scope.mkBinding value false)) r))
        /\ (forall old, scope.Get s name = Some old -> scope.Constant old = true ->
              renders r (scope.Item old) = true ->
              EvalBindingElement (Eval n) (declare name dflt) value false r = (Ok tt, r))).
Proof.
  split.
  - intros tok name init r r1 v l s Hinit Hl Hs constant. split.
    + intros Hre.
      cbn [Eval Eval_node]. unfold EvalVarDecl. cbn [EvalVarDecl_loop]. unfold bind at 1 2.
      fold constant. rewrite (EvalBindingElement_nil _ _ _ _ _ _ _ Hinit).
      unfold bind at 1. rewrite (Scope_Set_rebindable _ _ _ _ _ Hl Hs Hre). reflexivity.
    + intros old Hold Hconst Hr.
      cbn [Eval Eval_node]. unfold EvalVarDecl. cbn [EvalVarDecl_loop]. unfold bind at 1 2.
      fold constant. rewrite (EvalBindingElement_nil _ _ _ _ _ _ _ Hinit).
      unfold bind at 1. rewrite (Scope_Set_constant _ _ _ _ _ _ Hl Hs Hold Hconst Hr).
      reflexivity.
  - intros name dflt value r l s Hv Hl Hs. split.
    + intros Hre. rewrite (EvalBindingElement_value _ _ _ _ _ _ Hv).
      unfold bind. rewrite (Scope_Set_rebindable _ _ _ _ _ Hl Hs Hre). reflexivity.
    + intros old Hold Hconst Hr. rewrite (EvalBindingElement_value _ _ _ _ _ _ Hv).
      unfold bind. rewrite (Scope_Set_constant _ _ _ _ _ _ Hl Hs Hold Hconst Hr). reflexivity.
Qed.

End Redeclaration.

(** In the scope [s_ab], [const a = 2] changes nothing and [const b = 2]
    rebinds [b], neither with an error, on every platform. *)
Lemma redeclaration_never_fails_witness :
  (forall P : Platform, Eval 1 (num "2") r_ab = (Ok (VInt 2), r_ab))
  /\ Scope r_ab = Some 0%nat
  /\ scopes r_ab !! 0%nat = Some s_ab
  /\ rebindable s_ab "b"
  /\ scope.Get s_ab "a" = Some (scope.mkBinding (VInt 1) true)
  /\ renders r_ab (VInt 1) = true
  /\ (forall P : Platform,
        Eval 2 (VarDecl ConstToken [declare "b" (num "2")]) r_ab
        = (Ok VNil, with_scope 0 (bound s_ab "b" (scope.mkBinding (VInt 2) true)) r_ab))
  /\ (forall P : Platform,
        Eval 2 (VarDecl ConstToken [declare "a" (num "2")]) r_ab = (Ok VNil, r_ab))
  /\ (forall P : Platform,
        EvalBindingElement (Eval 1) (declare "a" Nil) (VInt 2) false r_ab = (Ok tt, r_ab)).
Proof.
  assert (Hb : rebindable s_ab "b").
  { intros old Hold. vm_compute in Hold. injection Hold as <-. reflexivity. }
  split; [intros P; reflexivity|]. split; [reflexivity|]. split; [reflexivity|].
  split; [exact Hb|]. split; [reflexivity|]. split; [reflexivity|].
  split; [|split]; intros P.
  - apply (proj1 (proj1 (redeclaration_never_fails 1) ConstToken "b" (num "2") r_ab r_ab
                    (VInt 2) 0 s_ab eq_refl eq_refl eq_refl) Hb).
  - apply (proj2 (proj1 (redeclaration_never_fails 1) ConstToken "a" (num "2") r_ab r_ab
                    (VInt 2) 0 s_ab eq_refl eq_refl eq_refl)
             (scope.mkBinding (VInt 1) true) eq_refl eq_refl eq_refl).
  - apply (proj2 (proj2 (redeclaration_never_fails 1) "a" Nil (VInt 2) r_ab 0 s_ab
                    ltac:(discriminate) eq_refl eq_refl)
             (scope.mkBinding (VInt 1) true) eq_refl eq_refl eq_refl).
Defined.

(** What [function f() {}; var f = 1; f] evaluates to on every platform:
    the function, which its declaration bound constant. *)
Lemma function_then_var_yields_function (P : Platform) (fuel : nat) :
  fst (Eval (3 + fuel) (BlockStmt function_then_var) r_new)
  = Ok (VJSFunc (Some 1%nat) [] []).
Proof. vm_compute. reflexivity. Qed.

(** C8, the claim as stated, refuted: after the name of a declared function,
    a constant binding, is declared again with [var f = 1], the name does
    not evaluate to 1, on any platform and with any fuel. *)
Lemma redeclared_const_is_not_replaced :
  ~ exists (P : Platform) (fuel : nat),
      fst (Eval fuel (BlockStmt function_then_var) r_new) = Ok (VInt 1).
Proof.
  intros (P & fuel & Hrun).
  do 3 (destruct fuel as [|fuel]; [vm_compute in Hrun; discriminate|]).
  pose proof (function_then_var_yields_function P fuel) as Hok.
  cbn [Nat.add] in Hok. rewrite Hok in Hrun. discriminate.
Qed.

(** ** Calls of interpreted functions *)

Section Calls.

Context `{Platform}.
Variable ev : node -> M value.






Lemma Call_JSFunction parentScope expectedParams body actualParams r :
  Call ev (VJSFunc parentScope expectedParams body) actualParams r
  = JSFunction ev parentScope expectedParams body actualParams r.
Proof. reflexivity. Qed.


End Calls.

Section UndefinedArguments.

Context `{Platform}.


End UndefinedArguments.


(** ** Index access on arrays *)

Lemma wrap_in_range z :
  (GoInt.MinInt <= z <= GoInt.MaxInt)%Z -> GoInt.wrap z = z.
Proof.
  unfold GoInt.wrap, GoInt.MinInt, GoInt.MaxInt.
  change (2 ^ 63)%Z with 9223372036854775808%Z.
  change (2 ^ 64)%Z with 18446744073709551616%Z.
  intros Hz. rewrite Z.mod_small; lia.
Qed.

Lemma len_nonneg {A} (v : list A) : (0 <= len v)%Z.
Proof. unfold len. lia. Qed.

Lemma len_pos {A} (v : list A) : v <> [] -> (0 < len v)%Z.
Proof. destruct v; [contradiction|]. unfold len. cbn [length]. lia. Qed.

Lemma index_negative v i : (i < 0)%Z -> forall r, index v i r = (Panic (IndexOutOfRange i (len v)), r).
Proof. intros Hi r. unfold index. destruct (Z.ltb_spec i 0); [reflexivity | lia]. Qed.

Lemma index_at_len v r : index v (len v) r = (Panic (IndexOutOfRange (len v) (len v)), r).
Proof.
  unfold index. pose proof (len_nonneg v).
  destruct (Z.ltb_spec (len v) 0); [lia|].
  unfold len at 1. rewrite Nat2Z.id, (lookup_ge_None_2 v (length v)) by lia. reflexivity.
Qed.

Lemma index_in_range v i el r :
  (0 <= i)%Z -> v !! Z.to_nat i = Some el -> index v i r = (Ok el, r).
Proof.
  intros Hi Hel. unfold index. destruct (Z.ltb_spec i 0); [lia|]. rewrite Hel. reflexivity.
Qed.

Lemma negative_index_rem idx v r :
  v <> [] -> negative_index idx v r = (Ok (Z.rem idx (len v)), r).
Proof.
  intros Hv. unfold negative_index. pose proof (len_pos v Hv).
  destruct (Z.eqb_spec (len v) 0); [lia | reflexivity].
Qed.

Lemma rem_negative idx m :
  (idx < 0)%Z -> (0 < m)%Z -> Z.rem idx m <> 0%Z -> (idx <= Z.rem idx m < 0)%Z.
Proof.
  intros Hidx Hm Hrem.
  pose proof (Z.rem_bound_pos_neg idx m Hm ltac:(lia)) as Hup.
  pose proof (Z.rem_le (- idx) m ltac:(lia) Hm) as Hlow.
  rewrite Z.rem_opp_l in Hlow by lia. lia.
Qed.

Section Indexing.

Context `{Platform}.

Lemma EvalIndexExpr_slice_int n X Y r r1 r2 l v idx :
  Eval n X r = (Ok (VSlice l), r1) ->
  Eval n Y r1 = (Ok (VInt idx), r2) ->
  slices r2 !! l = Some v ->
  Eval (S n) (IndexExpr X Y) r
  = (idx' <- (if (idx <? 0)%Z then negative_index idx v else ret idx) ;;
     if (len v <? idx')%Z
     then fail (IndexOutOfBoundsError (VSlice l) idx')
     else index v idx') r2.
Proof.
  intros HX HY Hv. cbn [Eval Eval_node]. unfold EvalIndexExpr, bind, load_slice.
  rewrite HX, HY, Hv. reflexivity.
Qed.

Lemma EvalAssignment_slice_int n X Y V r r0 r1 r2 y l v idx :
  Eval n V r = (Ok y, r0) ->
  Eval n X r0 = (Ok (VSlice l), r1) ->
  Eval n Y r1 = (Ok (VInt idx), r2) ->
  slices r2 !! l = Some v ->
  Eval (S n) (BinaryExpr EqToken (IndexExpr X Y) V) r
  = (i <- (if (idx <? 0)%Z then negative_index idx v else ret idx) ;;
     if (len v <? GoInt.add i 1)%Z
     then fail (IndexOutOfBoundsError (VSlice l) i)
     else index_assign l v i y ;; ret y) r2.
Proof.
  intros HV HX HY Hv. cbn [Eval Eval_node].
  unfold EvalBinaryExpr, EvalAssignment, bind, load_slice.
  rewrite HV, HX, HY, Hv. reflexivity.
Qed.

(** C1, on the code. The bounds checks of the two index paths let indices
    outside [0, length) through to the slice, where Go panics instead of
    the evaluator returning its index-out-of-bounds error: a read at index
    [length] (the read path tests [idx > len(v)], the write path
    [i+1 > len(ass)]); and, on both paths, a negative index whose remainder
    by the length is not zero, since the remainder stays negative and
    neither check has a lower bound. On an empty array a negative index
    panics in the remainder itself. *)
Theorem index_bounds_check_lets_panics_through (n : nat) :
  (forall X Y r r1 r2 l v,
     Eval n X r = (Ok (VSlice l), r1) ->
     Eval n Y r1 = (Ok (VInt (len v)), r2) ->
     slices r2 !! l = Some v ->
     Eval (S n) (IndexExpr X Y) r = (Panic (IndexOutOfRange (len v) (len v)), r2))
  /\ (forall X Y r r1 r2 l v idx,
        Eval n X r = (Ok (VSlice l), r1) ->
        Eval n Y r1 = (Ok (VInt idx), r2) ->
        slices r2 !! l = Some v ->
        (idx < 0)%Z -> v <> [] -> Z.rem idx (len v) <> 0%Z ->
        Eval (S n) (IndexExpr X Y) r
        = (Panic (IndexOutOfRange (Z.rem idx (len v)) (len v)), r2))
  /\ (forall X Y V r r0 r1 r2 y l v idx,
        Eval n V r = (Ok y, r0) ->
        Eval n X r0 = (Ok (VSlice l), r1) ->
        Eval n Y r1 = (Ok (VInt idx), r2) ->
        slices r2 !! l = Some v ->
        (GoInt.MinInt <= idx < 0)%Z -> v <> [] -> Z.rem idx (len v) <> 0%Z ->
        Eval (S n) (BinaryExpr EqToken (IndexExpr X Y) V) r
        = (Panic (IndexOutOfRange (Z.rem idx (len v)) (len v)), r2))
  /\ (forall X Y r r1 r2 l idx,
        Eval n X r = (Ok (VSlice l), r1) ->
        Eval n Y r1 = (Ok (VInt idx), r2) ->
        slices r2 !! l = Some [] ->
        (idx < 0)%Z ->
        Eval (S n) (IndexExpr X Y) r = (Panic IntegerDivideByZero, r2)).
Proof.
  split; [|split; [|split]].
  - intros X Y r r1 r2 l v HX HY Hv.
    rewrite (EvalIndexExpr_slice_int _ _ _ _ _ _ _ _ _ HX HY Hv).
    pose proof (len_nonneg v).
    destruct (Z.ltb_spec (len v) 0); [lia|]. unfold bind, ret.
    rewrite Z.ltb_irrefl. apply index_at_len.
  - intros X Y r r1 r2 l v idx HX HY Hv Hneg Hne Hrem.
    rewrite (EvalIndexExpr_slice_int _ _ _ _ _ _ _ _ _ HX HY Hv).
    pose proof (rem_negative idx (len v) Hneg (len_pos v Hne) Hrem) as Hr.
    pose proof (len_nonneg v).
    destruct (Z.ltb_spec idx 0); [|lia]. unfold bind.
    rewrite (negative_index_rem _ _ _ Hne).
    destruct (Z.ltb_spec (len v) (Z.rem idx (len v))); [lia|].
    apply index_negative. lia.
  - intros X Y V r r0 r1 r2 y l v idx HV HX HY Hv Hneg Hne Hrem.
    rewrite (EvalAssignment_slice_int _ _ _ _ _ _ _ _ _ _ _ _ HV HX HY Hv).
    pose proof (rem_negative idx (len v) ltac:(lia) (len_pos v Hne) Hrem) as Hr.
    pose proof (len_nonneg v).
    destruct (Z.ltb_spec idx 0); [|lia]. unfold bind.
    rewrite (negative_index_rem _ _ _ Hne).
    unfold GoInt.add. rewrite wrap_in_range
      by (unfold GoInt.MinInt, GoInt.MaxInt in *;
          change (2 ^ 63)%Z with 9223372036854775808%Z in *; lia).
    destruct (Z.ltb_spec (len v) (Z.rem idx (len v) + 1)); [lia|].
    unfold index_assign.
    destruct (Z.ltb_spec (Z.rem idx (len v)) 0); [reflexivity | lia].
  - intros X Y r r1 r2 l idx HX HY Hv Hneg.
    rewrite (EvalIndexExpr_slice_int _ _ _ _ _ _ _ _ _ HX HY Hv).
    destruct (Z.ltb_spec idx 0); [reflexivity | lia].
Qed.

(** X1. Where the two index paths do what C1 says: from index 0 on, a
    read below the length yields the element and a read above the length
    fails with the index-out-of-bounds error; a write below the length
    stores the value and a write at or above the length fails with that
    error; an index that is not an integer, and that the message of the
    error can render, fails with the non-integer-index error on both
    paths. *)
Lemma index_checked_cases (n : nat) :
  (forall X Y r r1 r2 l v idx el,
     Eval n X r = (Ok (VSlice l), r1) ->
     Eval n Y r1 = (Ok (VInt idx), r2) ->
     slices r2 !! l = Some v ->
     (0 <= idx)%Z -> v !! Z.to_nat idx = Some el ->
     Eval (S n) (IndexExpr X Y) r = (Ok el, r2))
  /\ (forall X Y r r1 r2 l v idx,
        Eval n X r = (Ok (VSlice l), r1) ->
        Eval n Y r1 = (Ok (VInt idx), r2) ->
        slices r2 !! l = Some v ->
        (len v < idx)%Z ->
        Eval (S n) (IndexExpr X Y) r = (Err (IndexOutOfBoundsError (VSlice l) idx), r2))
  /\ (forall X Y V r r0 r1 r2 y l v idx,
        Eval n V r = (Ok y, r0) ->
        Eval n X r0 = (Ok (VSlice l), r1) ->
        Eval n Y r1 = (Ok (VInt idx), r2) ->
        slices r2 !! l = Some v ->
        (0 <= idx < len v)%Z -> (len v <= GoInt.MaxInt)%Z ->
        Eval (S n) (BinaryExpr EqToken (IndexExpr X Y) V) r
        = (Ok y, set_slices (<[l := <[Z.to_nat idx := y]> v]> (slices r2)) r2))
  /\ (forall X Y V r r0 r1 r2 y l v idx,
        Eval n V r = (Ok y, r0) ->
        Eval n X r0 = (Ok (VSlice l), r1) ->
        Eval n Y r1 = (Ok (VInt idx), r2) ->
        slices r2 !! l = Some v ->
        (len v <= idx < GoInt.MaxInt)%Z ->
        Eval (S n) (BinaryExpr EqToken (IndexExpr X Y) V) r
        = (Err (IndexOutOfBoundsError (VSlice l) idx), r2))
  /\ (forall X Y r r1 r2 l v y,
        Eval n X r = (Ok (VSlice l), r1) ->
        Eval n Y r1 = (Ok y, r2) ->
        slices r2 !! l = Some v ->
        Kind_of y <> KInt ->
        renders r2 y = true ->
        Eval (S n) (IndexExpr X Y) r = (Err (NonIntegerIndexError (VSlice l) y), r2))
  /\ (forall X Y V r r0 r1 r2 y l v idx,
        Eval n V r = (Ok y, r0) ->
        Eval n X r0 = (Ok (VSlice l), r1) ->
        Eval n Y r1 = (Ok idx, r2) ->
        slices r2 !! l = Some v ->
        Kind_of idx <> KInt ->
        renders r2 idx = true ->
        Eval (S n) (BinaryExpr EqToken (IndexExpr X Y) V) r
        = (Err (NonIntegerIndexError (VSlice l) idx), r2)).
Proof.
  split; [|split; [|split; [|split; [|split]]]].
  - intros X Y r r1 r2 l v idx el HX HY Hv Hidx Hel.
    rewrite (EvalIndexExpr_slice_int _ _ _ _ _ _ _ _ _ HX HY Hv).
    pose proof (lookup_lt_Some _ _ _ Hel) as Hlt.
    destruct (Z.ltb_spec idx 0); [lia|]. unfold bind, ret.
    destruct (Z.ltb_spec (len v) idx); [unfold len in *; lia|].
    apply index_in_range; assumption.
  - intros X Y r r1 r2 l v idx HX HY Hv Hidx.
    rewrite (EvalIndexExpr_slice_int _ _ _ _ _ _ _ _ _ HX HY Hv).
    pose proof (len_nonneg v).
    destruct (Z.ltb_spec idx 0); [lia|]. unfold bind, ret.
    destruct (Z.ltb_spec (len v) idx); [reflexivity | lia].
  - intros X Y V r r0 r1 r2 y l v idx HV HX HY Hv Hidx Hmax.
    rewrite (EvalAssignment_slice_int _ _ _ _ _ _ _ _ _ _ _ _ HV HX HY Hv).
    destruct (Z.ltb_spec idx 0); [lia|]. unfold bind, ret.
    unfold GoInt.add. rewrite wrap_in_range
      by (unfold GoInt.MinInt, GoInt.MaxInt in *;
          change (2 ^ 63)%Z with 9223372036854775808%Z in *; lia).
    destruct (Z.ltb_spec (len v) (idx + 1)); [lia|].
    unfold index_assign.
    destruct (Z.ltb_spec idx 0); [lia|]. destruct (Z.leb_spec (len v) idx); [lia|].
    reflexivity.
  - intros X Y V r r0 r1 r2 y l v idx HV HX HY Hv Hidx.
    rewrite (EvalAssignment_slice_int _ _ _ _ _ _ _ _ _ _ _ _ HV HX HY Hv).
    pose proof (len_nonneg v).
    destruct (Z.ltb_spec idx 0); [lia|]. unfold bind, ret.
    unfold GoInt.add. rewrite wrap_in_range
      by (unfold GoInt.MinInt, GoInt.MaxInt in *;
          change (2 ^ 63)%Z with 9223372036854775808%Z in *; lia).
    destruct (Z.ltb_spec (len v) (idx + 1)); [reflexivity | lia].
  - intros X Y r r1 r2 l v y HX HY Hv Hy Hr.
    cbn [Eval Eval_node]. unfold EvalIndexExpr, bind, load_slice.
    rewrite HX, HY, Hv.
    destruct y; try (unfold format; rewrite Hr; reflexivity). contradiction Hy. reflexivity.
  - intros X Y V r r0 r1 r2 y l v idx HV HX HY Hv Hidx Hr.
    cbn [Eval Eval_node]. unfold EvalBinaryExpr, EvalAssignment, bind, load_slice.
    rewrite HV, HX, HY, Hv.
    destruct idx; try (unfold format; rewrite Hr; reflexivity). contradiction Hidx. reflexivity.
Qed.

End Indexing.

(** [[0, 2, 4][3]] panics on every platform. *)
Lemma index_bounds_check_lets_panics_through_witness :
  (forall P : Platform,
     Eval 2 array_0_2_4 r_new = (Ok (VSlice 0), r_array)
     /\ Eval 2 (num "3") r_array = (Ok (VInt (len [VInt 0; VInt 2; VInt 4])), r_array))
  /\ slices r_array !! 0%nat = Some [VInt 0; VInt 2; VInt 4]
  /\ (forall P : Platform,
        Eval 3 (IndexExpr array_0_2_4 (num "3")) r_new
        = (Panic (IndexOutOfRange 3 3), r_array)).
Proof.
  split; [intros P; split; reflexivity|]. split; [reflexivity|]. intros P.
  apply (proj1 (index_bounds_check_lets_panics_through 2)
           array_0_2_4 (num "3") r_new r_array r_array 0%nat [VInt 0; VInt 2; VInt 4]);
    reflexivity.
Defined.

(** Reading and writing [[0, 2, 4]] at index -1: both programs panic, on
    every platform. *)
Lemma index_minus_1_panics (P : Platform) (fuel : nat) :
  fst (Run (5 + fuel) read_at_minus_1 r_new) = Panic (IndexOutOfRange (-1) 3)
  /\ fst (Run (5 + fuel) write_at_minus_1 r_new) = Panic (IndexOutOfRange (-1) 3).
Proof. split; vm_compute; reflexivity. Qed.

(** ** Division, the function *)

(** The quotient of Go's integer division is truncated toward zero. *)
Lemma quot_truncates (x y : Z) :
  y <> 0%Z ->
  (Z.abs (Z.quot x y * y) <= Z.abs x < Z.abs (Z.quot x y * y) + Z.abs y)%Z
  /\ (0 <= x * (Z.quot x y * y))%Z.
Proof.
  intros Hy.
  assert (Habs : (Z.abs (Z.quot x y * y) = Z.abs y * Z.quot (Z.abs x) (Z.abs y))%Z)
    by (rewrite Z.abs_mul, Z.quot_abs by exact Hy; lia).
  pose proof (Z.mul_quot_le (Z.abs x) (Z.abs y) ltac:(lia) ltac:(lia)) as Hle.
  pose proof (Z.mul_succ_quot_gt (Z.abs x) (Z.abs y) ltac:(lia) ltac:(lia)) as Hgt.
  split; [rewrite Habs; lia|].
  pose proof (Z.quot_rem' x y) as Hqr.
  pose proof (Z.rem_sign_mul x y Hy) as Hsign.
  assert (Hsmall : (Z.abs (Z.rem x y) <= Z.abs x)%Z).
  { rewrite <- (Z.rem_abs x y Hy). apply Z.rem_le; lia. }
  replace (Z.quot x y * y)%Z with (x - Z.rem x y)%Z by lia.
  destruct (Z.le_gt_cases 0 x); nia.
Qed.

(** It is an [int] again, but for the least [int] divided by -1. *)
Lemma quot_in_range (x y : Z) :
  y <> 0%Z -> (GoInt.MinInt <= x <= GoInt.MaxInt)%Z -> x <> GoInt.MinInt \/ y <> (-1)%Z ->
  (GoInt.MinInt <= Z.quot x y <= GoInt.MaxInt)%Z.
Proof.
  unfold GoInt.MinInt, GoInt.MaxInt. intros Hy Hx Hcorner.
  destruct (quot_truncates x y Hy) as [[Hle _] Hsign].
  change (2 ^ 63)%Z with 9223372036854775808%Z in *.
  rewrite Z.abs_mul in Hle.
  assert (Hq : (Z.abs (Z.quot x y) <= Z.abs x)%Z) by nia.
  destruct (Z.eq_dec x (-9223372036854775808)%Z) as [->|Hne]; [|lia].
  destruct Hcorner as [Hc|Hc]; [contradiction|].
  destruct (Z.eq_dec y 1%Z) as [->|Hy1]; [rewrite Z.quot_1_r; lia|].
  assert (2 <= Z.abs y)%Z by lia. nia.
Qed.

Section DivisionTheFunction.

Context `{Platform}.

(** X4. What the function [Div] computes. On two integers of which the
    divisor is not zero it yields the quotient truncated toward zero: the
    integer whose product with the divisor has the sign of the dividend
    and falls short of it, in absolute value, by less than the divisor;
    the least integer divided by -1 wraps around to itself, and a zero
    integer divisor is a run-time panic. On two numbers of which one is a
    float it yields the float quotient, the integer operand converted to a
    float first, so that a zero float divisor is no panic but an infinity.
    On operands that are not two numbers, and that the message of the
    error can render, it fails with the unsupported-operands error. [Div]
    changes nothing. *)
Theorem Div_numbers (r : Runtime) :
  (forall xv yv,
     yv <> 0%Z -> (GoInt.MinInt <= xv <= GoInt.MaxInt)%Z ->
     xv <> GoInt.MinInt \/ yv <> (-1)%Z ->
     exists q,
       Div (VInt xv) (VInt yv) r = (Ok (VInt q), r)
       /\ (Z.abs (q * yv) <= Z.abs xv < Z.abs (q * yv) + Z.abs yv)%Z
       /\ (0 <= xv * (q * yv))%Z
       /\ (GoInt.MinInt <= q <= GoInt.MaxInt)%Z)
  /\ Div (VInt GoInt.MinInt) (VInt (-1)) r = (Ok (VInt GoInt.MinInt), r)
  /\ (forall xv, Div (VInt xv) (VInt 0) r = (Panic IntegerDivideByZero, r))
  /\ (forall xv yv, Div (VInt xv) (VFloat64 yv) r
                    = (Ok (VFloat64 (PrimFloat.div (GoInt.to_float64 xv) yv)), r))
  /\ (forall xv yv, Div (VFloat64 xv) (VInt yv) r
                    = (Ok (VFloat64 (PrimFloat.div xv (GoInt.to_float64 yv))), r))
  /\ (forall xv yv, Div (VFloat64 xv) (VFloat64 yv) r
                    = (Ok (VFloat64 (PrimFloat.div xv yv)), r))
  /\ (Div (VInt 7) (VInt (-2)) r = (Ok (VInt (-3)), r)
      /\ Div (VInt 1) (VFloat64 4) r = (Ok (VFloat64 0.25), r)
      /\ Div (VFloat64 1) (VInt 0) r = (Ok (VFloat64 infinity), r))
  /\ (forall x y, is_number x && is_number y = false ->
        renders r x = true -> renders r y = true ->
        Div x y r = (Err (BinaryOpNotImplementedError x y), r)).
Proof.
  split; [|split; [|split; [|split; [|split; [|split; [|split]]]]]].
  - intros xv yv Hy Hx Hcorner. exists (Z.quot xv yv).
    pose proof (quot_in_range xv yv Hy Hx Hcorner) as Hq.
    destruct (quot_truncates xv yv Hy) as [Habs Hsign].
    split; [|split; [exact Habs | split; [exact Hsign | exact Hq]]].
    unfold Div. destruct (Z.eqb_spec yv 0); [contradiction|].
    unfold GoInt.quo. rewrite (wrap_in_range _ Hq). reflexivity.
  - vm_compute. reflexivity.
  - reflexivity.
  - reflexivity.
  - reflexivity.
  - reflexivity.
  - split; [|split]; vm_compute; reflexivity.
  - intros x y Hxy Hx Hy.
    assert (Hfail : (format x ;; format y ;; fail (BinaryOpNotImplementedError x y)) r
                    = (@Err value (BinaryOpNotImplementedError x y), r))
      by (unfold bind, format; rewrite Hx, Hy; reflexivity).
    destruct x, y; try discriminate Hxy; exact Hfail.
Qed.

End DivisionTheFunction.

(** ** Addition *)

Section Addition.

Context `{Platform}.

(** C5, as the code has it. [+] on two integers is the wrapped integer sum;
    on two numbers of which one is a float it is the float sum, the integer
    operand converted to a float first; on a string and a number or a
    string it is the string followed by the rendering [fmt.Sprint] gives
    the right operand (a string renders as itself, an integer in decimal);
    on two arrays it is a new array holding the elements of the left one
    followed by those of the right one, the operands unchanged; on every
    other pair of operands that the message of the error can render, a
    string followed by anything but a number or a string included, it fails
    with the unsupported-operands error. *)
Theorem Add_operand_pairs (r : Runtime) :
  (forall a b, Add (VInt a) (VInt b) r = (Ok (VInt (GoInt.wrap (a + b))), r))
  /\ (forall a g, Add (VInt a) (VFloat64 g) r
                  = (Ok (VFloat64 (PrimFloat.add (GoInt.to_float64 a) g)), r))
  /\ (forall f b, Add (VFloat64 f) (VInt b) r
                  = (Ok (VFloat64 (PrimFloat.add f (GoInt.to_float64 b))), r))
  /\ (forall f g, Add (VFloat64 f) (VFloat64 g) r = (Ok (VFloat64 (PrimFloat.add f g)), r))
  /\ (Add (VInt 1) (VFloat64 0.5) r = (Ok (VFloat64 1.5), r)
      /\ Add (VFloat64 0.25) (VInt (-1)) r = (Ok (VFloat64 (-0.75)), r)
      /\ Add (VFloat64 0.5) (VFloat64 0.25) r = (Ok (VFloat64 0.75), r))
  /\ (forall s y,
        is_number y || is_string y = true ->
        exists rendering,
          Sprint y r = (Ok rendering, r)
          /\ Add (VString s) y r = (Ok (VString (s +:+ rendering)), r))
  /\ (forall t n,
        Sprint (VString t) r = (Ok t, r) /\ Sprint (VInt n) r = (Ok (pretty n), r))
  /\ (forall lx ly xv yv,
        slices r !! lx = Some xv ->
        slices r !! ly = Some yv ->
        Add (VSlice lx) (VSlice ly) r
        = (Ok (VSlice (length (slices r))), set_slices (slices r ++ [xv ++ yv]) r))
  /\ (forall x y,
        Add_supported x y = false ->
        renders r x = true -> renders r y = true ->
        Add x y r = (Err (BinaryOpNotImplementedError x y), r)).
Proof.
  split; [|split; [|split; [|split; [|split; [|split; [|split; [|split]]]]]]].
  - reflexivity.
  - reflexivity.
  - reflexivity.
  - reflexivity.
  - split; [|split]; vm_compute; reflexivity.
  - intros s y Hy. destruct y; try discriminate; eexists; split; reflexivity.
  - intros t n. split; reflexivity.
  - intros lx ly xv yv Hx Hy. unfold Add, bind, load_slice. rewrite Hx, Hy. reflexivity.
  - intros x y Hxy Hx Hy.
    assert (Hfail : (format x ;; format y ;; fail (BinaryOpNotImplementedError x y)) r
                    = (@Err value (BinaryOpNotImplementedError x y), r))
      by (unfold bind, format; rewrite Hx, Hy; reflexivity).
    destruct x; destruct y; try discriminate Hxy; exact Hfail.
Qed.

End Addition.

(** [1 + 2], ["a" + 1] and ["a" + true] on every platform. *)
Lemma Add_operand_pairs_witness :
  (is_number (VInt 1) || is_string (VInt 1) = true)
  /\ Add_supported (VString "a") (VBool true) = false
  /\ (forall P : Platform,
        Add (VString "a") (VInt 1) r_new = (Ok (VString "a1"), r_new))
  /\ (forall P : Platform,
        Add (VString "a") (VBool true) r_new
        = (Err (BinaryOpNotImplementedError (VString "a") (VBool true)), r_new)).
Proof.
  split; [reflexivity|]. split; [reflexivity|]. split; intros P.
  - destruct (proj1 (proj2 (proj2 (proj2 (proj2 (proj2 (Add_operand_pairs r_new))))))
                "a" (VInt 1) eq_refl)
      as (rendering & Hr & Hadd).
    injection Hr as <-. exact Hadd.
  - apply (proj2 (proj2 (proj2 (proj2 (proj2 (proj2 (proj2 (proj2
             (Add_operand_pairs r_new))))))))
             (VString "a") (VBool true) eq_refl eq_refl eq_refl).
Defined.

(** What ['a' + [1]] evaluates to on every platform. *)
Lemma string_plus_array_fails (P : Platform) (fuel : nat) :
  Eval (3 + fuel) string_plus_array r_new
  = (Err (BinaryOpNotImplementedError (VString "a") (VSlice 0)), set_slices [[VInt 1]] r_new).
Proof. vm_compute. reflexivity. Qed.

(** C5, the claim as stated, refuted: a string plus an array is no
    concatenation, and no value at all, on any platform and with any fuel. *)
Lemma string_plus_anything_is_not_concatenation :
  ~ exists (P : Platform) (fuel : nat) (v : value) (r : Runtime),
      Eval fuel string_plus_array r_new = (Ok v, r).
Proof.
  intros (P & fuel & v & r & Hrun).
  do 3 (destruct fuel as [|fuel]; [vm_compute in Hrun; discriminate|]).
  pose proof (string_plus_array_fails P fuel) as Herr.
  cbn [Nat.add] in Herr. rewrite Herr in Hrun. discriminate.
Qed.

(** ** Repetition *)

Lemma append_nil_r (s : string) : s +:+ "" = s.
Proof.
  induction s as [|a s IH]; [reflexivity|].
  change (String a (s +:+ "") = String a s). rewrite IH. reflexivity.
Qed.

Lemma append_assoc (s t u : string) : (s +:+ t) +:+ u = s +:+ (t +:+ u).
Proof.
  induction s as [|a s IH]; [reflexivity|].
  change (String a ((s +:+ t) +:+ u) = String a (s +:+ (t +:+ u))). rewrite IH. reflexivity.
Qed.

Lemma repeat_string_snoc (s : string) (n : nat) :
  repeat_string s n +:+ s = s +:+ repeat_string s n.
Proof.
  induction n as [|n IH]; cbn [repeat_string].
  - rewrite append_nil_r. reflexivity.
  - rewrite append_assoc, IH. reflexivity.
Qed.

Lemma iter_append_repeat (s : string) (n : nat) :
  Nat.iter n (fun res => res +:+ s) "" = repeat_string s n.
Proof.
  induction n as [|n IH]; [reflexivity|].
  cbn [Nat.iter nat_rect repeat_string]. unfold Nat.iter in IH. rewrite IH.
  apply repeat_string_snoc.
Qed.

(** String times integer: the string repeated that many times, empty for a
    count of zero or less. *)
Lemma Mul_string_repeats (s : string) (n : Z) (r : Runtime) :
  Mul (VString s) (VInt n) r = (Ok (VString (repeat_string s (Z.to_nat n))), r)
  /\ ((n <= 0)%Z -> Mul (VString s) (VInt n) r = (Ok (VString ""), r)).
Proof.
  assert (Hmul : Mul (VString s) (VInt n) r
                 = (Ok (VString (repeat_string s (Z.to_nat n))), r)).
  { unfold Mul, ret. rewrite iter_append_repeat. reflexivity. }
  split; [exact Hmul|]. intros Hn. rewrite Hmul.
  replace (Z.to_nat n) with 0%nat by lia. reflexivity.
Qed.







(** C6, on the code. Array times a negative integer, for an array that is
    not empty, asks [make] for a slice of negative length: Go panics, where
    string times a negative integer is the empty string. *)
Theorem Mul_array_negative_count_panics (l : loc) (xv : list value) (n : Z) (r : Runtime) :
  slices r !! l = Some xv ->
  xv <> [] ->
  (n < 0)%Z ->
  (GoInt.MinInt <= len xv * n)%Z ->
  Mul (VSlice l) (VInt n) r = (Panic MakeSliceLenOutOfRange, r).
Proof.
  intros Hxv Hne Hn Hmin. unfold Mul, bind, load_slice. rewrite Hxv.
  pose proof (len_pos xv Hne) as Hlen.
  unfold GoInt.mul. rewrite wrap_in_range
    by (unfold GoInt.MinInt, GoInt.MaxInt in *;
        change (2 ^ 63)%Z with 9223372036854775808%Z in *; nia).
  destruct (Z.ltb_spec (len xv * n) 0); [reflexivity | nia].
Qed.

(** [[0, 2, 4] * -1] panics. *)
Lemma Mul_array_negative_count_panics_witness :
  slices r_array !! 0%nat = Some [VInt 0; VInt 2; VInt 4]
  /\ [VInt 0; VInt 2; VInt 4] <> []
  /\ (-1 < 0)%Z
  /\ (GoInt.MinInt <= len [VInt 0; VInt 2; VInt 4] * -1)%Z
  /\ Mul (VSlice 0) (VInt (-1)) r_array = (Panic MakeSliceLenOutOfRange, r_array).
Proof.
  assert (Hne : [VInt 0; VInt 2; VInt 4] <> []) by discriminate.
  assert (Hmin : (GoInt.MinInt <= len [VInt 0; VInt 2; VInt 4] * -1)%Z)
    by (vm_compute; discriminate).
  split; [reflexivity|]. split; [exact Hne|]. split; [reflexivity|]. split; [exact Hmin|].
  apply (Mul_array_negative_count_panics 0 [VInt 0; VInt 2; VInt 4] (-1) r_array
           eq_refl Hne eq_refl Hmin).
Defined.

(** The program [let n = 0 - 1; [0, 2, 4] * n] panics on every platform. *)
Lemma array_times_minus_1_panics (P : Platform) (fuel : nat) :
  fst (Run (5 + fuel) array_times_minus_1 r_new) = Panic MakeSliceLenOutOfRange.
Proof. vm_compute. reflexivity. Qed.

(** ** Name resolution *)

Lemma Lookup_scopes_chain r p ss name n :
  chain r p ss ->
  (length ss <= n)%nat ->
  Lookup_scopes n p name r = (Ok (resolve ss name), r).
Proof.
  intros Hchain. revert n.
  induction Hchain as [|l s ss Hs _ IH]; intros n Hn.
  - destruct n; reflexivity.
  - destruct n as [|n]; [cbn in Hn; lia|].
    cbn [Lookup_scopes resolve]. unfold bind, load_scope. rewrite Hs.
    destruct (scope.Get s name) as [binding|]; [reflexivity|].
    apply IH. cbn in Hn. lia.
Qed.

(** X5. A name resolves to the first binding met from the active scope
    outwards along the parent chain; when no scope of the chain binds it,
    to the global of the runtime; failing that, to the global of the
    machine; and when none of them has it, the lookup fails with the
    not-declared error. The state is never changed. *)
Theorem Lookup_resolution_order (r : Runtime) (ss : list scope.S) (name : string) :
  chain r (Scope r) ss ->
  (length ss <= length (scopes r))%nat ->
  (forall v, resolve ss name = Some v -> Lookup name r = (Ok v, r))
  /\ (forall v, resolve ss name = None -> Globals r !! name = Some v ->
        Lookup name r = (Ok v, r))
  /\ (forall v, resolve ss name = None -> Globals r !! name = None ->
        M_Globals r !! name = Some v -> Lookup name r = (Ok v, r))
  /\ (resolve ss name = None -> Globals r !! name = None -> M_Globals r !! name = None ->
        Lookup name r = (Err (NotDeclaredError name), r)).
Proof.
  intros Hchain Hlen.
  pose proof (Lookup_scopes_chain r (Scope r) ss name _ Hchain Hlen) as Hscopes.
  repeat split.
  - intros v Hv. unfold Lookup, bind. rewrite Hscopes, Hv. reflexivity.
  - intros v Hnone Hg. unfold Lookup, bind. rewrite Hscopes, Hnone. cbn. rewrite Hg. reflexivity.
  - intros v Hnone Hg Hm. unfold Lookup, bind. rewrite Hscopes, Hnone. cbn.
    rewrite Hg, Hm. reflexivity.
  - intros Hnone Hg Hm. unfold Lookup, bind. rewrite Hscopes, Hnone. cbn.
    rewrite Hg, Hm. reflexivity.
Qed.

(** In [r_nested]: [a] is the inner 5, not the outer 1; [b] comes from the
    parent scope; [g] from the runtime's globals, not the machine's; [h]
    from the machine's; [z] is not declared. *)
Lemma Lookup_resolution_order_witness :
  chain r_nested (Scope r_nested) [s_inner; s_ab]
  /\ (length [s_inner; s_ab] <= length (scopes r_nested))%nat
  /\ Lookup "a" r_nested = (Ok (VInt 5), r_nested)
  /\ Lookup "b" r_nested = (Ok (VInt 1), r_nested)
  /\ Lookup "g" r_nested = (Ok (VInt 7), r_nested)
  /\ Lookup "h" r_nested = (Ok (VInt 9), r_nested)
  /\ Lookup "z" r_nested = (Err (NotDeclaredError "z"), r_nested).
Proof.
  assert (Hchain : chain r_nested (Scope r_nested) [s_inner; s_ab]).
  { apply (chain_parent r_nested 1 s_inner [s_ab] eq_refl).
    apply (chain_parent r_nested 0 s_ab [] eq_refl). apply chain_root. }
  assert (Hlen : (length [s_inner; s_ab] <= length (scopes r_nested))%nat) by (cbn; lia).
  split; [exact Hchain|]. split; [exact Hlen|].
  pose proof (fun name => Lookup_resolution_order r_nested [s_inner; s_ab] name Hchain Hlen) as H.
  split; [apply (proj1 (H "a")); reflexivity|].
  split; [apply (proj1 (H "b")); reflexivity|].
  split; [apply (proj1 (proj2 (H "g"))); reflexivity|].
  split; [apply (proj1 (proj2 (proj2 (H "h")))); reflexivity|].
  apply (proj2 (proj2 (proj2 (H "z")))); reflexivity.
Defined.

(** ** The scope discipline *)

Lemma frame_refl r : frame r r.
Proof. split; eauto. Qed.

Lemma frame_trans r r1 r2 : frame r r1 -> frame r1 r2 -> frame r r2.
Proof.
  intros [HS Hlen Hin Hpar Hm Hsl] [HS' Hlen' Hin' Hpar' Hm' Hsl'].
  split; try lia.
  - congruence.
  - intros l Hl Hlt. rewrite Hin' by (rewrite ?HS; auto; lia). auto.
  - intros l s Hs. destruct (Hpar l s Hs) as (s1 & Hs1 & Hp1).
    destruct (Hpar' l s1 Hs1) as (s2 & Hs2 & Hp2). exists s2. split; congruence.
Qed.

Lemma sealed_frame r r' : sealed r r' -> frame r r'.
Proof.
  intros (HS & Hold & Hlen & Hm & Hsl). split; auto.
  intros l s Hs. exists s. split; [|reflexivity].
  rewrite Hold; [exact Hs | eapply lookup_lt_Some; exact Hs].
Qed.

Lemma frame_set_maps r h : (length (maps r) <= length h)%nat -> frame r (set_maps h r).
Proof. intros Hh. split; cbn; eauto. Qed.

Lemma frame_set_slices r h : (length (slices r) <= length h)%nat -> frame r (set_slices h r).
Proof. intros Hh. split; cbn; eauto. Qed.

Lemma frame_set_calls r c : frame r (set_calls c r).
Proof. split; cbn; eauto. Qed.

Lemma frame_with_scope r l s s' :
  Scope r = Some l -> scopes r !! l = Some s -> scope.Parent s' = scope.Parent s ->
  frame r (with_scope l s' r).
Proof.
  intros HS Hs Hp. pose proof (lookup_lt_Some _ _ _ Hs) as Hlt.
  split; cbn; try (rewrite length_insert); auto.
  - intros l' Hne _. apply list_lookup_insert_ne. congruence.
  - intros l' s0 Hs0. destruct (decide (l' = l)) as [->|Hne].
    + exists s'. split; [apply list_lookup_insert_eq; exact Hlt | congruence].
    + exists s0. split; [|reflexivity]. rewrite list_lookup_insert_ne by congruence. exact Hs0.
Qed.

Section KeepsFrame.

Lemma keeps_frame_ret {A} (a : A) : keeps_frame (ret a).
Proof. intros r res r' [= <- <-] _. apply frame_refl. Qed.

Lemma keeps_frame_fail {A} e : keeps_frame (@fail A e).
Proof. intros r res r' [= <- <-] _. apply frame_refl. Qed.

Lemma keeps_frame_throw {A} p : keeps_frame (@throw A p).
Proof. intros r res r' [= <- <-] _. apply frame_refl. Qed.

Lemma keeps_frame_timeout {A} : keeps_frame (@timeout A).
Proof. intros r res r' [= <- <-] Hne. contradiction. Qed.

Lemma keeps_frame_bind {A B} (c : M A) (k : A -> M B) :
  keeps_frame c -> (forall a, keeps_frame (k a)) -> keeps_frame (bind c k).
Proof.
  intros Hc Hk r res r' Hrun Hne. unfold bind in Hrun.
  destruct (c r) as [[a| e | p |] r1] eqn:Hcr.
  - eapply frame_trans; [eapply Hc; [exact Hcr | discriminate] | eapply Hk; eauto].
  - injection Hrun as <- <-. eapply Hc; [exact Hcr | discriminate].
  - injection Hrun as <- <-. eapply Hc; [exact Hcr | discriminate].
  - injection Hrun as <- <-. contradiction.
Qed.

(** A computation that first reads the state. *)
Lemma keeps_frame_reading {A} (c : Runtime -> M A) :
  (forall r0, keeps_frame (c r0)) -> keeps_frame (fun r => c r r).
Proof. intros Hc r res r' Hrun Hne. eapply Hc; eauto. Qed.

Lemma keeps_frame_get_Scope : keeps_frame get_Scope.
Proof. intros r res r' [= <- <-] _. apply frame_refl. Qed.

Lemma keeps_frame_load_scope p : keeps_frame (load_scope p).
Proof.
  intros r res r' Hrun _. unfold load_scope in Hrun.
  destruct p as [l|]; [destruct (scopes r !! l)|]; injection Hrun as <- <-; apply frame_refl.
Qed.

Lemma keeps_frame_load_map l : keeps_frame (load_map l).
Proof.
  intros r res r' Hrun _. unfold load_map in Hrun.
  destruct (maps r !! l); injection Hrun as <- <-; apply frame_refl.
Qed.

Lemma keeps_frame_load_slice l : keeps_frame (load_slice l).
Proof.
  intros r res r' Hrun _. unfold load_slice in Hrun.
  destruct (slices r !! l); injection Hrun as <- <-; apply frame_refl.
Qed.

Lemma keeps_frame_store_map l m : keeps_frame (store_map l m).
Proof.
  intros r res r' [= <- <-] _. apply frame_set_maps. rewrite length_insert. lia.
Qed.

Lemma keeps_frame_alloc_map m : keeps_frame (alloc_map m).
Proof.
  intros r res r' [= <- <-] _. apply frame_set_maps. rewrite length_app. lia.
Qed.

Lemma keeps_frame_store_slice l v : keeps_frame (store_slice l v).
Proof.
  intros r res r' [= <- <-] _. apply frame_set_slices. rewrite length_insert. lia.
Qed.

Lemma keeps_frame_alloc_slice v : keeps_frame (alloc_slice v).
Proof.
  intros r res r' [= <- <-] _. apply frame_set_slices. rewrite length_app. lia.
Qed.

Lemma keeps_frame_format v : keeps_frame (format v).
Proof.
  intros r res r' Hrun _. unfold format in Hrun.
  destruct (renders r v); injection Hrun as <- <-; apply frame_refl.
Qed.

Lemma keeps_frame_Scope_Set name binding : keeps_frame (Scope_Set name binding).
Proof.
  intros r res r' Hrun Hne. unfold Scope_Set, bind, get_Scope, load_scope in Hrun.
  destruct (Scope r) as [l|] eqn:HS; [|injection Hrun as <- <-; apply frame_refl].
  destruct (scopes r !! l) as [s|] eqn:Hs; [|injection Hrun as <- <-; apply frame_refl].
  destruct (scope.Set_ (renders r) s name binding) as [[s' err]|] eqn:HSet;
    [|injection Hrun as <- <-; contradiction].
  cbn in Hrun. injection Hrun as <- <-. apply (frame_with_scope r l s s' HS Hs).
  unfold scope.Set_ in HSet.
  destruct (scope.bindings s !! name) as [old|];
    [destruct (scope.Constant old); [destruct (renders r (scope.Item old))|]|];
    try discriminate HSet; injection HSet as <- <-; reflexivity.
Qed.

End KeepsFrame.

Create HintDb keeps.

Ltac keeps :=
  repeat first
    [ assumption
    | solve [auto with keeps]
    | apply keeps_frame_ret | apply keeps_frame_fail | apply keeps_frame_throw
    | apply keeps_frame_timeout | apply keeps_frame_get_Scope
    | apply keeps_frame_load_scope | apply keeps_frame_load_map
    | apply keeps_frame_load_slice | apply keeps_frame_store_map
    | apply keeps_frame_alloc_map | apply keeps_frame_store_slice
    | apply keeps_frame_alloc_slice | apply keeps_frame_Scope_Set
    | apply keeps_frame_format
    | apply keeps_frame_bind; [|intros ?]
    | match goal with
      | |- keeps_frame (match ?x with _ => _ end) => destruct x
      end ].

Lemma pushed_Scope r : Scope (pushed r) = Some (length (scopes r)).
Proof. reflexivity. Qed.

Lemma pushed_scopes r : scopes (pushed r) = scopes r ++ [scope.New (Scope r)].
Proof. reflexivity. Qed.

(** Entering a scope, running a body that keeps the frame, and leaving the
    scope by [Parent] seals every scope that existed. *)
Lemma keeps_sealed_block {A} (body : M A) :
  keeps_frame body -> keeps_sealed (push_scope ;; defer pop_scope body).
Proof.
  intros Hbody r res r' Hrun Hne. unfold bind at 1 in Hrun.
  rewrite push_scope_pushed in Hrun. unfold defer in Hrun.
  destruct (body (pushed r)) as [res0 r2] eqn:Hb.
  assert (Hres0 : res0 <> OutOfFuel).
  { intros ->. injection Hrun as <- <-. contradiction. }
  pose proof (Hbody _ _ _ Hb Hres0) as [HS Hlen Hin Hpar Hm Hsl].
  rewrite pushed_Scope in HS. rewrite pushed_scopes in Hlen, Hin, Hpar.
  destruct (Hpar (length (scopes r)) (scope.New (Scope r))) as (s' & Hs' & Hp').
  { rewrite lookup_app_r by lia. rewrite Nat.sub_diag. reflexivity. }
  rewrite (pop_scope_parent _ _ _ HS Hs') in Hrun. rewrite Hp' in Hrun. cbn in Hrun.
  assert (Hout : (res, r') = (res0, with_Scope (Scope r) r2))
    by (destruct res0; try contradiction; exact (eq_sym Hrun)).
  injection Hout as -> ->. rewrite length_app in Hlen. cbn in Hlen, Hm, Hsl.
  repeat split; cbn; try lia.
  intros l Hl. rewrite Hin; [apply lookup_app_l; exact Hl | | rewrite length_app; cbn; lia].
  rewrite pushed_Scope. intros [= Heq]. lia.
Qed.

(** The same for the scope a call enters and the pointer it restores. *)
Lemma keeps_sealed_call {A} (parentScope : option loc) (body : M A) :
  keeps_frame body ->
  keeps_sealed (currentScope <- get_Scope ;;
                l <- alloc_scope (scope.New parentScope) ;;
                set_Scope (Some l) ;;
                defer (set_Scope currentScope) body).
Proof.
  intros Hbody r res r' Hrun Hne.
  unfold bind, get_Scope, alloc_scope, set_Scope, defer in Hrun. cbn in Hrun.
  match type of Hrun with context [body ?r1] => set (r1' := r1) in * end.
  destruct (body r1') as [res0 r2] eqn:Hb.
  assert (Hres0 : res0 <> OutOfFuel).
  { intros ->. injection Hrun as <- <-. contradiction. }
  pose proof (Hbody _ _ _ Hb Hres0) as [HS Hlen Hin Hpar Hm Hsl].
  subst r1'. cbn in HS, Hlen, Hin, Hm, Hsl.
  assert (Hout : (res, r') = (res0, with_Scope (Scope r) r2))
    by (destruct res0; try contradiction; exact (eq_sym Hrun)).
  injection Hout as -> ->. rewrite length_app in Hlen. cbn in Hlen.
  repeat split; cbn; try lia.
  intros l Hl. rewrite Hin; [apply lookup_app_l; exact Hl | | rewrite length_app; cbn; lia].
  intros [= Heq]. lia.
Qed.

Lemma keeps_sealed_frame {A} (c : M A) : keeps_sealed c -> keeps_frame c.
Proof. intros Hc r res r' Hrun Hne. apply sealed_frame. eapply Hc; eauto. Qed.

Section FrameOfTheEvaluator.

Context `{Platform}.
Hypothesis Hhost : natives_keep_frame H.

Lemma keeps_frame_Sprint v : keeps_frame (Sprint v).
Proof.
  intros r res r' Hrun _. unfold Sprint in Hrun.
  destruct (renders r v); injection Hrun as <- <-; apply frame_refl.
Qed.

Lemma keeps_frame_Lookup_scopes n p name : keeps_frame (Lookup_scopes n p name).
Proof.
  revert p. induction n as [|n IH]; intros p; destruct p; cbn [Lookup_scopes]; keeps;
    try apply IH.
Qed.

Lemma keeps_frame_Lookup name : keeps_frame (Lookup name).
Proof.
  unfold Lookup. apply (keeps_frame_reading (fun r0 => bind _ _)). intros r0.
  apply keeps_frame_bind; [apply keeps_frame_Lookup_scopes|]. intros found. keeps.
Qed.

Lemma keeps_frame_call_native id args : keeps_frame (call_native id args).
Proof.
  intros r res r' Hrun Hne. unfold call_native in Hrun.
  eapply frame_trans; [apply frame_set_calls | eapply Hhost; eauto].
Qed.

#[local] Hint Resolve keeps_frame_Sprint keeps_frame_Lookup keeps_frame_call_native : keeps.

Lemma keeps_frame_EqEqComparison x y : keeps_frame (EqEqComparison x y).
Proof. unfold EqEqComparison. keeps. Qed.

Lemma keeps_frame_Pointer v : keeps_frame (Pointer v).
Proof. unfold Pointer. keeps. Qed.

#[local] Hint Resolve keeps_frame_Pointer : keeps.

Lemma keeps_frame_EqEqEqComparison x y : keeps_frame (EqEqEqComparison x y).
Proof. unfold EqEqEqComparison. keeps. Qed.

Lemma keeps_frame_Add x y : keeps_frame (Add x y).
Proof. unfold Add. keeps. Qed.

Lemma keeps_frame_Sub x y : keeps_frame (Sub x y).
Proof. unfold Sub. keeps. Qed.

Lemma keeps_frame_Mul_copy_loop k i xv res : keeps_frame (Mul_copy_loop k i xv res).
Proof. revert i res. induction k as [|k IH]; intros i res; cbn [Mul_copy_loop]; keeps; try apply IH. Qed.

#[local] Hint Resolve keeps_frame_Mul_copy_loop : keeps.

Lemma keeps_frame_Mul x y : keeps_frame (Mul x y).
Proof. unfold Mul. keeps. Qed.

Lemma keeps_frame_index v i : keeps_frame (index v i).
Proof. unfold index. keeps. Qed.

Lemma keeps_frame_index_assign l v i y : keeps_frame (index_assign l v i y).
Proof. unfold index_assign. keeps. Qed.

Lemma keeps_frame_negative_index idx v : keeps_frame (negative_index idx v).
Proof. unfold negative_index. keeps. Qed.

Lemma keeps_frame_AssertJSFunc i : keeps_frame (AssertJSFunc i).
Proof. unfold AssertJSFunc. keeps. Qed.

#[local] Hint Resolve keeps_frame_EqEqComparison keeps_frame_EqEqEqComparison keeps_frame_Add
  keeps_frame_Sub keeps_frame_Mul keeps_frame_index keeps_frame_index_assign
  keeps_frame_negative_index keeps_frame_AssertJSFunc : keeps.

Lemma keeps_frame_range_map_loop {A} l keys (body : string -> value -> A -> M A) acc :
  (forall key val acc, keeps_frame (body key val acc)) ->
  keeps_frame (range_map_loop l keys body acc).
Proof.
  intros Hbody. revert acc.
  induction keys as [|key keys IH]; intros acc; cbn [range_map_loop]; keeps; try apply IH.
Qed.

Lemma keeps_frame_range_over_map {A} l (body : string -> value -> A -> M A) acc :
  (forall key val acc, keeps_frame (body key val acc)) ->
  keeps_frame (range_over_map l body acc).
Proof.
  intros Hbody. unfold range_over_map.
  apply (keeps_frame_reading (fun r0 => bind _ _)). intros r0.
  apply keeps_frame_bind; [apply keeps_frame_load_map|]. intros m.
  apply keeps_frame_range_map_loop. exact Hbody.
Qed.

Lemma keeps_frame_range_slice_loop {A} l idxs (body : value -> A -> M A) acc :
  (forall el acc, keeps_frame (body el acc)) ->
  keeps_frame (range_slice_loop l idxs body acc).
Proof.
  intros Hbody. revert acc.
  induction idxs as [|i idxs IH]; intros acc; cbn [range_slice_loop]; keeps; try apply IH.
Qed.

Lemma keeps_frame_range_over_slice {A} l (body : value -> A -> M A) acc :
  (forall el acc, keeps_frame (body el acc)) ->
  keeps_frame (range_over_slice l body acc).
Proof.
  intros Hbody. unfold range_over_slice. keeps. apply keeps_frame_range_slice_loop. exact Hbody.
Qed.

Section OneLevel.

Variable ev : node -> M value.
Hypothesis Hev : forall i, keeps_frame (ev i).

#[local] Hint Resolve Hev : keeps.

Lemma keeps_frame_EvalBindingElement el value constant :
  keeps_frame (EvalBindingElement ev el value constant).
Proof. unfold EvalBindingElement. keeps. Qed.

#[local] Hint Resolve keeps_frame_EvalBindingElement : keeps.

Lemma keeps_frame_bind_params expectedParams idx actualParams :
  keeps_frame (bind_params ev expectedParams idx actualParams).
Proof.
  revert idx. induction expectedParams as [|el rest IH]; intros idx; cbn [bind_params]; keeps;
    try apply IH.
Qed.

#[local] Hint Resolve keeps_frame_bind_params : keeps.

Lemma keeps_sealed_JSFunction parentScope expectedParams body actualParams :
  keeps_sealed (JSFunction ev parentScope expectedParams body actualParams).
Proof. unfold JSFunction. apply keeps_sealed_call. keeps. Qed.

Lemma keeps_frame_JSFunction parentScope expectedParams body actualParams :
  keeps_frame (JSFunction ev parentScope expectedParams body actualParams).
Proof. apply keeps_sealed_frame, keeps_sealed_JSFunction. Qed.

#[local] Hint Resolve keeps_frame_JSFunction : keeps.

Lemma keeps_frame_invoke f args : keeps_frame (invoke ev f args).
Proof. unfold invoke. keeps. Qed.

#[local] Hint Resolve keeps_frame_invoke : keeps.

Lemma keeps_frame_Builtin recv m l args : keeps_frame (Builtin ev recv m l args).
Proof.
  unfold Builtin.
  destruct recv, m; destruct args as [|a0 [|a1 [|a2 args]]]; keeps;
    first [apply keeps_frame_range_over_map | apply keeps_frame_range_over_slice
          | apply keeps_frame_range_slice_loop];
    intros; keeps.
Qed.

#[local] Hint Resolve keeps_frame_Builtin : keeps.

Lemma keeps_frame_Call callable iArgs : keeps_frame (Call ev callable iArgs).
Proof. unfold Call. keeps. Qed.

#[local] Hint Resolve keeps_frame_Call : keeps.

Lemma keeps_frame_EvalIndexExpr X Y : keeps_frame (EvalIndexExpr ev X Y).
Proof. unfold EvalIndexExpr. keeps. Qed.

Lemma keeps_frame_EvalArrayExpr_loop List res : keeps_frame (EvalArrayExpr_loop ev List res).
Proof.
  revert res. induction List as [|el List IH]; intros res; cbn [EvalArrayExpr_loop]; keeps;
    try apply IH.
Qed.

#[local] Hint Resolve keeps_frame_EvalArrayExpr_loop : keeps.

Lemma keeps_frame_EvalArrayExpr List : keeps_frame (EvalArrayExpr ev List).
Proof. unfold EvalArrayExpr. keeps. Qed.

Lemma keeps_sealed_EvalBlockStmt List : keeps_sealed (EvalBlockStmt ev List).
Proof.
  unfold EvalBlockStmt. apply keeps_sealed_block.
  generalize VNil. induction List as [|i List IH]; intros res; cbn [EvalBlockStmt_loop]; keeps;
    try apply IH.
Qed.

Lemma keeps_frame_EvalBlockStmt List : keeps_frame (EvalBlockStmt ev List).
Proof. apply keeps_sealed_frame, keeps_sealed_EvalBlockStmt. Qed.

Lemma keeps_frame_EvalForInStmt Init Value Body : keeps_frame (EvalForInStmt ev Init Value Body).
Proof.
  unfold EvalForInStmt. keeps;
    first [apply keeps_frame_range_over_map | apply keeps_frame_range_over_slice
          | apply keeps_frame_range_slice_loop];
    intros; apply keeps_sealed_frame, keeps_sealed_block; keeps.
Qed.

Lemma keeps_frame_EvalDotExpr X Y : keeps_frame (EvalDotExpr ev X Y).
Proof. unfold EvalDotExpr. keeps. Qed.

Lemma keeps_frame_EvalObjectExpr_loop List res : keeps_frame (EvalObjectExpr_loop ev List res).
Proof.
  revert res. induction List as [|prop List IH]; intros res; cbn [EvalObjectExpr_loop]; keeps;
    try apply IH.
Qed.

#[local] Hint Resolve keeps_frame_EvalObjectExpr_loop : keeps.

Lemma keeps_frame_EvalObjectExpr List : keeps_frame (EvalObjectExpr ev List).
Proof. unfold EvalObjectExpr. keeps. Qed.

Lemma keeps_frame_EvalFuncDecl Name Params Body : keeps_frame (EvalFuncDecl Name Params Body).
Proof. unfold EvalFuncDecl, GenerateJSFunction. keeps. Qed.

Lemma keeps_frame_EvalArrowFunc Params Body : keeps_frame (EvalArrowFunc Params Body).
Proof. unfold EvalArrowFunc, GenerateJSFunction. keeps. Qed.

Lemma keeps_frame_EvalAssignment X Y : keeps_frame (EvalAssignment ev X Y).
Proof. unfold EvalAssignment. keeps. Qed.

#[local] Hint Resolve keeps_frame_EvalAssignment : keeps.

Lemma keeps_frame_EvalBinaryExpr Op X Y : keeps_frame (EvalBinaryExpr ev Op X Y).
Proof. unfold EvalBinaryExpr. keeps. Qed.

Lemma keeps_frame_EvalIfStmt Cond Body Else : keeps_frame (EvalIfStmt ev Cond Body Else).
Proof. unfold EvalIfStmt. keeps. Qed.

Lemma keeps_frame_EvalLiteralExpr tok Data : keeps_frame (EvalLiteralExpr tok Data).
Proof. unfold EvalLiteralExpr. keeps. Qed.

Lemma keeps_frame_EvalCallExpr_args Args : keeps_frame (EvalCallExpr_args ev Args).
Proof. induction Args as [|arg Args IH]; cbn [EvalCallExpr_args]; keeps. Qed.

#[local] Hint Resolve keeps_frame_EvalCallExpr_args : keeps.

Lemma keeps_frame_EvalCallExpr X Args : keeps_frame (EvalCallExpr ev X Args).
Proof. unfold EvalCallExpr. keeps. Qed.

Lemma keeps_frame_EvalVarDecl tok List : keeps_frame (EvalVarDecl ev tok List).
Proof.
  unfold EvalVarDecl. generalize (match tok with ConstToken => true | _ => false end).
  intros constant. induction List as [|el List IH]; cbn [EvalVarDecl_loop]; keeps.
Qed.

Lemma keeps_frame_Eval_node i : keeps_frame (Eval_node ev i).
Proof.
  destruct i; cbn [Eval_node]; unfold EvalReturnStmt, EvalVar;
    auto using keeps_frame_EvalBlockStmt, keeps_frame_EvalLiteralExpr,
      keeps_frame_EvalCallExpr, keeps_frame_EvalBinaryExpr, keeps_frame_EvalArrowFunc,
      keeps_frame_EvalObjectExpr, keeps_frame_EvalArrayExpr, keeps_frame_EvalDotExpr,
      keeps_frame_EvalIndexExpr, keeps_frame_Lookup, keeps_frame_ret, keeps_frame_fail;
    apply keeps_frame_bind;
    auto using keeps_frame_EvalIfStmt, keeps_frame_EvalVarDecl, keeps_frame_EvalFuncDecl,
      keeps_frame_EvalForInStmt, keeps_frame_ret.
Qed.

End OneLevel.

Lemma keeps_frame_Eval fuel : forall i, keeps_frame (Eval fuel i).
Proof.
  induction fuel as [|fuel IH]; intros i; cbn [Eval].
  - apply keeps_frame_timeout.
  - apply keeps_frame_Eval_node. exact IH.
Qed.

End FrameOfTheEvaluator.

Lemma sealed_chain r r' p ss : sealed r r' -> chain r p ss -> chain r' p ss.
Proof.
  intros (_ & Hold & _) Hchain.
  induction Hchain as [|l s ss Hs _ IH]; [constructor|].
  apply chain_parent; [|exact IH].
  rewrite Hold; [exact Hs | eapply lookup_lt_Some; exact Hs].
Qed.

Lemma natives_keep_frame_out (P : Platform) :
  natives_keep_frame (with_natives P (fun _ => out)).
Proof. intros id args r res r' [= <- <-] _. apply frame_refl. Qed.

(** X6. On a platform whose host functions keep the frame, evaluating any
    node with any fuel, however it ends short of running out of fuel (a
    value, an error or a panic), leaves the active scope pointer where it
    was, changes no scope that existed other than the active one, keeps the
    parent of every scope, and shrinks none of the heaps. *)
Theorem Eval_keeps_scope_discipline (P : Platform) (fuel : nat) (i : node)
    (r r' : Runtime) (res : result value) :
  natives_keep_frame P ->
  Eval fuel i r = (res, r') ->
  res <> OutOfFuel ->
  frame r r'.
Proof. intros Hhost Hrun Hne. eapply keeps_frame_Eval; eauto. Qed.

(** With [out] as the only host function, [const a = 1; { a = 2; out(a); }]
    runs to the end in the frame of the fresh runtime. *)
Lemma Eval_keeps_scope_discipline_witness :
  (forall P : Platform, natives_keep_frame (with_natives P (fun _ => out)))
  /\ (forall P : Platform,
        fst (@Eval (with_natives P (fun _ => out)) 6
               (BlockStmt const_assign_out_in_block) r_out) = Ok VNil)
  /\ (forall P : Platform,
        frame r_out
          (snd (@Eval (with_natives P (fun _ => out)) 6
                  (BlockStmt const_assign_out_in_block) r_out))).
Proof.
  split; [exact natives_keep_frame_out|]. split; [intros P; vm_compute; reflexivity|].
  intros P.
  apply (Eval_keeps_scope_discipline (with_natives P (fun _ => out)) 6
           (BlockStmt const_assign_out_in_block) r_out _ (Ok VNil)
           (natives_keep_frame_out P)); [|discriminate].
  vm_compute. reflexivity.
Defined.

(** X7. On such a platform a block, and a call of an interpreted function,
    change no scope that existed before, the active one included: every
    scope of the chain is afterwards what it was, so every name declared
    outside the block or the function is bound as it was, and what the
    block or the call declared or assigned is out of reach. *)
Theorem block_and_call_seal_scopes (P : Platform) (fuel : nat) (r r' : Runtime)
    (res : result value) :
  natives_keep_frame P ->
  res <> OutOfFuel ->
  (forall List,
     Eval fuel (BlockStmt List) r = (res, r') ->
     sealed r r' /\ forall ss, chain r (Scope r) ss -> chain r' (Scope r') ss)
  /\ (forall parentScope expectedParams body actualParams,
        Call (Eval fuel) (VJSFunc parentScope expectedParams body) actualParams r = (res, r') ->
        sealed r r' /\ forall ss, chain r (Scope r) ss -> chain r' (Scope r') ss).
Proof.
  intros Hhost Hne.
  assert (Hchain : sealed r r' -> forall ss, chain r (Scope r) ss -> chain r' (Scope r') ss).
  { intros Hsealed ss Hss. destruct Hsealed as (HS & Hrest). rewrite HS.
    apply (sealed_chain r r'); [split; assumption | exact Hss]. }
  split.
  - intros List Hrun.
    assert (Hsealed : sealed r r').
    { destruct fuel as [|fuel]; [injection Hrun as <- <-; contradiction|].
      cbn [Eval Eval_node] in Hrun.
      eapply (keeps_sealed_EvalBlockStmt (Eval fuel)); eauto.
      intros i. apply keeps_frame_Eval. exact Hhost. }
    split; [exact Hsealed | exact (Hchain Hsealed)].
  - intros parentScope expectedParams body actualParams Hrun.
    assert (Hsealed : sealed r r').
    { rewrite Call_JSFunction in Hrun.
      eapply (keeps_sealed_JSFunction (Eval fuel)); eauto.
      intros i. apply keeps_frame_Eval. exact Hhost. }
    split; [exact Hsealed | exact (Hchain Hsealed)].
Qed.

(** In [r_nested] the call of [(x) => { x = 2; }] on 1 yields 2 and leaves
    the chain of scopes, and so the binding of every name, as it was. *)
Lemma block_and_call_seal_scopes_witness :
  (forall P : Platform, natives_keep_frame (with_natives P (fun _ => out)))
  /\ chain r_nested (Scope r_nested) [s_inner; s_ab]
  /\ (forall P : Platform,
        fst (@Call (with_natives P (fun _ => out))
               (@Eval (with_natives P (fun _ => out)) 4) f_assigns_param [VInt 1] r_nested)
        = Ok (VInt 2))
  /\ (forall P : Platform,
        let r' := snd (@Call (with_natives P (fun _ => out))
                         (@Eval (with_natives P (fun _ => out)) 4)
                         f_assigns_param [VInt 1] r_nested) in
        chain r' (Scope r') [s_inner; s_ab]).
Proof.
  assert (Hchain : chain r_nested (Scope r_nested) [s_inner; s_ab]).
  { apply (chain_parent r_nested 1 s_inner [s_ab] eq_refl).
    apply (chain_parent r_nested 0 s_ab [] eq_refl). apply chain_root. }
  split; [exact natives_keep_frame_out|]. split; [exact Hchain|].
  split; [intros P; vm_compute; reflexivity|].
  intros P r'.
  refine (proj2 (proj2 (block_and_call_seal_scopes (with_natives P (fun _ => out)) 4
                          r_nested r' (Ok (VInt 2)) (natives_keep_frame_out P) _)
                   (Some 0%nat) [declare "x" Nil] [assign (Var "x") (num "2")] [VInt 1] _)
            [s_inner; s_ab] Hchain).
  - discriminate.
  - vm_compute. reflexivity.
Defined.

(** ** The bridge to callables *)

Section Bridge.

Context `{Platform}.
Variable ev : node -> M value.

(** X8. [Call] checks its target before calling it. A value that is not a
    function, and that the message of the error can render, fails with the
    not-callable error. A host function whose type is not variadic and
    takes another number of arguments than are given fails with the
    wrong-argument-count error; one that does not return exactly two values
    fails with the missing-return-values error, and one whose two return
    types are not [interface{}] and [error] with the wrong-return-type
    error. In all these cases the state is as it was: the function did not
    run. A host function that passes the checks is called with the
    arguments, unless it is variadic and more than one of its parameters
    is left without an argument: then [reflect] panics, and the function
    did not run either. *)
Theorem Call_validates_before_invoking (callable : value) (iArgs : list value) (r : Runtime) :
  (FuncType_of callable = None -> renders r callable = true ->
     Call ev callable iArgs r = (Err (NotCallableError callable), r))
  /\ (forall id t,
        callable = VNative id -> Type_ (natives id) = t ->
        (IsVariadic t = false -> length (Ins t) <> length iArgs ->
           Call ev callable iArgs r
           = (Err (WrongNumberOfArgsError (inl callable) (len iArgs) (len (Ins t))), r))
        /\ (IsVariadic t = true \/ length (Ins t) = length iArgs ->
            (length (Outs t) <> 2%nat ->
               Call ev callable iArgs r = (Err (NoReturnValueError callable), r))
            /\ (forall out0 out1, Outs t = [out0; out1] -> out0 <> TInterface ->
                  Call ev callable iArgs r
                  = (Err (WrongReturnValueError callable out0 TInterface), r))
            /\ (forall out1, Outs t = [TInterface; out1] -> out1 <> TError ->
                  Call ev callable iArgs r
                  = (Err (WrongReturnValueError callable out1 TError), r))
            /\ (Outs t = [TInterface; TError] ->
                ((length (Ins t) <= S (length iArgs))%nat ->
                   Call ev callable iArgs r = call_native id iArgs r)
                /\ ((S (length iArgs) < length (Ins t))%nat ->
                      Call ev callable iArgs r = (Panic ReflectCall, r))))).
Proof.
  split.
  - intros Hnone Hr. unfold Call. rewrite Hnone. unfold bind, format. rewrite Hr. reflexivity.
  - intros id t -> <-. unfold Call. cbn [FuncType_of].
    assert (Hfmt : format (VNative id) r = (Ok tt, r)) by reflexivity.
    split.
    + intros Hvar Hlen. rewrite Hvar. cbn [negb andb].
      destruct (Nat.eqb_spec (length (Ins (Type_ (natives id)))) (length iArgs));
        [contradiction|]. cbn [negb]. unfold bind. rewrite Hfmt. reflexivity.
    + intros Harity.
      assert (Hcheck : negb (IsVariadic (Type_ (natives id)))
                       && negb (length (Ins (Type_ (natives id))) =? length iArgs)%nat = false).
      { destruct Harity as [-> | ->]; [reflexivity|].
        rewrite Nat.eqb_refl. apply andb_false_r. }
      rewrite Hcheck. repeat split.
      * intros Hout. destruct (Outs (Type_ (natives id))) as [|o0 [|o1 [|o2 outs]]];
          try (unfold bind; rewrite Hfmt; reflexivity). contradiction Hout. reflexivity.
      * intros out0 out1 -> Hne. rewrite bool_decide_eq_false_2 by exact Hne.
        cbn [negb]. unfold bind. rewrite Hfmt. reflexivity.
      * intros out1 -> Hne. rewrite bool_decide_eq_true_2 by reflexivity.
        rewrite bool_decide_eq_false_2 by exact Hne.
        cbn [negb]. unfold bind. rewrite Hfmt. reflexivity.
      * intros Hlen. rewrite H0, !bool_decide_eq_true_2 by reflexivity.
        destruct (Nat.ltb_spec (S (length iArgs)) (length (Ins (Type_ (natives id)))));
          [lia | reflexivity].
      * intros Hlen. rewrite H0, !bool_decide_eq_true_2 by reflexivity.
        destruct (Nat.ltb_spec (S (length iArgs)) (length (Ins (Type_ (natives id)))));
          [reflexivity | lia].
Qed.

(** X9. A call of an interpreted function with more arguments than it has
    parameters fails with the wrong-argument-count error before any
    parameter is bound or the body evaluated: the state differs only by the
    scope made for the call. And however a call of an interpreted function
    ends short of running out of fuel, whatever its body does, the active
    scope pointer is afterwards what it was before the call. *)
Theorem JSFunction_arity_and_scope (parentScope : option loc)
    (expectedParams : list BindingElement) (body : list node)
    (actualParams : list value) (r : Runtime) :
  ((length expectedParams < length actualParams)%nat ->
     Call ev (VJSFunc parentScope expectedParams body) actualParams r
     = (Err (WrongNumberOfArgsError (inr body) (len actualParams) (len expectedParams)),
        set_scopes (scopes r ++ [scope.New parentScope]) r))
  /\ (forall res r',
        Call ev (VJSFunc parentScope expectedParams body) actualParams r = (res, r') ->
        res <> OutOfFuel ->
        Scope r' = Scope r).
Proof.
  split.
  - intros Hlen. rewrite Call_JSFunction.
    unfold JSFunction, bind, defer, get_Scope, alloc_scope, set_Scope, len. cbn.
    destruct (Z.ltb_spec (Z.of_nat (length expectedParams)) (Z.of_nat (length actualParams)));
      [reflexivity | lia].
  - intros res r' Hrun Hne. rewrite Call_JSFunction in Hrun.
    unfold JSFunction, bind, defer, get_Scope, alloc_scope, set_Scope in Hrun. cbn in Hrun.
    match type of Hrun with context [match ?b with (_, _) => _ end] => destruct b as [res0 r2] end.
    destruct res0; injection Hrun as <- <-; try reflexivity. contradiction.
Qed.

End Bridge.

(** [out] takes one argument: called with two it fails without running;
    the number 1 is not callable. *)
Lemma Call_validates_before_invoking_witness :
  (forall P : Platform, @FuncType_of P (VInt 1) = None)
  /\ renders r_new (VInt 1) = true
  /\ (forall (P : Platform) (ev : node -> M value),
        @Call P ev (VInt 1) [] r_new = (Err (NotCallableError (VInt 1)), r_new))
  /\ (forall (P : Platform) (ev : node -> M value),
        @Call (with_natives P (fun _ => out)) ev (VNative 0) [VInt 1; VInt 2] r_new
        = (Err (WrongNumberOfArgsError (inl (VNative 0)) 2 1), r_new)).
Proof.
  split; [reflexivity|]. split; [reflexivity|]. split; intros P ev.
  - apply (proj1 (Call_validates_before_invoking ev (VInt 1) [] r_new) eq_refl eq_refl).
  - apply (proj1 (proj2 (@Call_validates_before_invoking (with_natives P (fun _ => out)) ev
                           (VNative 0) [VInt 1; VInt 2] r_new)
                    0%nat (Type_ out) eq_refl eq_refl) eq_refl).
    cbn. lia.
Defined.

(** [f_default_7] has one parameter: called with two arguments it fails. *)
Lemma JSFunction_arity_and_scope_witness :
  (length [declare "x" (num "7")] < length [VInt 1; VInt 2])%nat
  /\ (forall (P : Platform) (ev : node -> M value),
        Call ev f_default_7 [VInt 1; VInt 2] r_new
        = (Err (WrongNumberOfArgsError (inr [ExprStmt (Var "x")]) 2 1),
           set_scopes (scopes r_new ++ [scope.New (Some 0%nat)]) r_new))
  /\ (forall P : Platform,
        Scope (snd (Call (Eval 3) f_default_7 [VInt 1] r_new)) = Scope r_new).
Proof.
  assert (Hlen : (length [declare "x" (num "7")] < length [VInt 1; VInt 2])%nat) by (cbn; lia).
  split; [exact Hlen|]. split.
  - intros P ev.
    apply (proj1 (JSFunction_arity_and_scope ev (Some 0%nat) [declare "x" (num "7")]
                    [ExprStmt (Var "x")] [VInt 1; VInt 2] r_new) Hlen).
  - intros P.
    apply (proj2 (JSFunction_arity_and_scope (Eval 3) (Some 0%nat) [declare "x" (num "7")]
                    [ExprStmt (Var "x")] [VInt 1] r_new)
             (fst (Call (Eval 3) f_default_7 [VInt 1] r_new))).
    + vm_compute. reflexivity.
    + vm_compute. discriminate.
Defined.

(** ** Objects *)

Section Objects.

Context `{Platform}.

Lemma EvalDotExpr_map n X Y r r1 l m :
  Eval n X r = (Ok (VMap l), r1) ->
  maps r1 !! l = Some m ->
  Method_of Y = None ->
  Eval (S n) (DotExpr X Y) r = (Ok (default VNil (m !! Y)), r1).
Proof.
  intros HX Hm HY. cbn [Eval Eval_node]. unfold EvalDotExpr, bind, load_map.
  rewrite HX, HY, Hm. reflexivity.
Qed.

Lemma EvalIndexExpr_map n X K r r1 r2 l m k key :
  Eval n X r = (Ok (VMap l), r1) ->
  Eval n K r1 = (Ok k, r2) ->
  maps r2 !! l = Some m ->
  Sprint k r2 = (Ok key, r2) ->
  Eval (S n) (IndexExpr X K) r = (Ok (default VNil (m !! key)), r2).
Proof.
  intros HX HK Hm Hkey. cbn [Eval Eval_node]. unfold EvalIndexExpr, bind, load_map.
  rewrite HX, HK, Hm, Hkey. reflexivity.
Qed.

Lemma EvalAssignment_dot n X Y V r r0 r1 y l m :
  Eval n V r = (Ok y, r0) ->
  Eval n X r0 = (Ok (VMap l), r1) ->
  maps r1 !! l = Some m ->
  Eval (S n) (BinaryExpr EqToken (DotExpr X Y) V) r
  = (Ok y, set_maps (<[l := <[Y := y]> m]> (maps r1)) r1).
Proof.
  intros HV HX Hm. cbn [Eval Eval_node].
  unfold EvalBinaryExpr, EvalAssignment, bind, load_map. rewrite HV, HX, Hm. reflexivity.
Qed.

Lemma EvalAssignment_index_map n X K V r r0 r1 r2 y l m k key :
  Eval n V r = (Ok y, r0) ->
  Eval n X r0 = (Ok (VMap l), r1) ->
  Eval n K r1 = (Ok k, r2) ->
  maps r2 !! l = Some m ->
  Sprint k r2 = (Ok key, r2) ->
  Eval (S n) (BinaryExpr EqToken (IndexExpr X K) V) r
  = (Ok y, set_maps (<[l := <[key := y]> m]> (maps r2)) r2).
Proof.
  intros HV HX HK Hm Hkey. cbn [Eval Eval_node].
  unfold EvalBinaryExpr, EvalAssignment, bind, load_map.
  rewrite HV, HX, HK, Hm, Hkey. reflexivity.
Qed.

(** X10. Reading a key an object does not have yields Undefined and is no
    error, by dot access (for a name that is not one of the built-in
    methods) and by index access (under the rendering of the index). *)
Theorem object_missing_key_is_Undefined (n : nat) (X : node) (r r1 : Runtime)
    (l : loc) (m : gmap string value) :
  Eval n X r = (Ok (VMap l), r1) ->
  maps r1 !! l = Some m ->
  (forall Y, Method_of Y = None -> m !! Y = None ->
     Eval (S n) (DotExpr X Y) r = (Ok VNil, r1))
  /\ (forall K k r2 key,
        Eval n K r1 = (Ok k, r2) ->
        maps r2 !! l = Some m ->
        Sprint k r2 = (Ok key, r2) ->
        m !! key = None ->
        Eval (S n) (IndexExpr X K) r = (Ok VNil, r2)).
Proof.
  intros HX Hm. split.
  - intros Y HY Hnone. rewrite (EvalDotExpr_map _ _ _ _ _ _ _ HX Hm HY), Hnone. reflexivity.
  - intros K k r2 key HK Hm2 Hkey Hnone.
    rewrite (EvalIndexExpr_map _ _ _ _ _ _ _ _ _ _ HX HK Hm2 Hkey), Hnone. reflexivity.
Qed.

(** X11. What is written into an object is what is read back from it,
    through whatever expression yields the same object: after [x.y = v],
    [x.y] is [v] for a name that is not a built-in method, and every other
    such name reads as before; after [x[k] = v], [x[k']] is [v] for every
    index [k'] that renders as [k] does. Both assignments yield [v] and
    change nothing but that one entry. *)
Theorem object_write_then_read (n : nat) (X V : node) (r r0 r1 : Runtime)
    (y : value) (l : loc) :
  Eval n V r = (Ok y, r0) ->
  Eval n X r0 = (Ok (VMap l), r1) ->
  (forall Y m,
     maps r1 !! l = Some m ->
     let r2 := set_maps (<[l := <[Y := y]> m]> (maps r1)) r1 in
     Eval (S n) (BinaryExpr EqToken (DotExpr X Y) V) r = (Ok y, r2)
     /\ forall n' X' r3,
          Eval n' X' r2 = (Ok (VMap l), r3) ->
          maps r3 = maps r2 ->
          (Method_of Y = None -> Eval (S n') (DotExpr X' Y) r2 = (Ok y, r3))
          /\ (forall Y', Y' <> Y -> Method_of Y' = None ->
                Eval (S n') (DotExpr X' Y') r2 = (Ok (default VNil (m !! Y')), r3)))
  /\ (forall K k r2 m key,
        Eval n K r1 = (Ok k, r2) ->
        maps r2 !! l = Some m ->
        Sprint k r2 = (Ok key, r2) ->
        let r3 := set_maps (<[l := <[key := y]> m]> (maps r2)) r2 in
        Eval (S n) (BinaryExpr EqToken (IndexExpr X K) V) r = (Ok y, r3)
        /\ forall n' X' K' k' r4 r5,
             Eval n' X' r3 = (Ok (VMap l), r4) ->
             Eval n' K' r4 = (Ok k', r5) ->
             maps r5 = maps r3 ->
             Sprint k' r5 = (Ok key, r5) ->
             Eval (S n') (IndexExpr X' K') r3 = (Ok y, r5)).
Proof.
  intros HV HX. split.
  - intros Y m Hm r2. split; [eapply EvalAssignment_dot; eassumption|].
    intros n' X' r3 HX' Hmaps.
    assert (Hm3 : maps r3 !! l = Some (<[Y := y]> m)).
    { rewrite Hmaps. cbn. apply list_lookup_insert_eq. eapply lookup_lt_Some. exact Hm. }
    split.
    + intros HY. rewrite (EvalDotExpr_map _ _ _ _ _ _ _ HX' Hm3 HY).
      rewrite lookup_insert_eq. reflexivity.
    + intros Y' Hne HY'. rewrite (EvalDotExpr_map _ _ _ _ _ _ _ HX' Hm3 HY').
      rewrite lookup_insert_ne by congruence. reflexivity.
  - intros K k r2 m key HK Hm Hkey r3.
    split; [eapply EvalAssignment_index_map; eassumption|].
    intros n' X' K' k' r4 r5 HX' HK' Hmaps Hkey'.
    assert (Hm5 : maps r5 !! l = Some (<[key := y]> m)).
    { rewrite Hmaps. cbn. apply list_lookup_insert_eq. eapply lookup_lt_Some. exact Hm. }
    rewrite (EvalIndexExpr_map _ _ _ _ _ _ _ _ _ _ HX' HK' Hm5 Hkey').
    rewrite lookup_insert_eq. reflexivity.
Qed.

End Objects.

(** In [r_heap], [o.z] and [o["z"]] are Undefined. *)
Lemma object_missing_key_is_Undefined_witness :
  (forall P : Platform, Eval 1 (Var "o") r_heap = (Ok (VMap 0), r_heap))
  /\ maps r_heap !! 0%nat = Some {[ "k" := VInt 1 ]}
  /\ (forall P : Platform, Eval 2 (DotExpr (Var "o") "z") r_heap = (Ok VNil, r_heap))
  /\ (forall P : Platform, Eval 2 (IndexExpr (Var "o") (str "'z'")) r_heap = (Ok VNil, r_heap)).
Proof.
  split; [reflexivity|]. split; [reflexivity|]. split; intros P.
  - apply (proj1 (object_missing_key_is_Undefined 1 (Var "o") r_heap r_heap 0
                    {[ "k" := VInt 1 ]} eq_refl eq_refl) "z"); reflexivity.
  - apply (proj2 (object_missing_key_is_Undefined 1 (Var "o") r_heap r_heap 0
                    {[ "k" := VInt 1 ]} eq_refl eq_refl)
             (str "'z'") (VString "z") r_heap "z"); reflexivity.
Defined.

(** In [r_heap], after [o[1] = 5] the index ["1"] reads 5. *)
Lemma object_write_then_read_witness :
  (forall P : Platform,
     Eval 1 (num "5") r_heap = (Ok (VInt 5), r_heap)
     /\ Eval 1 (Var "o") r_heap = (Ok (VMap 0), r_heap)
     /\ Eval 1 (num "1") r_heap = (Ok (VInt 1), r_heap)
     /\ Sprint (VInt 1) r_heap = (Ok "1", r_heap))
  /\ maps r_heap !! 0%nat = Some {[ "k" := VInt 1 ]}
  /\ (forall P : Platform,
        let r3 := set_maps [<["1" := VInt 5]> {[ "k" := VInt 1 ]}] r_heap in
        Eval 2 (BinaryExpr EqToken (IndexExpr (Var "o") (num "1")) (num "5")) r_heap
        = (Ok (VInt 5), r3)
        /\ Eval 2 (IndexExpr (Var "o") (str "'1'")) r3 = (Ok (VInt 5), r3)).
Proof.
  split; [intros P; repeat split|]. split; [reflexivity|]. intros P r3.
  destruct (proj2 (object_write_then_read 1 (Var "o") (num "5") r_heap r_heap r_heap
                     (VInt 5) 0 eq_refl eq_refl)
              (num "1") (VInt 1) r_heap {[ "k" := VInt 1 ]} "1" eq_refl eq_refl eq_refl)
    as [Hwrite Hread].
  split; [exact Hwrite|].
  apply (Hread 1%nat (Var "o") (str "'1'") (VString "1") r3 r3); reflexivity.
Defined.

(** ** Arrays *)

Section Arrays.

Context `{Platform}.

(** X12. What is written into an array at an index inside it is what is
    read back at that index, through whatever expression yields the same
    array; every other index inside it reads as before the write. *)
Theorem array_write_then_read (n : nat) (X K V : node) (r r0 r1 r2 : Runtime)
    (y : value) (l : loc) (v : list value) (i : Z) :
  Eval n V r = (Ok y, r0) ->
  Eval n X r0 = (Ok (VSlice l), r1) ->
  Eval n K r1 = (Ok (VInt i), r2) ->
  slices r2 !! l = Some v ->
  (0 <= i < len v)%Z -> (len v <= GoInt.MaxInt)%Z ->
  let r3 := set_slices (<[l := <[Z.to_nat i := y]> v]> (slices r2)) r2 in
  Eval (S n) (BinaryExpr EqToken (IndexExpr X K) V) r = (Ok y, r3)
  /\ forall n' X' K' j r4 r5,
       Eval n' X' r3 = (Ok (VSlice l), r4) ->
       Eval n' K' r4 = (Ok (VInt j), r5) ->
       slices r5 = slices r3 ->
       (j = i -> Eval (S n') (IndexExpr X' K') r3 = (Ok y, r5))
       /\ (forall el, j <> i -> (0 <= j)%Z -> v !! Z.to_nat j = Some el ->
             Eval (S n') (IndexExpr X' K') r3 = (Ok el, r5)).
Proof.
  intros HV HX HK Hv Hi Hmax r3.
  assert (Hlt : (Z.to_nat i < length v)%nat) by (unfold len in Hi; lia).
  split.
  - rewrite (EvalAssignment_slice_int _ _ _ _ _ _ _ _ _ _ _ _ HV HX HK Hv).
    destruct (Z.ltb_spec i 0); [lia|]. unfold bind, ret.
    unfold GoInt.add. rewrite wrap_in_range
      by (unfold GoInt.MinInt, GoInt.MaxInt in *;
          change (2 ^ 63)%Z with 9223372036854775808%Z in *; lia).
    destruct (Z.ltb_spec (len v) (i + 1)); [lia|].
    unfold index_assign.
    destruct (Z.ltb_spec i 0); [lia|]. destruct (Z.leb_spec (len v) i); [lia|].
    reflexivity.
  - intros n' X' K' j r4 r5 HX' HK' Hslices.
    assert (Hv5 : slices r5 !! l = Some (<[Z.to_nat i := y]> v)).
    { rewrite Hslices. cbn. apply list_lookup_insert_eq. eapply lookup_lt_Some. exact Hv. }
    assert (Hlen : len (<[Z.to_nat i := y]> v) = len v)
      by (unfold len; rewrite length_insert; reflexivity).
    split.
    + intros ->. rewrite (EvalIndexExpr_slice_int _ _ _ _ _ _ _ _ _ HX' HK' Hv5).
      destruct (Z.ltb_spec i 0); [lia|]. unfold bind, ret. rewrite Hlen.
      destruct (Z.ltb_spec (len v) i); [lia|].
      apply index_in_range; [lia|]. apply list_lookup_insert_eq. exact Hlt.
    + intros el Hne Hj Hel.
      pose proof (lookup_lt_Some _ _ _ Hel) as Hjlt.
      rewrite (EvalIndexExpr_slice_int _ _ _ _ _ _ _ _ _ HX' HK' Hv5).
      destruct (Z.ltb_spec j 0); [lia|]. unfold bind, ret. rewrite Hlen.
      destruct (Z.ltb_spec (len v) j); [unfold len in *; lia|].
      apply index_in_range; [lia|]. rewrite list_lookup_insert_ne by lia. exact Hel.
Qed.

Section ArrayLiteral.

Variable ev : node -> M value.

Lemma EvalArrayExpr_loop_yielded List r vs r' :
  yielded ev List r vs r' ->
  forall res, EvalArrayExpr_loop ev List res r = (Ok (res ++ vs), r').
Proof.
  induction 1 as [r|i v List vs r r1 r2 Hi _ IH]; intros res; cbn [EvalArrayExpr_loop].
  - unfold ret. rewrite app_nil_r. reflexivity.
  - unfold bind. rewrite Hi. rewrite IH, <- app_assoc. reflexivity.
Qed.

Lemma EvalArrayExpr_loop_stops Pre r vs r1 :
  yielded ev Pre r vs r1 ->
  forall i Post res,
    (forall e r2, ev i r1 = (Err e, r2) ->
       EvalArrayExpr_loop ev (Pre ++ i :: Post) res r = (Err e, r2))
    /\ (forall p r2, ev i r1 = (Panic p, r2) ->
          EvalArrayExpr_loop ev (Pre ++ i :: Post) res r = (Panic p, r2)).
Proof.
  induction 1 as [r|i0 v List vs r r1 r2 Hi _ IH]; intros i Post res.
  - split; intros x r2 Hx; cbn [app EvalArrayExpr_loop]; unfold bind; rewrite Hx; reflexivity.
  - destruct (IH i Post (res ++ [v])) as [IHe IHp].
    split; intros x r3 Hx; cbn [app EvalArrayExpr_loop]; unfold bind; rewrite Hi;
      [apply IHe | apply IHp]; exact Hx.
Qed.

(** X13. An array literal evaluates its elements from left to right and
    yields a new array of their values in that order, at a location no
    earlier array has, every earlier array being left as the elements left
    it. The first element that fails or panics ends the literal with that
    outcome: no later element is evaluated and no array is made. *)
Theorem array_literal_is_fresh_and_ordered (List : list node) (r r' : Runtime)
    (vs : list value) :
  yielded ev List r vs r' ->
  EvalArrayExpr ev List r
  = (Ok (VSlice (length (slices r'))), set_slices (slices r' ++ [vs]) r')
  /\ slices (set_slices (slices r' ++ [vs]) r') !! length (slices r') = Some vs
  /\ (forall l v, slices r' !! l = Some v ->
        slices (set_slices (slices r' ++ [vs]) r') !! l = Some v)
  /\ (forall i Post e r2, ev i r' = (Err e, r2) ->
        EvalArrayExpr ev (List ++ i :: Post) r = (Err e, r2))
  /\ (forall i Post p r2, ev i r' = (Panic p, r2) ->
        EvalArrayExpr ev (List ++ i :: Post) r = (Panic p, r2)).
Proof.
  intros Hy. split; [|split; [|split; [|split]]].
  - unfold EvalArrayExpr, bind. rewrite (EvalArrayExpr_loop_yielded _ _ _ _ Hy). reflexivity.
  - cbn. rewrite lookup_app_r by lia. rewrite Nat.sub_diag. reflexivity.
  - intros l v Hl. cbn. rewrite lookup_app_l by (eapply lookup_lt_Some; exact Hl). exact Hl.
  - intros i Post e r2 Hi. unfold EvalArrayExpr, bind.
    rewrite (proj1 (EvalArrayExpr_loop_stops _ _ _ _ Hy i Post []) e r2 Hi). reflexivity.
  - intros i Post p r2 Hi. unfold EvalArrayExpr, bind.
    rewrite (proj2 (EvalArrayExpr_loop_stops _ _ _ _ Hy i Post []) p r2 Hi). reflexivity.
Qed.

End ArrayLiteral.

End Arrays.

(** In [r_heap], after [a[1] = 5] the array reads 5 at index 1 and 4, as
    before, at index 2. *)
Lemma array_write_then_read_witness :
  (forall P : Platform,
     Eval 1 (num "5") r_heap = (Ok (VInt 5), r_heap)
     /\ Eval 1 (Var "a") r_heap = (Ok (VSlice 0), r_heap)
     /\ Eval 1 (num "1") r_heap = (Ok (VInt 1), r_heap))
  /\ slices r_heap !! 0%nat = Some [VInt 0; VInt 2; VInt 4]
  /\ (0 <= 1 < len [VInt 0; VInt 2; VInt 4])%Z
  /\ (len [VInt 0; VInt 2; VInt 4] <= GoInt.MaxInt)%Z
  /\ (forall P : Platform,
        let r3 := set_slices [[VInt 0; VInt 5; VInt 4]] r_heap in
        Eval 2 (BinaryExpr EqToken (IndexExpr (Var "a") (num "1")) (num "5")) r_heap
        = (Ok (VInt 5), r3)
        /\ Eval 2 (IndexExpr (Var "a") (num "1")) r3 = (Ok (VInt 5), r3)
        /\ Eval 2 (IndexExpr (Var "a") (num "2")) r3 = (Ok (VInt 4), r3)).
Proof.
  split; [intros P; repeat split|]. split; [reflexivity|].
  split; [vm_compute; split; [discriminate | reflexivity]|].
  split; [vm_compute; discriminate|]. intros P r3.
  destruct (array_write_then_read 1 (Var "a") (num "1") (num "5") r_heap r_heap r_heap r_heap
              (VInt 5) 0 [VInt 0; VInt 2; VInt 4] 1 eq_refl eq_refl eq_refl eq_refl
              ltac:(vm_compute; split; [discriminate | reflexivity])
              ltac:(vm_compute; discriminate))
    as [Hwrite Hread].
  split; [exact Hwrite|]. split.
  - apply (proj1 (Hread 1%nat (Var "a") (num "1") 1%Z r3 r3 eq_refl eq_refl eq_refl)).
    reflexivity.
  - apply (proj2 (Hread 1%nat (Var "a") (num "2") 2%Z r3 r3 eq_refl eq_refl eq_refl)
             (VInt 4)); [discriminate | discriminate | reflexivity].
Defined.

(** The literal [[0, 2, 4]] on a fresh runtime. *)
Lemma array_literal_is_fresh_and_ordered_witness :
  (forall P : Platform,
     yielded (Eval 1) [num "0"; num "2"; num "4"] r_new [VInt 0; VInt 2; VInt 4] r_new)
  /\ (forall P : Platform, Eval 2 array_0_2_4 r_new = (Ok (VSlice 0), r_array)).
Proof.
  assert (Hy : forall P : Platform,
             yielded (Eval 1) [num "0"; num "2"; num "4"] r_new
               [VInt 0; VInt 2; VInt 4] r_new)
    by (intros P; repeat (eapply yielded_cons; [reflexivity|]); apply yielded_nil).
  split; [exact Hy|]. intros P.
  exact (proj1 (array_literal_is_fresh_and_ordered (Eval 1) _ _ _ _ (Hy P))).
Defined.

(** ** The globals are the host's

    Nothing in the evaluator writes [Runtime.Globals] or [M.Globals]. *)

Section KeepsGlobals.

Lemma same_globals_refl r : same_globals r r.
Proof. split; reflexivity. Qed.

Lemma same_globals_trans r1 r2 r3 :
  same_globals r1 r2 -> same_globals r2 r3 -> same_globals r1 r3.
Proof. intros [H1 H2] [H3 H4]. split; congruence. Qed.

(** A step that answers from the state and writes, at most, into a field
    other than the globals. *)
Lemma keeps_globals_step {A} (c : M A) :
  (forall r, same_globals r (snd (c r))) -> keeps_globals c.
Proof. intros Hc r res r' Hrun. specialize (Hc r). rewrite Hrun in Hc. exact Hc. Qed.

Lemma keeps_globals_ret {A} (a : A) : keeps_globals (ret a).
Proof. apply keeps_globals_step. intros r. apply same_globals_refl. Qed.

Lemma keeps_globals_fail {A} e : keeps_globals (@fail A e).
Proof. apply keeps_globals_step. intros r. apply same_globals_refl. Qed.

Lemma keeps_globals_throw {A} p : keeps_globals (@throw A p).
Proof. apply keeps_globals_step. intros r. apply same_globals_refl. Qed.

Lemma keeps_globals_timeout {A} : keeps_globals (@timeout A).
Proof. apply keeps_globals_step. intros r. apply same_globals_refl. Qed.

Lemma keeps_globals_bind {A B} (c : M A) (k : A -> M B) :
  keeps_globals c -> (forall a, keeps_globals (k a)) -> keeps_globals (bind c k).
Proof.
  intros Hc Hk r res r' Hrun. unfold bind in Hrun.
  destruct (c r) as [[a| e | p |] r1] eqn:Hcr;
    [eapply same_globals_trans; [eapply Hc; exact Hcr | eapply Hk; exact Hrun] | | |];
    injection Hrun as <- <-; eapply Hc; exact Hcr.
Qed.

Lemma keeps_globals_defer {A} (cleanup : M unit) (body : M A) :
  keeps_globals cleanup -> keeps_globals body -> keeps_globals (defer cleanup body).
Proof.
  intros Hc Hb r res r' Hrun. unfold defer in Hrun.
  destruct (body r) as [res0 r1] eqn:Hbr. pose proof (Hb _ _ _ Hbr) as H1.
  destruct (cleanup r1) as [resc r2] eqn:Hcr. pose proof (Hc _ _ _ Hcr) as H2.
  pose proof (same_globals_trans _ _ _ H1 H2) as H3.
  destruct res0; destruct resc; injection Hrun as <- <-; assumption.
Qed.

Lemma keeps_globals_reading {A} (c : Runtime -> M A) :
  (forall r0, keeps_globals (c r0)) -> keeps_globals (fun r => c r r).
Proof. intros Hc r res r' Hrun. eapply Hc; eauto. Qed.

Lemma keeps_globals_get_Scope : keeps_globals get_Scope.
Proof. apply keeps_globals_step. intros r. apply same_globals_refl. Qed.

Lemma keeps_globals_set_Scope p : keeps_globals (set_Scope p).
Proof. apply keeps_globals_step. intros r. split; reflexivity. Qed.

Lemma keeps_globals_load_scope p : keeps_globals (load_scope p).
Proof.
  apply keeps_globals_step. intros r. unfold load_scope.
  destruct p as [l|]; [destruct (scopes r !! l)|]; apply same_globals_refl.
Qed.

Lemma keeps_globals_store_scope l s : keeps_globals (store_scope l s).
Proof. apply keeps_globals_step. intros r. split; reflexivity. Qed.

Lemma keeps_globals_alloc_scope s : keeps_globals (alloc_scope s).
Proof. apply keeps_globals_step. intros r. split; reflexivity. Qed.

Lemma keeps_globals_load_map l : keeps_globals (load_map l).
Proof.
  apply keeps_globals_step. intros r. unfold load_map.
  destruct (maps r !! l); apply same_globals_refl.
Qed.

Lemma keeps_globals_store_map l m : keeps_globals (store_map l m).
Proof. apply keeps_globals_step. intros r. split; reflexivity. Qed.

Lemma keeps_globals_alloc_map m : keeps_globals (alloc_map m).
Proof. apply keeps_globals_step. intros r. split; reflexivity. Qed.

Lemma keeps_globals_load_slice l : keeps_globals (load_slice l).
Proof.
  apply keeps_globals_step. intros r. unfold load_slice.
  destruct (slices r !! l); apply same_globals_refl.
Qed.

Lemma keeps_globals_store_slice l v : keeps_globals (store_slice l v).
Proof. apply keeps_globals_step. intros r. split; reflexivity. Qed.

Lemma keeps_globals_alloc_slice v : keeps_globals (alloc_slice v).
Proof. apply keeps_globals_step. intros r. split; reflexivity. Qed.

End KeepsGlobals.

Create HintDb globals.

#[local] Hint Resolve keeps_globals_ret keeps_globals_fail keeps_globals_throw
  keeps_globals_timeout keeps_globals_get_Scope keeps_globals_set_Scope
  keeps_globals_load_scope keeps_globals_store_scope keeps_globals_alloc_scope
  keeps_globals_load_map keeps_globals_store_map keeps_globals_alloc_map
  keeps_globals_load_slice keeps_globals_store_slice keeps_globals_alloc_slice : globals.

Ltac globals :=
  repeat first
    [ assumption
    | solve [auto with globals]
    | apply keeps_globals_bind; [|intros ?]
    | apply keeps_globals_defer
    | match goal with
      | |- keeps_globals (match ?x with _ => _ end) => destruct x
      end ].

Section GlobalsOfTheEvaluator.

Context `{Platform}.
Hypothesis Hhost : natives_keep_globals H.

Lemma keeps_globals_format v : keeps_globals (format v).
Proof.
  apply keeps_globals_step. intros r. unfold format.
  destruct (renders r v); apply same_globals_refl.
Qed.

Lemma keeps_globals_Scope_Set name binding : keeps_globals (Scope_Set name binding).
Proof.
  unfold Scope_Set.
  apply keeps_globals_bind; [apply keeps_globals_get_Scope | intros p].
  apply keeps_globals_bind; [apply keeps_globals_load_scope | intros s].
  destruct p as [l|]; [|apply keeps_globals_throw].
  apply keeps_globals_step. intros r.
  destruct (scope.Set_ (renders r) s name binding) as [[s' err]|]; split; reflexivity.
Qed.

Lemma keeps_globals_push_scope : keeps_globals push_scope.
Proof. unfold push_scope. globals. Qed.

Lemma keeps_globals_pop_scope : keeps_globals pop_scope.
Proof. unfold pop_scope. globals. Qed.

Lemma keeps_globals_Sprint v : keeps_globals (Sprint v).
Proof.
  apply keeps_globals_step. intros r. unfold Sprint.
  destruct (renders r v); apply same_globals_refl.
Qed.

Lemma keeps_globals_Lookup_scopes n p name : keeps_globals (Lookup_scopes n p name).
Proof.
  revert p. induction n as [|n IH]; intros p; destruct p; cbn [Lookup_scopes]; globals;
    try apply IH.
Qed.

Lemma keeps_globals_Lookup name : keeps_globals (Lookup name).
Proof.
  unfold Lookup. apply (keeps_globals_reading (fun r0 => bind _ _)). intros r0.
  apply keeps_globals_bind; [apply keeps_globals_Lookup_scopes|]. intros found. globals.
Qed.

Lemma keeps_globals_call_native id args : keeps_globals (call_native id args).
Proof.
  intros r res r' Hrun. unfold call_native in Hrun.
  eapply same_globals_trans; [|eapply Hhost; exact Hrun]. split; reflexivity.
Qed.

#[local] Hint Resolve keeps_globals_format keeps_globals_Scope_Set keeps_globals_push_scope
  keeps_globals_pop_scope keeps_globals_Sprint keeps_globals_Lookup
  keeps_globals_call_native : globals.

Lemma keeps_globals_Pointer v : keeps_globals (Pointer v).
Proof. unfold Pointer. globals. Qed.

#[local] Hint Resolve keeps_globals_Pointer : globals.

Lemma keeps_globals_EqEqComparison x y : keeps_globals (EqEqComparison x y).
Proof. unfold EqEqComparison. globals. Qed.

Lemma keeps_globals_EqEqEqComparison x y : keeps_globals (EqEqEqComparison x y).
Proof. unfold EqEqEqComparison. globals. Qed.

Lemma keeps_globals_Add x y : keeps_globals (Add x y).
Proof. unfold Add. globals. Qed.

Lemma keeps_globals_Sub x y : keeps_globals (Sub x y).
Proof. unfold Sub. globals. Qed.

Lemma keeps_globals_Mul_copy_loop k i xv res : keeps_globals (Mul_copy_loop k i xv res).
Proof.
  revert i res. induction k as [|k IH]; intros i res; cbn [Mul_copy_loop]; globals;
    try apply IH.
Qed.

#[local] Hint Resolve keeps_globals_Mul_copy_loop : globals.

Lemma keeps_globals_Mul x y : keeps_globals (Mul x y).
Proof. unfold Mul. globals. Qed.

Lemma keeps_globals_index v i : keeps_globals (index v i).
Proof. unfold index. globals. Qed.

Lemma keeps_globals_index_assign l v i y : keeps_globals (index_assign l v i y).
Proof. unfold index_assign. globals. Qed.

Lemma keeps_globals_negative_index idx v : keeps_globals (negative_index idx v).
Proof. unfold negative_index. globals. Qed.

Lemma keeps_globals_AssertJSFunc i : keeps_globals (AssertJSFunc i).
Proof. unfold AssertJSFunc. globals. Qed.

#[local] Hint Resolve keeps_globals_EqEqComparison keeps_globals_EqEqEqComparison
  keeps_globals_Add keeps_globals_Sub keeps_globals_Mul keeps_globals_index
  keeps_globals_index_assign keeps_globals_negative_index keeps_globals_AssertJSFunc : globals.

Lemma keeps_globals_range_map_loop {A} l keys (body : string -> value -> A -> M A) acc :
  (forall key val acc, keeps_globals (body key val acc)) ->
  keeps_globals (range_map_loop l keys body acc).
Proof.
  intros Hbody. revert acc.
  induction keys as [|key keys IH]; intros acc; cbn [range_map_loop]; globals; try apply IH.
Qed.

Lemma keeps_globals_range_over_map {A} l (body : string -> value -> A -> M A) acc :
  (forall key val acc, keeps_globals (body key val acc)) ->
  keeps_globals (range_over_map l body acc).
Proof.
  intros Hbody. unfold range_over_map.
  apply (keeps_globals_reading (fun r0 => bind _ _)). intros r0.
  apply keeps_globals_bind; [apply keeps_globals_load_map|]. intros m.
  apply keeps_globals_range_map_loop. exact Hbody.
Qed.

Lemma keeps_globals_range_slice_loop {A} l idxs (body : value -> A -> M A) acc :
  (forall el acc, keeps_globals (body el acc)) ->
  keeps_globals (range_slice_loop l idxs body acc).
Proof.
  intros Hbody. revert acc.
  induction idxs as [|i idxs IH]; intros acc; cbn [range_slice_loop]; globals; try apply IH.
Qed.

Lemma keeps_globals_range_over_slice {A} l (body : value -> A -> M A) acc :
  (forall el acc, keeps_globals (body el acc)) ->
  keeps_globals (range_over_slice l body acc).
Proof.
  intros Hbody. unfold range_over_slice. globals.
  apply keeps_globals_range_slice_loop. exact Hbody.
Qed.

Section OneLevelOfGlobals.

Variable ev : node -> M value.
Hypothesis Hev : forall i, keeps_globals (ev i).

#[local] Hint Resolve Hev : globals.

Lemma keeps_globals_EvalBindingElement el value constant :
  keeps_globals (EvalBindingElement ev el value constant).
Proof. unfold EvalBindingElement. globals. Qed.

#[local] Hint Resolve keeps_globals_EvalBindingElement : globals.

Lemma keeps_globals_bind_params expectedParams idx actualParams :
  keeps_globals (bind_params ev expectedParams idx actualParams).
Proof.
  revert idx. induction expectedParams as [|el rest IH]; intros idx; cbn [bind_params];
    globals; try apply IH.
Qed.

#[local] Hint Resolve keeps_globals_bind_params : globals.

Lemma keeps_globals_JSFunction parentScope expectedParams body actualParams :
  keeps_globals (JSFunction ev parentScope expectedParams body actualParams).
Proof. unfold JSFunction. globals. Qed.

#[local] Hint Resolve keeps_globals_JSFunction : globals.

Lemma keeps_globals_invoke f args : keeps_globals (invoke ev f args).
Proof. unfold invoke. globals. Qed.

#[local] Hint Resolve keeps_globals_invoke : globals.

Lemma keeps_globals_Builtin recv m l args : keeps_globals (Builtin ev recv m l args).
Proof.
  unfold Builtin.
  destruct recv, m; destruct args as [|a0 [|a1 [|a2 args]]]; globals;
    first [apply keeps_globals_range_over_map | apply keeps_globals_range_over_slice
          | apply keeps_globals_range_slice_loop];
    intros; globals.
Qed.

#[local] Hint Resolve keeps_globals_Builtin : globals.

Lemma keeps_globals_Call callable iArgs : keeps_globals (Call ev callable iArgs).
Proof. unfold Call. globals. Qed.

#[local] Hint Resolve keeps_globals_Call : globals.

Lemma keeps_globals_EvalIndexExpr X Y : keeps_globals (EvalIndexExpr ev X Y).
Proof. unfold EvalIndexExpr. globals. Qed.

Lemma keeps_globals_EvalArrayExpr_loop List res :
  keeps_globals (EvalArrayExpr_loop ev List res).
Proof.
  revert res. induction List as [|el List IH]; intros res; cbn [EvalArrayExpr_loop]; globals;
    try apply IH.
Qed.

#[local] Hint Resolve keeps_globals_EvalArrayExpr_loop : globals.

Lemma keeps_globals_EvalArrayExpr List : keeps_globals (EvalArrayExpr ev List).
Proof. unfold EvalArrayExpr. globals. Qed.

Lemma keeps_globals_EvalBlockStmt List : keeps_globals (EvalBlockStmt ev List).
Proof.
  unfold EvalBlockStmt. globals.
  generalize VNil. induction List as [|i List IH]; intros res; cbn [EvalBlockStmt_loop];
    globals; try apply IH.
Qed.

#[local] Hint Resolve keeps_globals_EvalBlockStmt : globals.

Lemma keeps_globals_EvalForInStmt Init Value Body :
  keeps_globals (EvalForInStmt ev Init Value Body).
Proof.
  unfold EvalForInStmt. globals;
    first [apply keeps_globals_range_over_map | apply keeps_globals_range_over_slice
          | apply keeps_globals_range_slice_loop];
    intros; globals.
Qed.

Lemma keeps_globals_EvalDotExpr X Y : keeps_globals (EvalDotExpr ev X Y).
Proof. unfold EvalDotExpr. globals. Qed.

Lemma keeps_globals_EvalObjectExpr_loop List res :
  keeps_globals (EvalObjectExpr_loop ev List res).
Proof.
  revert res. induction List as [|prop List IH]; intros res; cbn [EvalObjectExpr_loop];
    globals; try apply IH.
Qed.

#[local] Hint Resolve keeps_globals_EvalObjectExpr_loop : globals.

Lemma keeps_globals_EvalObjectExpr List : keeps_globals (EvalObjectExpr ev List).
Proof. unfold EvalObjectExpr. globals. Qed.

Lemma keeps_globals_EvalFuncDecl Name Params Body :
  keeps_globals (EvalFuncDecl Name Params Body).
Proof. unfold EvalFuncDecl, GenerateJSFunction. globals. Qed.

Lemma keeps_globals_EvalArrowFunc Params Body : keeps_globals (EvalArrowFunc Params Body).
Proof. unfold EvalArrowFunc, GenerateJSFunction. globals. Qed.

Lemma keeps_globals_EvalAssignment X Y : keeps_globals (EvalAssignment ev X Y).
Proof. unfold EvalAssignment. globals. Qed.

#[local] Hint Resolve keeps_globals_EvalAssignment : globals.

Lemma keeps_globals_EvalBinaryExpr Op X Y : keeps_globals (EvalBinaryExpr ev Op X Y).
Proof. unfold EvalBinaryExpr. globals. Qed.

Lemma keeps_globals_EvalIfStmt Cond Body Else : keeps_globals (EvalIfStmt ev Cond Body Else).
Proof. unfold EvalIfStmt. globals. Qed.

Lemma keeps_globals_EvalLiteralExpr tok Data : keeps_globals (EvalLiteralExpr tok Data).
Proof. unfold EvalLiteralExpr. globals. Qed.

Lemma keeps_globals_EvalCallExpr_args Args : keeps_globals (EvalCallExpr_args ev Args).
Proof. induction Args as [|arg Args IH]; cbn [EvalCallExpr_args]; globals. Qed.

#[local] Hint Resolve keeps_globals_EvalCallExpr_args : globals.

Lemma keeps_globals_EvalCallExpr X Args : keeps_globals (EvalCallExpr ev X Args).
Proof. unfold EvalCallExpr. globals. Qed.

Lemma keeps_globals_EvalVarDecl tok List : keeps_globals (EvalVarDecl ev tok List).
Proof.
  unfold EvalVarDecl. generalize (match tok with ConstToken => true | _ => false end).
  intros constant. induction List as [|el List IH]; cbn [EvalVarDecl_loop]; globals.
Qed.

Lemma keeps_globals_Eval_node i : keeps_globals (Eval_node ev i).
Proof.
  destruct i; cbn [Eval_node]; unfold EvalReturnStmt, EvalVar;
    auto using keeps_globals_EvalBlockStmt, keeps_globals_EvalLiteralExpr,
      keeps_globals_EvalCallExpr, keeps_globals_EvalBinaryExpr, keeps_globals_EvalArrowFunc,
      keeps_globals_EvalObjectExpr, keeps_globals_EvalArrayExpr, keeps_globals_EvalDotExpr,
      keeps_globals_EvalIndexExpr, keeps_globals_Lookup, keeps_globals_ret,
      keeps_globals_fail;
    apply keeps_globals_bind;
    auto using keeps_globals_EvalIfStmt, keeps_globals_EvalVarDecl,
      keeps_globals_EvalFuncDecl, keeps_globals_EvalForInStmt, keeps_globals_ret.
Qed.

End OneLevelOfGlobals.

Lemma keeps_globals_Eval fuel : forall i, keeps_globals (Eval fuel i).
Proof.
  induction fuel as [|fuel IH]; intros i; cbn [Eval].
  - apply keeps_globals_timeout.
  - apply keeps_globals_Eval_node. exact IH.
Qed.

End GlobalsOfTheEvaluator.

Lemma natives_keep_globals_out (P : Platform) :
  natives_keep_globals (with_natives P (fun _ => out)).
Proof. intros id args r res r' [= <- <-]. apply same_globals_refl. Qed.

(** What a lookup answers, read off the chain of scopes and the globals. *)
Lemma Lookup_chain `{Platform} r ss name :
  chain r (Scope r) ss ->
  (length ss <= length (scopes r))%nat ->
  Lookup name r
  = (match resolve ss name with
     | Some v => Ok v
     | None =>
         match Globals r !! name with
         | Some v => Ok v
         | None =>
             match M_Globals r !! name with
             | Some v => Ok v
             | None => Err (NotDeclaredError name)
             end
         end
     end, r).
Proof.
  intros Hchain Hlen. unfold Lookup, bind.
  rewrite (Lookup_scopes_chain _ _ _ name _ Hchain Hlen).
  destruct (resolve ss name); [reflexivity|].
  destruct (Globals r !! name); [reflexivity|].
  destruct (M_Globals r !! name); reflexivity.
Qed.

(** X14. The evaluator never writes the globals: when the host functions
    leave [Runtime.Globals] and [M.Globals] as they are, so does the
    evaluation of any node, the call of any value and a whole run, however
    they end, running out of fuel included. *)
Theorem evaluator_never_writes_globals (P : Platform) (fuel : nat) (r r' : Runtime) :
  natives_keep_globals P ->
  (forall i res, Eval fuel i r = (res, r') -> same_globals r r')
  /\ (forall callable iArgs res,
        Call (Eval fuel) callable iArgs r = (res, r') -> same_globals r r')
  /\ (forall funcName args res,
        Runtime_Call fuel funcName args r = (res, r') -> same_globals r r')
  /\ (forall ast res, Run fuel ast r = (res, r') -> same_globals r r').
Proof.
  intros Hhost.
  pose proof (keeps_globals_Eval Hhost fuel) as Hev.
  split; [|split; [|split]].
  - intros i res Hrun. eapply Hev; exact Hrun.
  - intros callable iArgs res Hrun. eapply (keeps_globals_Call Hhost); eauto.
  - intros funcName args res Hrun.
    refine (keeps_globals_bind _ _ (keeps_globals_Lookup funcName) _ _ _ _ Hrun).
    intros f. apply (keeps_globals_Call Hhost). exact Hev.
  - intros ast res Hrun.
    refine (keeps_globals_bind _ _ (Hev (BlockStmt ast)) _ _ _ _ Hrun).
    intros _. apply keeps_globals_ret.
Qed.

(** With [out] as the only host function, [const a = 1; { a = 2; out(a); }]
    leaves the one global of [r_out] in place. *)
Lemma evaluator_never_writes_globals_witness :
  (forall P : Platform, natives_keep_globals (with_natives P (fun _ => out)))
  /\ (forall P : Platform,
        M_Globals (snd (@Run (with_natives P (fun _ => out)) 7
                          const_assign_out_in_block r_out))
        = {[ "out" := VNative 0 ]}).
Proof.
  split; [exact natives_keep_globals_out|]. intros P.
  exact (proj2 (proj2 (proj2 (proj2
           (evaluator_never_writes_globals (with_natives P (fun _ => out)) 7 r_out _
              (natives_keep_globals_out P))))
           const_assign_out_in_block
           (fst (@Run (with_natives P (fun _ => out)) 7 const_assign_out_in_block r_out))
           (surjective_pairing _))).
Defined.

(** X15. A run leaves no name behind. [Run] evaluates the program as a
    block, in a scope of its own that it leaves at the end: on a platform
    whose host functions keep the frame and the globals, every name
    resolves after the run to what it resolved to before it, so what the
    program declared at its top level is not declared afterwards, and
    [Runtime.Call] of a name that was not declared before the run fails
    with the not-declared error after it. *)
Theorem Run_leaves_no_name_behind (P : Platform) (fuel : nat) (ast : list node)
    (r r' : Runtime) (res : result unit) (ss : list scope.S) :
  natives_keep_frame P ->
  natives_keep_globals P ->
  chain r (Scope r) ss ->
  (length ss <= length (scopes r))%nat ->
  Run fuel ast r = (res, r') ->
  res <> OutOfFuel ->
  (forall name, fst (Lookup name r') = fst (Lookup name r)
                /\ snd (Lookup name r') = r')
  /\ (forall name fuel' args,
        fst (Lookup name r) = Err (NotDeclaredError name) ->
        Runtime_Call fuel' name args r' = (Err (NotDeclaredError name), r')).
Proof.
  intros Hframe Hglobals Hchain Hlen Hrun Hne.
  assert (Hsealed : sealed r r' /\ same_globals r r').
  { unfold Run, bind in Hrun.
    destruct (Eval fuel (BlockStmt ast) r) as [res0 r0] eqn:Hev.
    assert (Heq : r0 = r' /\ res0 <> OutOfFuel).
    { destruct res0; injection Hrun as <- <-;
        first [contradiction | split; [reflexivity | discriminate]]. }
    destruct Heq as [-> Hne0]. split; [|eapply (keeps_globals_Eval Hglobals); exact Hev].
    destruct fuel as [|fuel]; [injection Hev as <- <-; contradiction|].
    cbn [Eval Eval_node] in Hev.
    eapply (keeps_sealed_EvalBlockStmt (Eval fuel)); eauto.
    intros i. apply keeps_frame_Eval. exact Hframe. }
  destruct Hsealed as [Hsealed [HG HM]].
  assert (Hchain' : chain r' (Scope r') ss).
  { destruct Hsealed as (HS & Hrest). rewrite HS.
    apply (sealed_chain r r'); [split; assumption | exact Hchain]. }
  assert (Hlen' : (length ss <= length (scopes r'))%nat)
    by (destruct Hsealed as (_ & _ & Hl & _); lia).
  assert (Hsame : forall name, fst (Lookup name r') = fst (Lookup name r)
                               /\ snd (Lookup name r') = r').
  { intros name. rewrite (Lookup_chain r' ss name Hchain' Hlen'),
      (Lookup_chain r ss name Hchain Hlen), HG, HM. split; reflexivity. }
  split; [exact Hsame|].
  intros name fuel' args Hnot. unfold Runtime_Call, bind.
  destruct (Hsame name) as [Hfst Hsnd]. rewrite Hnot in Hfst.
  destruct (Lookup name r') as [out0 r0]. cbn in Hfst, Hsnd. subst. reflexivity.
Qed.

(** On a fresh runtime [function f() {}; let x = 1] runs to its end, and
    [f] is not declared afterwards. *)
Lemma Run_leaves_no_name_behind_witness :
  (forall P : Platform, natives_keep_frame (with_natives P (fun _ => out)))
  /\ (forall P : Platform, natives_keep_globals (with_natives P (fun _ => out)))
  /\ chain r_new (Scope r_new) [scope.New None]
  /\ (forall P : Platform,
        fst (@Run (with_natives P (fun _ => out)) 4 declares_f_and_x r_new) = Ok tt)
  /\ (forall P : Platform,
        let r' := snd (@Run (with_natives P (fun _ => out)) 4 declares_f_and_x r_new) in
        @Runtime_Call (with_natives P (fun _ => out)) 4 "f" [] r'
        = (Err (NotDeclaredError "f"), r')).
Proof.
  assert (Hchain : chain r_new (Scope r_new) [scope.New None])
    by (apply (chain_parent r_new 0 (scope.New None) [] eq_refl); apply chain_root).
  split; [exact natives_keep_frame_out|]. split; [exact natives_keep_globals_out|].
  split; [exact Hchain|]. split; [intros P; vm_compute; reflexivity|].
  intros P r'.
  apply (proj2 (Run_leaves_no_name_behind (with_natives P (fun _ => out)) 4 declares_f_and_x
                  r_new r' (Ok tt) [scope.New None]
                  (natives_keep_frame_out P) (natives_keep_globals_out P) Hchain
                  ltac:(cbn; lia) ltac:(vm_compute; reflexivity) ltac:(discriminate))).
  vm_compute. reflexivity.
Defined.

(** ** Equality *)

Section Equality.

Context `{Platform}.

Lemma EqEqComparison_renderings x y r :
  renders r x = true -> renders r y = true ->
  EqEqComparison x y r
  = (Ok (VBool (bool_decide (rendered r x = rendered r y))), r).
Proof.
  intros Hx Hy. unfold EqEqComparison, bind, rendered, Sprint. rewrite Hx, Hy. reflexivity.
Qed.

Lemma EqEqComparison_returns x y r res r' :
  EqEqComparison x y r = (res, r') -> res <> OutOfFuel ->
  renders r x = true /\ renders r y = true.
Proof.
  unfold EqEqComparison, bind, Sprint. intros Hrun Hne.
  destruct (renders r x); [|injection Hrun as <- <-; contradiction].
  destruct (renders r y); [|injection Hrun as <- <-; contradiction].
  split; reflexivity.
Qed.

(** X16. The loose equality [==] compares the texts [fmt.Sprint] gives its
    operands. On operands that [fmt] can render it always answers, and
    changes nothing; in any one state it is reflexive, symmetric and
    transitive. It is equality of the numbers on two integers and equality
    of the texts on two strings, and it holds between an integer and the
    string of its decimal digits, in either order. When an operand is an
    object or an array that holds itself it does not return. *)
Theorem EqEqComparison_is_an_equivalence (r : Runtime) :
  (forall x y, renders r x = true -> renders r y = true ->
     exists b, EqEqComparison x y r = (Ok (VBool b), r))
  /\ (forall x, renders r x = true -> EqEqComparison x x r = (Ok (VBool true), r))
  /\ (forall x y, renders r x = true -> renders r y = true ->
        EqEqComparison x y r = EqEqComparison y x r)
  /\ (forall x y z,
        EqEqComparison x y r = (Ok (VBool true), r) ->
        EqEqComparison y z r = (Ok (VBool true), r) ->
        EqEqComparison x z r = (Ok (VBool true), r))
  /\ (forall a b, EqEqComparison (VInt a) (VInt b) r = (Ok (VBool (a =? b)%Z), r))
  /\ (forall s t, EqEqComparison (VString s) (VString t) r
                  = (Ok (VBool (bool_decide (s = t))), r))
  /\ (forall n, EqEqComparison (VInt n) (VString (pretty n)) r = (Ok (VBool true), r)
                /\ EqEqComparison (VString (pretty n)) (VInt n) r = (Ok (VBool true), r))
  /\ (forall x y, renders r x && renders r y = false ->
        EqEqComparison x y r = (OutOfFuel, r)).
Proof.
  split; [|split; [|split; [|split; [|split; [|split; [|split]]]]]].
  - intros x y Hx Hy. eexists. apply EqEqComparison_renderings; assumption.
  - intros x Hx. rewrite (EqEqComparison_renderings x x r Hx Hx).
    rewrite bool_decide_eq_true_2 by reflexivity. reflexivity.
  - intros x y Hx Hy. rewrite !EqEqComparison_renderings by assumption. do 3 f_equal.
    apply bool_decide_ext. split; intros Heq; symmetry; exact Heq.
  - intros x y z Hxy Hyz.
    destruct (EqEqComparison_returns _ _ _ _ _ Hxy ltac:(discriminate)) as [Hx Hy].
    destruct (EqEqComparison_returns _ _ _ _ _ Hyz ltac:(discriminate)) as [_ Hz].
    rewrite (EqEqComparison_renderings x y r Hx Hy) in Hxy.
    rewrite (EqEqComparison_renderings y z r Hy Hz) in Hyz.
    rewrite (EqEqComparison_renderings x z r Hx Hz).
    injection Hxy as Hxy. injection Hyz as Hyz.
    apply bool_decide_eq_true_1 in Hxy, Hyz.
    rewrite bool_decide_eq_true_2; [reflexivity | congruence].
  - intros a b. rewrite EqEqComparison_renderings by reflexivity. do 3 f_equal.
    change (rendered r (VInt a)) with (pretty a).
    change (rendered r (VInt b)) with (pretty b).
    destruct (Z.eqb_spec a b) as [->|Hne].
    + apply bool_decide_eq_true_2. reflexivity.
    + apply bool_decide_eq_false_2. intros Heq.
      apply Hne. exact (inj pretty _ _ Heq).
  - intros s t. reflexivity.
  - intros n. split; rewrite EqEqComparison_renderings by reflexivity;
      rewrite bool_decide_eq_true_2 by reflexivity; reflexivity.
  - intros x y Hxy. unfold EqEqComparison, bind, Sprint.
    destruct (renders r x); [|reflexivity].
    destruct (renders r y); [discriminate Hxy | reflexivity].
Qed.

(** X17. The strict equality [===]: values of different kinds are never
    equal; two integers, two strings and two booleans are equal when they
    are the same value, which for integers and strings is when [==] holds
    too; two objects are equal only when they are one and the same object,
    whatever they hold, and so are two arrays that are not empty; and
    comparing Undefined with Undefined panics. *)
Theorem EqEqEqComparison_by_value_or_identity (r : Runtime) :
  (forall x y, Kind_of x <> Kind_of y ->
     EqEqEqComparison x y r = (Ok (VBool false), r))
  /\ (forall a b, EqEqEqComparison (VInt a) (VInt b) r = (Ok (VBool (a =? b)%Z), r)
                  /\ EqEqEqComparison (VInt a) (VInt b) r = EqEqComparison (VInt a) (VInt b) r)
  /\ (forall s t, EqEqEqComparison (VString s) (VString t) r
                  = (Ok (VBool (bool_decide (s = t))), r)
                  /\ EqEqEqComparison (VString s) (VString t) r
                     = EqEqComparison (VString s) (VString t) r)
  /\ (forall a b, EqEqEqComparison (VBool a) (VBool b) r
                  = (Ok (VBool (bool_decide (a = b))), r))
  /\ (forall l1 l2, EqEqEqComparison (VMap l1) (VMap l2) r
                    = (Ok (VBool (bool_decide (l1 = l2))), r))
  /\ (forall l1 l2 v1 v2,
        slices r !! l1 = Some v1 -> slices r !! l2 = Some v2 -> v1 <> [] -> v2 <> [] ->
        EqEqEqComparison (VSlice l1) (VSlice l2) r
        = (Ok (VBool (bool_decide (l1 = l2))), r))
  /\ EqEqEqComparison VNil VNil r = (Panic ReflectZeroValue, r).
Proof.
  split; [|split; [|split; [|split; [|split; [|split]]]]].
  - intros x y Hne. unfold EqEqEqComparison.
    rewrite (bool_decide_eq_false_2 _ Hne). reflexivity.
  - intros a b. split; [reflexivity|].
    change (EqEqEqComparison (VInt a) (VInt b) r) with (Ok (VBool (a =? b)%Z), r).
    rewrite EqEqComparison_renderings by reflexivity. do 3 f_equal. symmetry.
    change (rendered r (VInt a)) with (pretty a).
    change (rendered r (VInt b)) with (pretty b).
    destruct (Z.eqb_spec a b) as [->|Hne].
    + apply bool_decide_eq_true_2. reflexivity.
    + apply bool_decide_eq_false_2. intros Heq.
      apply Hne. exact (inj pretty _ _ Heq).
  - intros s t. split; [reflexivity|].
    reflexivity.
  - intros a b. reflexivity.
  - intros l1 l2. unfold EqEqEqComparison. cbn [Kind_of FuncType_of Pointer].
    rewrite !bool_decide_eq_true_2 by reflexivity. cbn [negb]. unfold bind, ret.
    do 3 f_equal. apply bool_decide_ext. split; congruence.
  - intros l1 l2 v1 v2 H1 H2 Hv1 Hv2. unfold EqEqEqComparison.
    cbn [Kind_of FuncType_of Pointer].
    rewrite !bool_decide_eq_true_2 by reflexivity. cbn [negb].
    unfold bind, load_slice, ret. rewrite H1, H2.
    destruct v1 as [|e1 v1]; [contradiction|]. destruct v2 as [|e2 v2]; [contradiction|].
    do 3 f_equal. apply bool_decide_ext. split; congruence.
  - reflexivity.
Qed.

End Equality.

(** ** The built-in methods of arrays *)

Section Builtins.

Context `{Platform}.
Variable ev : node -> M value.

Lemma Call_Builtin recv m l iArgs :
  length iArgs = arity m ->
  Call ev (VBuiltin recv m l) iArgs = Builtin ev recv m l iArgs.
Proof.
  intros Hlen. unfold Call. cbn [FuncType_of].
  destruct m; destruct iArgs as [|a0 [|a1 [|a2 iArgs]]]; try discriminate Hlen; reflexivity.
Qed.

Lemma AssertJSFunc_ok f r :
  FuncType_of f = Some JSFuncType -> AssertJSFunc f r = (Ok f, r).
Proof. intros Hf. unfold AssertJSFunc. rewrite bool_decide_eq_true_2; [reflexivity | exact Hf]. Qed.

Lemma AssertJSFunc_fails f r :
  FuncType_of f <> Some JSFuncType -> renders r f = true ->
  AssertJSFunc f r = (Err (NotFunctionError f), r).
Proof.
  intros Hf Hr. unfold AssertJSFunc. rewrite bool_decide_eq_false_2 by exact Hf.
  unfold bind, format. rewrite Hr. reflexivity.
Qed.

(** A loop over an object without keys never runs its body. *)
Lemma range_map_loop_empty {A} l keys (body : string -> value -> A -> M A) acc r :
  maps r !! l = Some ∅ -> range_map_loop l keys body acc r = (Ok acc, r).
Proof.
  intros Hm. induction keys as [|key keys IH]; [reflexivity|].
  cbn [range_map_loop]. unfold bind, load_map. rewrite Hm, lookup_empty. exact IH.
Qed.

(** A loop over the elements of an array whose body, wherever [I] holds,
    answers [g] and keeps [I], folds [g] over the elements from the left. *)
Lemma range_slice_loop_fold {A} (I : Runtime -> Prop) l v
    (body : value -> A -> M A) (g : value -> A -> A) :
  (forall r, I r -> slices r !! l = Some v) ->
  (forall el acc r, I r -> exists r', body el acc r = (Ok (g el acc), r') /\ I r') ->
  forall n k acc r,
    (k + n = length v)%nat -> I r ->
    exists r', range_slice_loop l (seq k n) body acc r
               = (Ok (foldl (fun acc el => g el acc) acc (drop k v)), r')
               /\ I r'.
Proof.
  intros HI Hbody. induction n as [|n IH]; intros k acc r Hk Hr; cbn [seq range_slice_loop].
  - exists r. rewrite drop_ge by lia. split; [reflexivity | exact Hr].
  - destruct (lookup_lt_is_Some_2 v k ltac:(lia)) as [el Hel].
    unfold bind at 1, load_slice. rewrite (HI r Hr), Hel. unfold bind at 1.
    destruct (Hbody el acc r Hr) as (r1 & Hrun & Hr1). rewrite Hrun.
    destruct (IH (S k) (g el acc) r1 ltac:(lia) Hr1) as (r' & Hloop & Hr').
    exists r'. rewrite (drop_S _ _ _ Hel). cbn [foldl]. split; assumption.
Qed.

Lemma range_over_slice_fold {A} (I : Runtime -> Prop) l v
    (body : value -> A -> M A) (g : value -> A -> A) acc r :
  (forall r, I r -> slices r !! l = Some v) ->
  (forall el acc r, I r -> exists r', body el acc r = (Ok (g el acc), r') /\ I r') ->
  I r ->
  exists r', range_over_slice l body acc r
             = (Ok (foldl (fun acc el => g el acc) acc v), r')
             /\ I r'.
Proof.
  intros HI Hbody Hr. unfold range_over_slice, bind, load_slice. rewrite (HI r Hr).
  exact (range_slice_loop_fold I l v body g HI Hbody (length v) 0 acc r eq_refl Hr).
Qed.

Lemma foldl_snoc_map {A B} (g : A -> B) (v : list A) (acc : list B) :
  foldl (fun res el => res ++ [g el]) acc v = acc ++ map g v.
Proof.
  revert acc. induction v as [|el v IH]; intros acc; cbn.
  - rewrite app_nil_r. reflexivity.
  - rewrite IH, <- app_assoc. reflexivity.
Qed.

(** X18. The built-in methods of arrays, called on an iterator of the
    type of the interpreted functions. Let the array hold [v] wherever [I]
    holds, and let [I] hold now. If the iterator, wherever [I] holds,
    answers [g el sum] on an element and a sum and keeps [I], then
    [reduce] answers the fold of [g] over [v] from the left, started at
    the sum it was given. If it answers [g1 el] on an element and keeps
    [I], then [map] answers a new array holding [g1] of every element of
    [v] in order, and leaves the array itself holding [v]; and [forEach]
    answers Undefined. *)
Theorem array_builtins_fold_and_map (I : Runtime -> Prop) (l : loc) (v : list value)
    (f : value) (r : Runtime) :
  FuncType_of f = Some JSFuncType ->
  (forall r, I r -> slices r !! l = Some v) ->
  I r ->
  (forall g sum,
     (forall el sum r, I r ->
        exists r', invoke ev f [el; sum] r = (Ok (g el sum), r') /\ I r') ->
     exists r', Call ev (VBuiltin OnSlice reduce l) [f; sum] r
                = (Ok (foldl (fun sum el => g el sum) sum v), r')
                /\ I r')
  /\ (forall g1,
        (forall el r, I r -> exists r', invoke ev f [el] r = (Ok (g1 el), r') /\ I r') ->
        (exists r', Call ev (VBuiltin OnSlice map_ l) [f] r
                    = (Ok (VSlice (length (slices r'))),
                       set_slices (slices r' ++ [map g1 v]) r')
                    /\ I r' /\ l <> length (slices r'))
        /\ (exists r', Call ev (VBuiltin OnSlice forEach l) [f] r = (Ok VNil, r') /\ I r')).
Proof.
  intros Hf HI Hr. split.
  - intros g sum Hg. rewrite Call_Builtin by reflexivity.
    cbn [Builtin]. unfold bind at 1. rewrite (AssertJSFunc_ok f r Hf).
    exact (range_over_slice_fold I l v _ g sum r HI Hg Hr).
  - intros g1 Hg1. split.
    + rewrite Call_Builtin by reflexivity. cbn [Builtin]. unfold bind at 1.
      rewrite (AssertJSFunc_ok f r Hf).
      destruct (range_over_slice_fold I l v
                  (fun el res => mapped <- invoke ev f [el] ;; ret (res ++ [mapped]))
                  (fun el res => res ++ [g1 el]) [] r HI) as (r' & Hloop & Hr').
      { intros el acc r0 Hr0. destruct (Hg1 el r0 Hr0) as (r1 & Hrun & Hr1).
        exists r1. unfold bind. rewrite Hrun. split; [reflexivity | exact Hr1]. }
      { exact Hr. }
      exists r'. unfold bind at 1. rewrite Hloop, foldl_snoc_map. cbn [app].
      split; [reflexivity|]. split; [exact Hr'|].
      pose proof (lookup_lt_Some _ _ _ (HI r' Hr')). lia.
    + rewrite Call_Builtin by reflexivity. cbn [Builtin]. unfold bind at 1.
      rewrite (AssertJSFunc_ok f r Hf).
      destruct (range_over_slice_fold I l v
                  (fun el (_ : unit) => _ <- invoke ev f [el] ;; ret tt)
                  (fun _ _ => tt) tt r HI) as (r' & Hloop & Hr').
      { intros el acc r0 Hr0. destruct (Hg1 el r0 Hr0) as (r1 & Hrun & Hr1).
        exists r1. unfold bind. rewrite Hrun. split; [reflexivity | exact Hr1]. }
      { exact Hr. }
      exists r'. unfold bind at 1. rewrite Hloop. split; [reflexivity | exact Hr'].
Qed.

(** X19. What the built-in methods check, and the empty receiver. Called
    with another number of arguments than it takes (two for [reduce], one
    for [map] and [forEach]) a built-in method fails with the
    wrong-argument-count error; called on an iterator that is not of the
    type of the interpreted functions, and that the message of the error
    can render, it fails with the not-a-function error, whatever the
    receiver holds. In both cases nothing is changed.
    On an empty array, and on an empty object, [reduce] answers the sum
    it was given and [forEach] Undefined, changing nothing, and [map]
    answers a new empty array, or object: the iterator is not called. *)
Theorem builtin_checks_and_empty_receiver (recv : Receiver) (m : Method) (l : loc)
    (r : Runtime) :
  (forall iArgs, length iArgs <> arity m ->
     Call ev (VBuiltin recv m l) iArgs r
     = (Err (WrongNumberOfArgsError (inl (VBuiltin recv m l)) (len iArgs)
               (Z.of_nat (arity m))), r))
  /\ (forall f iArgs, length iArgs = arity m -> head iArgs = Some f ->
        FuncType_of f <> Some JSFuncType -> renders r f = true ->
        Call ev (VBuiltin recv m l) iArgs r = (Err (NotFunctionError f), r))
  /\ (forall f sum, FuncType_of f = Some JSFuncType -> slices r !! l = Some [] ->
        Call ev (VBuiltin OnSlice reduce l) [f; sum] r = (Ok sum, r)
        /\ Call ev (VBuiltin OnSlice forEach l) [f] r = (Ok VNil, r)
        /\ Call ev (VBuiltin OnSlice map_ l) [f] r
           = (Ok (VSlice (length (slices r))), set_slices (slices r ++ [[]]) r))
  /\ (forall f sum, FuncType_of f = Some JSFuncType -> maps r !! l = Some ∅ ->
        Call ev (VBuiltin OnMap reduce l) [f; sum] r = (Ok sum, r)
        /\ Call ev (VBuiltin OnMap forEach l) [f] r = (Ok VNil, r)
        /\ Call ev (VBuiltin OnMap map_ l) [f] r
           = (Ok (VMap (length (maps r))), set_maps (maps r ++ [∅]) r)).
Proof.
  split; [|split; [|split]].
  - intros iArgs Hlen. unfold Call. cbn [FuncType_of].
    destruct m; destruct iArgs as [|a0 [|a1 [|a2 iArgs]]]; cbn in Hlen;
      first [congruence | reflexivity].
  - intros f iArgs Hlen Hhead Hf Hr. rewrite Call_Builtin by exact Hlen.
    destruct recv, m; cbn in Hlen;
      destruct iArgs as [|a0 [|a1 [|a2 iArgs]]]; try discriminate;
      injection Hhead as ->; cbn [Builtin]; unfold bind at 1;
      rewrite (AssertJSFunc_fails f r Hf Hr); reflexivity.
  - intros f sum Hf Hv.
    split; [|split]; rewrite Call_Builtin by reflexivity; cbn [Builtin];
      unfold bind, range_over_slice, bind, load_slice;
      rewrite (AssertJSFunc_ok f r Hf), Hv; reflexivity.
  - intros f sum Hf Hm.
    split; [|split]; rewrite Call_Builtin by reflexivity; cbn [Builtin];
      unfold bind at 1; rewrite (AssertJSFunc_ok f r Hf);
      try unfold bind at 1; unfold range_over_map, bind at 1, load_map; rewrite Hm;
      rewrite (range_map_loop_empty _ _ _ _ _ Hm); reflexivity.
Qed.

End Builtins.

Lemma plus_keeps_array (P : Platform) (ev : node -> M value) (el sum : value) (r : Runtime) :
  slices r !! 0%nat = Some [VInt 0; VInt 2; VInt 4] ->
  exists r', @invoke (with_natives P (fun _ => plus)) ev (VNative 0) [el; sum] r
             = (Ok (plus_of el sum), r')
             /\ slices r' !! 0%nat = Some [VInt 0; VInt 2; VInt 4].
Proof.
  intros Hr. exists (set_calls (calls r ++ [(0%nat, [el; sum])]) r). split; [|exact Hr].
  unfold invoke, call_native. cbn.
  destruct el as [| a | | | | | | | |]; try reflexivity.
  destruct sum as [| b | | | | | | | |]; reflexivity.
Qed.

(** With [plus] as the host function, [reduce] over [[0, 2, 4]] from 1
    answers 7. *)
Lemma array_builtins_fold_and_map_witness :
  slices r_array !! 0%nat = Some [VInt 0; VInt 2; VInt 4]
  /\ (forall P : Platform,
        @FuncType_of (with_natives P (fun _ => plus)) (VNative 0) = Some JSFuncType)
  /\ (forall P : Platform,
        exists r', @Call (with_natives P (fun _ => plus))
                     (@Eval (with_natives P (fun _ => plus)) 0)
                     (VBuiltin OnSlice reduce 0) [VNative 0; VInt 1] r_array
                   = (Ok (VInt 7), r')
                   /\ slices r' !! 0%nat = Some [VInt 0; VInt 2; VInt 4]).
Proof.
  split; [reflexivity|]. split; [reflexivity|]. intros P.
  exact (proj1 (@array_builtins_fold_and_map (with_natives P (fun _ => plus))
                  (@Eval (with_natives P (fun _ => plus)) 0)
                  (fun r => slices r !! 0%nat = Some [VInt 0; VInt 2; VInt 4])
                  0%nat [VInt 0; VInt 2; VInt 4] (VNative 0) r_array
                  eq_refl (fun r Hr => Hr) eq_refl)
           plus_of (VInt 1)
           (fun el sum r Hr => plus_keeps_array P _ el sum r Hr)).
Defined.

(** ** Literals *)

Lemma digit_pretty_N_char (d : N) :
  (d < 10)%N -> digit (pretty_N_char d) = Some (Z.of_N d).
Proof.
  intros Hd.
  assert (Hcases : d = 0%N \/ d = 1%N \/ d = 2%N \/ d = 3%N \/ d = 4%N \/ d = 5%N
                   \/ d = 6%N \/ d = 7%N \/ d = 8%N \/ d = 9%N) by lia.
  repeat (destruct Hcases as [->|Hcases]; [reflexivity|]). subst d. reflexivity.
Qed.

(** Reading back the digits [pretty_N_go] writes in front of a text. *)
Lemma digits_pretty_N_go (x : N) (s : string) :
  digits (pretty_N_go x s) 0 = digits s (Z.of_N x).
Proof.
  revert s. induction (N.lt_wf_0 x) as [x _ IH]. intros s.
  destruct (N.eq_dec x 0%N) as [->|Hx]; [reflexivity|].
  rewrite pretty_N_go_step by lia. rewrite IH by (apply N.div_lt; lia).
  cbn [digits]. rewrite digit_pretty_N_char by (apply N.mod_lt; lia).
  f_equal. pose proof (N.div_mod x 10%N ltac:(lia)) as Hdm.
  set (q := (x `div` 10)%N) in *. set (m := (x `mod` 10)%N) in *. lia.
Qed.

Lemma pretty_N_go_head (x : N) (s : string) :
  (0 < x)%N ->
  exists c s' d, pretty_N_go x s = String c s' /\ digit c = Some d.
Proof.
  revert s. induction (N.lt_wf_0 x) as [x _ IH]. intros s Hx.
  rewrite pretty_N_go_step by exact Hx.
  destruct (N.eq_dec (x `div` 10)%N 0%N) as [Hq|Hq].
  - rewrite Hq, pretty_N_go_0. eexists _, _, _. split; [reflexivity|].
    apply digit_pretty_N_char, N.mod_lt. lia.
  - apply IH; [apply N.div_lt; lia | apply N.neq_0_lt_0; exact Hq].
Qed.

Lemma Atoi_unsigned (c : ascii) (s : string) (d : Z) :
  digit c = Some d ->
  Atoi (String c s)
  = match digits (String c s) 0 with
    | Some n => if GoInt.in_range n then Some n else None
    | None => None
    end.
Proof.
  intros Hd.
  destruct c as [[] [] [] [] [] [] [] []]; try (vm_compute in Hd; discriminate Hd);
    reflexivity.
Qed.

(** [strconv.Atoi] reads the decimal rendering of an integer back, when it
    is in the range of [int], and refuses it otherwise. *)
Lemma Atoi_pretty (n : Z) :
  Atoi (pretty n) = if GoInt.in_range n then Some n else None.
Proof.
  destruct n as [|p|p].
  - reflexivity.
  - change (pretty (Z.pos p)) with (pretty_N_go (N.pos p) "").
    destruct (pretty_N_go_head (N.pos p) "" ltac:(lia)) as (c & s' & d & Hs & Hd).
    pose proof (digits_pretty_N_go (N.pos p) "") as Hdigits.
    rewrite Hs in Hdigits |- *. rewrite (Atoi_unsigned _ _ _ Hd), Hdigits. reflexivity.
  - change (pretty (Z.neg p)) with (String "-"%char (pretty_N_go (N.pos p) "")).
    destruct (pretty_N_go_head (N.pos p) "" ltac:(lia)) as (c & s' & d & Hs & Hd).
    pose proof (digits_pretty_N_go (N.pos p) "") as Hdigits.
    rewrite Hs in Hdigits |- *. unfold Atoi. rewrite Hdigits. reflexivity.
Qed.

Lemma substring_prefix (s t : string) :
  substring 0 (String.length s) (s +:+ t) = s.
Proof.
  induction s as [|a s IH].
  - change ("" +:+ t) with t. destruct t; reflexivity.
  - change (String a s +:+ t) with (String a (s +:+ t)).
    cbn [String.length substring]. rewrite IH. reflexivity.
Qed.

Lemma length_append_one (s : string) (a : ascii) :
  String.length (s +:+ String a "") = S (String.length s).
Proof.
  induction s as [|b s IH]; [reflexivity|].
  change (String b s +:+ String a "") with (String b (s +:+ String a "")).
  cbn [String.length]. rewrite IH. reflexivity.
Qed.

Section Literals.

Context `{Platform}.

(** X20. Literals. The text [fmt.Sprint] gives for an integer of the range
    of [int], read as a decimal literal, is that integer. The decimal text
    of an integer outside that range is not an integer literal: it is what
    [strconv.ParseFloat] makes of it, a float or an error. A string literal
    is its text without its first and last character, whatever they are
    and whatever stands between them; one of fewer than two characters
    panics. No literal changes the state. *)
Theorem literals_read_back (r : Runtime) :
  (forall n text,
     GoInt.in_range n = true ->
     Sprint (VInt n) r = (Ok text, r) ->
     EvalLiteralExpr DecimalToken text r = (Ok (VInt n), r))
  /\ (forall n,
        GoInt.in_range n = false ->
        EvalLiteralExpr DecimalToken (pretty n) r
        = (match strconv_ParseFloat (pretty n) with
           | Some f => Ok (VFloat64 f)
           | None => Err (NumError (pretty n))
           end, r))
  /\ (forall first last text,
        EvalLiteralExpr StringToken (String first (text +:+ String last "")) r
        = (Ok (VString text), r))
  /\ (forall Data,
        (String.length Data < 2)%nat ->
        EvalLiteralExpr StringToken Data r = (Panic SliceBoundsOutOfRange, r)).
Proof.
  split; [|split; [|split]].
  - intros n text Hn [= <-]. unfold EvalLiteralExpr. rewrite Atoi_pretty, Hn. reflexivity.
  - intros n Hn. unfold EvalLiteralExpr. rewrite Atoi_pretty, Hn.
    destruct (strconv_ParseFloat (pretty n)); reflexivity.
  - intros first last text. unfold EvalLiteralExpr.
    cbn [String.length]. rewrite length_append_one.
    cbn [Nat.ltb Nat.leb Nat.sub substring]. rewrite Nat.sub_0_r.
    rewrite substring_prefix. reflexivity.
  - intros Data Hlen. unfold EvalLiteralExpr.
    destruct (Nat.ltb_spec (String.length Data) 2); [reflexivity | lia].
Qed.

End Literals.

(** ** Statements *)

Section Statements.

Context `{Platform}.

(** X21. What a for-in statement refuses, and the empty array. Its
    operand is evaluated first, and a failure of the operand is the
    failure of the statement. Then a statement whose initialiser is not a
    declaration, or declares another number of names than one, or whose
    operand is neither an object nor an array, fails with the
    not-implemented error; and over an empty array the statement does
    nothing: the body is not evaluated and no scope is made. *)
Theorem for_in_refusals_and_empty_array (n : nat) (Init Value : node) (Body : list node)
    (r : Runtime) :
  (forall e r1, Eval n Value r = (Err e, r1) ->
     Eval (S n) (ForInStmt Init Value Body) r = (Err e, r1))
  /\ (forall val r1, Eval n Value r = (Ok val, r1) ->
        (is_VarDecl Init = false ->
           Eval (S n) (ForInStmt Init Value Body) r
           = (Err (NotImplementedError (inl (ForInStmt Init Value Body))), r1))
        /\ (forall tok List, Init = VarDecl tok List -> length List <> 1%nat ->
              Eval (S n) (ForInStmt Init Value Body) r
              = (Err (NotImplementedError (inl Init)), r1))
        /\ (forall tok el, Init = VarDecl tok [el] -> is_iterable val = false ->
              Eval (S n) (ForInStmt Init Value Body) r
              = (Err (NotImplementedError (inl Init)), r1))
        /\ (forall tok el l, Init = VarDecl tok [el] -> val = VSlice l ->
              slices r1 !! l = Some [] ->
              Eval (S n) (ForInStmt Init Value Body) r = (Ok VNil, r1))).
Proof.
  split.
  - intros e r1 HV. cbn [Eval Eval_node]. unfold bind at 1. unfold EvalForInStmt, bind at 1.
    rewrite HV. reflexivity.
  - intros val r1 HV. split; [|split; [|split]].
    + intros HInit. cbn [Eval Eval_node]. unfold bind at 1. unfold EvalForInStmt, bind at 1.
      rewrite HV. destruct Init; try discriminate HInit; reflexivity.
    + intros tok List -> HList. cbn [Eval Eval_node]. unfold bind at 1.
      unfold EvalForInStmt, bind at 1. rewrite HV.
      destruct List as [|el0 [|el1 List]]; cbn in HList; try congruence; reflexivity.
    + intros tok el -> Hval. cbn [Eval Eval_node]. unfold bind at 1.
      unfold EvalForInStmt, bind at 1. rewrite HV.
      destruct val; try discriminate Hval; reflexivity.
    + intros tok el l -> -> Hl. cbn [Eval Eval_node]. unfold bind at 1.
      unfold EvalForInStmt, bind at 1. rewrite HV.
      unfold range_over_slice, bind, load_slice. rewrite Hl. reflexivity.
Qed.

(** X22. An if statement evaluates its condition and then exactly one of
    its branches, the first when the condition is true in the sense of
    [EvalTruth] and the other when it is not, in the state the condition
    left; the other branch is not evaluated. The value of the branch is
    dropped: the statement yields Undefined, or fails as the branch does.
    A failing condition is the failure of the statement, with neither
    branch evaluated. Without an else branch a false condition does
    nothing further. *)
Theorem if_evaluates_one_branch (n : nat) (Cond Body Else : node) (r : Runtime) :
  (forall cond r1, Eval n Cond r = (Ok cond, r1) ->
     (EvalTruth cond = true ->
        Eval (S n) (IfStmt Cond Body Else) r = dropped (Eval n Body r1))
     /\ (EvalTruth cond = false ->
           Eval (S n) (IfStmt Cond Body Else) r = dropped (Eval n Else r1))
     /\ (EvalTruth cond = false -> (0 < n)%nat ->
           Eval (S n) (IfStmt Cond Body Nil) r = (Ok VNil, r1)))
  /\ (forall e r1, Eval n Cond r = (Err e, r1) ->
        Eval (S n) (IfStmt Cond Body Else) r = (Err e, r1))
  /\ (forall p r1, Eval n Cond r = (Panic p, r1) ->
        Eval (S n) (IfStmt Cond Body Else) r = (Panic p, r1)).
Proof.
  split; [|split].
  - intros cond r1 HC.
    assert (Hbranch : forall Else' branch,
              branch = (if EvalTruth cond then Body else Else') ->
              Eval (S n) (IfStmt Cond Body Else') r = dropped (Eval n branch r1)).
    { intros Else' branch ->. cbn [Eval Eval_node]. unfold EvalIfStmt, bind. rewrite HC.
      destruct (EvalTruth cond);
        [destruct (Eval n Body r1) as [[] ?] | destruct (Eval n Else' r1) as [[] ?]];
        reflexivity. }
    split; [|split].
    + intros Ht. apply Hbranch. rewrite Ht. reflexivity.
    + intros Hf. apply Hbranch. rewrite Hf. reflexivity.
    + intros Hf Hn. rewrite (Hbranch Nil Nil) by (rewrite Hf; reflexivity).
      destruct n as [|n]; [lia | reflexivity].
  - intros e r1 HC. cbn [Eval Eval_node]. unfold EvalIfStmt, bind. rewrite HC. reflexivity.
  - intros p r1 HC. cbn [Eval Eval_node]. unfold EvalIfStmt, bind. rewrite HC. reflexivity.
Qed.

End Statements.

(** ** Integer arithmetic *)

Lemma wrap_is_in_range (z : Z) : GoInt.in_range (GoInt.wrap z) = true.
Proof.
  unfold GoInt.in_range, GoInt.wrap, GoInt.MinInt, GoInt.MaxInt.
  change (2 ^ 63)%Z with 9223372036854775808%Z.
  change (2 ^ 64)%Z with 18446744073709551616%Z.
  pose proof (Z.mod_pos_bound (z + 9223372036854775808) 18446744073709551616 ltac:(lia)).
  apply andb_true_intro. split; [apply Z.leb_le | apply Z.leb_le]; lia.
Qed.

Lemma wrap_add_sub (a b : Z) :
  GoInt.in_range a = true -> GoInt.wrap (GoInt.wrap (a + b) - b) = a.
Proof.
  intros Ha. unfold GoInt.in_range, GoInt.MinInt, GoInt.MaxInt in Ha.
  apply andb_prop in Ha as [Hlo Hhi]. apply Z.leb_le in Hlo, Hhi.
  unfold GoInt.wrap.
  change (2 ^ 63)%Z with 9223372036854775808%Z in *.
  change (2 ^ 64)%Z with 18446744073709551616%Z.
  replace ((a + b + 9223372036854775808) mod 18446744073709551616
           - 9223372036854775808 - b + 9223372036854775808)%Z
    with ((a + b + 9223372036854775808) mod 18446744073709551616 - b)%Z by lia.
  rewrite Zminus_mod_idemp_l.
  replace (a + b + 9223372036854775808 - b)%Z with (a + 9223372036854775808)%Z by lia.
  rewrite Z.mod_small by lia. lia.
Qed.

Section Arithmetic.

Context `{Platform}.

(** X23. Arithmetic on numbers. The sum, the difference and the product
    of two integers are the exact ones wrapped around to 64 bits, so
    integers of the range of [int] whatever the operands; subtracting from
    a sum the operand that was added gives the other operand back,
    overflow or not; and the sum does not depend on the order of its
    operands. The difference and the product of two numbers of which one
    is a float are the float ones, the integer operand converted to a
    float first. A subtraction with an operand that is not a number fails
    with the not-implemented error of binary operators, when the message
    of the error can render the operands. None of them changes the
    state. *)
Theorem arithmetic_on_numbers (r : Runtime) :
  (forall a b,
     Add (VInt a) (VInt b) r = (Ok (VInt (GoInt.wrap (a + b))), r)
     /\ Sub (VInt a) (VInt b) r = (Ok (VInt (GoInt.wrap (a - b))), r)
     /\ Mul (VInt a) (VInt b) r = (Ok (VInt (GoInt.wrap (a * b))), r)
     /\ GoInt.in_range (GoInt.wrap (a + b)) = true
     /\ GoInt.in_range (GoInt.wrap (a - b)) = true
     /\ GoInt.in_range (GoInt.wrap (a * b)) = true)
  /\ (forall a b, GoInt.in_range a = true ->
        (sum <- Add (VInt a) (VInt b) ;; Sub sum (VInt b)) r = (Ok (VInt a), r))
  /\ (forall a b, Add (VInt a) (VInt b) r = Add (VInt b) (VInt a) r)
  /\ (forall a f g,
        Sub (VInt a) (VFloat64 g) r
        = (Ok (VFloat64 (PrimFloat.sub (GoInt.to_float64 a) g)), r)
        /\ Sub (VFloat64 f) (VInt a) r
           = (Ok (VFloat64 (PrimFloat.sub f (GoInt.to_float64 a))), r)
        /\ Sub (VFloat64 f) (VFloat64 g) r = (Ok (VFloat64 (PrimFloat.sub f g)), r)
        /\ Mul (VInt a) (VFloat64 g) r
           = (Ok (VFloat64 (PrimFloat.mul (GoInt.to_float64 a) g)), r)
        /\ Mul (VFloat64 f) (VInt a) r
           = (Ok (VFloat64 (PrimFloat.mul f (GoInt.to_float64 a))), r)
        /\ Mul (VFloat64 f) (VFloat64 g) r = (Ok (VFloat64 (PrimFloat.mul f g)), r))
  /\ (Sub (VInt 1) (VFloat64 0.5) r = (Ok (VFloat64 0.5), r)
      /\ Mul (VFloat64 1.5) (VInt (-2)) r = (Ok (VFloat64 (-3)), r)
      /\ Sub (VInt GoInt.MinInt) (VInt 1) r = (Ok (VInt GoInt.MaxInt), r))
  /\ (forall x y, is_number x && is_number y = false ->
        renders r x = true -> renders r y = true ->
        Sub x y r = (Err (BinaryOpNotImplementedError x y), r)).
Proof.
  split; [|split; [|split; [|split; [|split]]]].
  - intros a b. repeat split; apply wrap_is_in_range.
  - intros a b Ha. unfold bind. cbn [Add ret Sub]. unfold GoInt.sub, GoInt.add.
    rewrite (wrap_add_sub a b Ha). reflexivity.
  - intros a b. cbn [Add]. unfold GoInt.add. rewrite Z.add_comm. reflexivity.
  - intros a f g. repeat split.
  - split; [|split]; vm_compute; reflexivity.
  - intros x y Hxy Hx Hy.
    assert (Hfail : (format x ;; format y ;; fail (BinaryOpNotImplementedError x y)) r
                    = (@Err value (BinaryOpNotImplementedError x y), r))
      by (unfold bind, format; rewrite Hx, Hy; reflexivity).
    destruct x, y; try discriminate Hxy; exact Hfail.
Qed.

End Arithmetic.

(** ** Closures *)

Lemma chain_scopes r r' p ss :
  (forall l s, scopes r !! l = Some s -> scopes r' !! l = Some s) ->
  chain r p ss -> chain r' p ss.
Proof.
  intros Hsub Hchain. induction Hchain as [|l s ss Hs _ IH]; [constructor|].
  apply chain_parent; [apply Hsub; exact Hs | exact IH].
Qed.

Section Closures.

Context `{Platform}.
Variable ev : node -> M value.

(** X24. Interpreted functions are lexically scoped. A call evaluates the
    parameters and the body in a new scope whose parent is the scope the
    function was made in; there every name resolves, before the parameters
    are bound, to what it resolves to from that scope. The scope the call
    is made from plays no part: called from any other active scope the
    function gives the same outcome and the same heaps, and the caller's
    scope pointer is put back when the call ends. *)
Theorem closures_are_lexically_scoped (parentScope : option loc)
    (expectedParams : list BindingElement) (body : list node)
    (actualParams : list value) (r : Runtime) :
  let f := VJSFunc parentScope expectedParams body in
  Call ev f actualParams r
  = defer (set_Scope (Scope r))
      (if (len expectedParams <? len actualParams)%Z
       then fail (WrongNumberOfArgsError (inr body) (len actualParams) (len expectedParams))
       else bind_params ev expectedParams 0 actualParams ;; ev (BlockStmt body))
      (entered parentScope r)
  /\ (forall ss name,
        chain r parentScope ss -> (length ss <= length (scopes r))%nat ->
        chain (entered parentScope r) (Scope (entered parentScope r))
          (scope.New parentScope :: ss)
        /\ fst (Lookup name (entered parentScope r))
           = fst (Lookup name (with_Scope parentScope r)))
  /\ (forall q,
        let here := Call ev f actualParams r in
        let there := Call ev f actualParams (with_Scope q r) in
        fst there = fst here
        /\ scopes (snd there) = scopes (snd here)
        /\ maps (snd there) = maps (snd here)
        /\ slices (snd there) = slices (snd here)
        /\ calls (snd there) = calls (snd here)
        /\ (fst here <> OutOfFuel ->
            Scope (snd here) = Scope r /\ Scope (snd there) = q)).
Proof.
  intros f. split; [reflexivity|]. split.
  - intros ss name Hchain Hlen.
    assert (Hin : chain (entered parentScope r) (Scope (entered parentScope r))
                    (scope.New parentScope :: ss)).
    { apply (chain_parent _ (length (scopes r)) (scope.New parentScope)).
      - cbn. rewrite lookup_app_r by lia. rewrite Nat.sub_diag. reflexivity.
      - apply (chain_scopes r); [|exact Hchain].
        intros l s Hs. cbn. rewrite lookup_app_l by (eapply lookup_lt_Some; exact Hs).
        exact Hs. }
    split; [exact Hin|].
    rewrite (Lookup_chain _ _ name Hin) by (cbn; rewrite length_app; cbn; lia).
    rewrite (Lookup_chain (with_Scope parentScope r) ss name)
      by (first [exact Hlen | apply (chain_scopes r); [intros l s Hs; exact Hs | exact Hchain]]).
    reflexivity.
  - intros q here there. subst here there f. rewrite !Call_JSFunction.
    unfold JSFunction, bind, get_Scope, alloc_scope, set_Scope, defer. cbn.
    match goal with
    | |- context [(if ?c then ?a else ?b) ?s] => destruct ((if c then a else b) s) as [[v|e|p|] r2]
    end; cbn; repeat split; try reflexivity; contradiction.
Qed.

End Closures.

(** ** Object literals *)

Lemma foldl_insert_notin (kvs : list (string * value)) (m : gmap string value) (k : string) :
  k ∉ kvs.*1 -> foldl (fun m kv => <[kv.1 := kv.2]> m) m kvs !! k = m !! k.
Proof.
  revert m. induction kvs as [|[k0 v0] kvs IH]; intros m Hk; [reflexivity|].
  cbn in Hk |- *. apply not_elem_of_cons in Hk as [Hne Hk].
  rewrite IH by exact Hk. apply lookup_insert_ne. congruence.
Qed.

Section ObjectLiteral.

Context `{Platform}.
Variable ev : node -> M value.

Lemma EvalObjectExpr_loop_defined List r kvs r' :
  defined ev List r kvs r' ->
  forall res, EvalObjectExpr_loop ev List res r
              = (Ok (foldl (fun m kv => <[kv.1 := kv.2]> m) res kvs), r').
Proof.
  induction 1 as [r|prop name v List kvs r r1 r2 r3 Hname Hv _ IH]; intros res;
    [reflexivity|].
  cbn [EvalObjectExpr_loop foldl]. unfold bind at 1.
  assert (Hkey : (match Name_Computed prop with
                  | Nil => ret (Name_Literal prop)
                  | computed => iName <- ev computed ;; Sprint iName
                  end) r = (Ok name, r1)).
  { destruct Hname as [prop r Hnil|prop r iName r1 name Hne Hev HSprint].
    - rewrite Hnil. reflexivity.
    - destruct (Name_Computed prop) eqn:Hc; [contradiction|..];
        unfold bind; rewrite Hev; exact HSprint. }
  rewrite Hkey. unfold bind at 1. rewrite Hv. apply IH.
Qed.

(** X25. An object literal evaluates its properties from first to last,
    each key before its value, a computed key being the rendering of what
    it evaluates to, and yields a new object at a location no earlier
    object has, every earlier object being left as the properties left it.
    The new object holds, for every key written, the value of the last
    property with that key, and nothing else. *)
Theorem object_literal_last_key_wins (List : list Property) (r r' : Runtime)
    (kvs : list (string * value)) :
  defined ev List r kvs r' ->
  EvalObjectExpr ev List r
  = (Ok (VMap (length (maps r'))), set_maps (maps r' ++ [entries kvs]) r')
  /\ maps (set_maps (maps r' ++ [entries kvs]) r') !! length (maps r') = Some (entries kvs)
  /\ (forall l m, maps r' !! l = Some m ->
        maps (set_maps (maps r' ++ [entries kvs]) r') !! l = Some m)
  /\ (forall before k v after,
        kvs = before ++ (k, v) :: after -> k ∉ after.*1 -> entries kvs !! k = Some v)
  /\ (forall k, k ∉ kvs.*1 -> entries kvs !! k = None).
Proof.
  intros Hd. split; [|split; [|split; [|split]]].
  - unfold EvalObjectExpr, bind. rewrite (EvalObjectExpr_loop_defined _ _ _ _ Hd). reflexivity.
  - cbn. rewrite lookup_app_r by lia. rewrite Nat.sub_diag. reflexivity.
  - intros l m Hl. cbn. rewrite lookup_app_l by (eapply lookup_lt_Some; exact Hl). exact Hl.
  - intros before k v after -> Hk. unfold entries. rewrite foldl_app. cbn [foldl].
    rewrite foldl_insert_notin by exact Hk. apply lookup_insert_eq.
  - intros k Hk. unfold entries. rewrite foldl_insert_notin by exact Hk. apply lookup_empty.
Qed.

End ObjectLiteral.

(** On a fresh runtime [{a: 1, a: 2}] is a new object whose [a] is 2. *)
Lemma object_literal_last_key_wins_witness :
  (forall P : Platform,
     defined (Eval 1) object_a_1_a_2 r_new [("a", VInt 1); ("a", VInt 2)] r_new)
  /\ (forall P : Platform,
        Eval 2 (ObjectExpr object_a_1_a_2) r_new
        = (Ok (VMap 0), set_maps [entries [("a", VInt 1); ("a", VInt 2)]] r_new))
  /\ (forall P : Platform, entries [("a", VInt 1); ("a", VInt 2)] !! "a" = Some (VInt 2)).
Proof.
  assert (Hd : forall P : Platform,
             defined (Eval 1) object_a_1_a_2 r_new [("a", VInt 1); ("a", VInt 2)] r_new).
  { intros P. unfold object_a_1_a_2.
    eapply (defined_cons _ (mkProperty "a" Nil (num "1")) "a" (VInt 1));
      [apply (named_literal _ (mkProperty "a" Nil (num "1"))); reflexivity | reflexivity |].
    eapply (defined_cons _ (mkProperty "a" Nil (num "2")) "a" (VInt 2));
      [apply (named_literal _ (mkProperty "a" Nil (num "2"))); reflexivity | reflexivity |].
    apply defined_nil. }
  split; [exact Hd|]. split.
  - intros P. exact (proj1 (object_literal_last_key_wins (Eval 1) _ _ _ _ (Hd P))).
  - intros P.
    exact (proj1 (proj2 (proj2 (proj2
             (object_literal_last_key_wins (Eval 1) _ _ _ _ (Hd P)))))
             [("a", VInt 1)] "a" (VInt 2) [] eq_refl ltac:(cbn; apply not_elem_of_nil)).
Defined.

(** ** Calls and member access *)

Section CallsAndMembers.

Context `{Platform}.

Lemma EvalCallExpr_args_yielded ev Args r vs r' :
  yielded ev Args r vs r' -> EvalCallExpr_args ev Args r = (Ok vs, r').
Proof.
  induction 1 as [r|i v List vs r r1 r2 Hi _ IH]; [reflexivity|].
  cbn [EvalCallExpr_args]. unfold bind. rewrite Hi, IH. reflexivity.
Qed.

Lemma EvalCallExpr_args_stops ev Pre r vs r1 :
  yielded ev Pre r vs r1 ->
  forall i Post,
    (forall e r2, ev i r1 = (Err e, r2) ->
       EvalCallExpr_args ev (Pre ++ i :: Post) r = (Err e, r2))
    /\ (forall p r2, ev i r1 = (Panic p, r2) ->
          EvalCallExpr_args ev (Pre ++ i :: Post) r = (Panic p, r2)).
Proof.
  induction 1 as [r|i0 v List vs r r1 r2 Hi _ IH]; intros i Post.
  - split; intros x r2 Hx; cbn [app EvalCallExpr_args]; unfold bind; rewrite Hx; reflexivity.
  - destruct (IH i Post) as [IHe IHp].
    split; intros x r3 Hx; cbn [app EvalCallExpr_args]; unfold bind; rewrite Hi;
      [rewrite (IHe x r3 Hx) | rewrite (IHp x r3 Hx)]; reflexivity.
Qed.

(** X26. A call expression evaluates what it calls, then its arguments
    from left to right, and then calls the one with the values of the
    others, in the state they left. When what it calls fails, or the first
    argument that fails does, that failure is the outcome: no later
    argument is evaluated and nothing is called. *)
Theorem call_expression_evaluates_then_calls (n : nat) (X : node) (r : Runtime) :
  (forall e r1 Args, Eval n X r = (Err e, r1) ->
     Eval (S n) (CallExpr X Args) r = (Err e, r1))
  /\ (forall callable r1, Eval n X r = (Ok callable, r1) ->
        (forall Args vs r2, yielded (Eval n) Args r1 vs r2 ->
           Eval (S n) (CallExpr X Args) r = Call (Eval n) callable vs r2)
        /\ (forall Pre vs r2 i Post, yielded (Eval n) Pre r1 vs r2 ->
              (forall e r3, Eval n i r2 = (Err e, r3) ->
                 Eval (S n) (CallExpr X (Pre ++ i :: Post)) r = (Err e, r3))
              /\ (forall p r3, Eval n i r2 = (Panic p, r3) ->
                    Eval (S n) (CallExpr X (Pre ++ i :: Post)) r = (Panic p, r3)))).
Proof.
  split.
  - intros e r1 Args HX. cbn [Eval Eval_node]. unfold EvalCallExpr, bind. rewrite HX.
    reflexivity.
  - intros callable r1 HX. split.
    + intros Args vs r2 Hy. cbn [Eval Eval_node]. unfold EvalCallExpr, bind at 1.
      rewrite HX. unfold bind at 1. rewrite (EvalCallExpr_args_yielded _ _ _ _ _ Hy).
      reflexivity.
    + intros Pre vs r2 i Post Hy.
      destruct (EvalCallExpr_args_stops _ _ _ _ _ Hy i Post) as [He Hp].
      split; intros x r3 Hx; cbn [Eval Eval_node]; unfold EvalCallExpr, bind at 1;
        rewrite HX; unfold bind at 1;
        [rewrite (He x r3 Hx) | rewrite (Hp x r3 Hx)]; reflexivity.
Qed.

(** X27. Members of what has none. Reading or writing a member by name of
    a value that is not an object fails with the not-an-object error;
    that goes for an array too (one the message of the error can render),
    which has its three built-in methods to read and nothing else, not even
    a length, and nothing to write.
    Indexing a value that is neither an object nor an array fails with
    the not-implemented error when reading and the not-an-object error
    when writing. An assignment to anything but a name, a member or an
    index fails with the not-implemented error, after its right-hand side
    was evaluated. None of these changes anything beyond what evaluating
    the operands did. *)
Theorem members_of_non_objects (n : nat) (X : node) (r0 r r1 : Runtime) (x : value) :
  Eval n X r = (Ok x, r1) ->
  (is_iterable x = false ->
     forall Y, Eval (S n) (DotExpr X Y) r = (Err (NotObjectError x), r1))
  /\ (is_object x = false -> renders r1 x = true ->
      forall Y, Method_of Y = None ->
        Eval (S n) (DotExpr X Y) r = (Err (NotObjectError x), r1))
  /\ (is_object x = false -> renders r1 x = true ->
      forall Y V y, Eval n V r0 = (Ok y, r) ->
        Eval (S n) (BinaryExpr EqToken (DotExpr X Y) V) r0 = (Err (NotObjectError x), r1))
  /\ (is_iterable x = false ->
      forall K k r2, Eval n K r1 = (Ok k, r2) ->
        Eval (S n) (IndexExpr X K) r = (Err (NotImplementedError (inl (IndexExpr X K))), r2)
        /\ forall V y, Eval n V r0 = (Ok y, r) ->
             Eval (S n) (BinaryExpr EqToken (IndexExpr X K) V) r0
             = (Err (NotObjectError x), r2))
  /\ (is_target X = false ->
      forall V y, Eval n V r0 = (Ok y, r) ->
        Eval (S n) (BinaryExpr EqToken X V) r0 = (Err (NotImplementedError (inl X)), r)).
Proof.
  intros HX. split; [|split; [|split; [|split]]].
  - intros Hx Y. cbn [Eval Eval_node]. unfold EvalDotExpr, bind. rewrite HX.
    destruct x; try discriminate Hx; reflexivity.
  - intros Hx Hr Y HY. cbn [Eval Eval_node]. unfold EvalDotExpr, bind. rewrite HX.
    destruct x; try discriminate Hx; try reflexivity.
    rewrite HY. unfold format. rewrite Hr. reflexivity.
  - intros Hx Hr Y V y HV. cbn [Eval Eval_node].
    unfold EvalBinaryExpr, EvalAssignment, bind. rewrite HV, HX.
    destruct x; try discriminate Hx; try reflexivity.
    unfold format. rewrite Hr. reflexivity.
  - intros Hx K k r2 HK. split.
    + cbn [Eval Eval_node]. unfold EvalIndexExpr, bind. rewrite HX, HK.
      destruct x; try discriminate Hx; reflexivity.
    + intros V y HV. cbn [Eval Eval_node].
      unfold EvalBinaryExpr, EvalAssignment, bind. rewrite HV, HX, HK.
      destruct x; try discriminate Hx; reflexivity.
  - intros Htarget V y HV. cbn [Eval Eval_node]. unfold EvalBinaryExpr, EvalAssignment, bind.
    rewrite HV. destruct X; try discriminate Htarget; reflexivity.
Qed.

End CallsAndMembers.


(** On a fresh runtime [1.x] fails: 1 is not an object. *)
Lemma members_of_non_objects_witness :
  (forall P : Platform, Eval 1 (num "1") r_new = (Ok (VInt 1), r_new))
  /\ (forall P : Platform,
        Eval 2 (DotExpr (num "1") "x") r_new = (Err (NotObjectError (VInt 1)), r_new)).
Proof.
  split; [reflexivity|]. intros P.
  exact (proj1 (members_of_non_objects 1 (num "1") r_new r_new r_new (VInt 1) eq_refl)
           eq_refl "x").
Defined.

(** On a fresh runtime [if (0) { 1 } else { 2 }] evaluates its second
    branch and yields Undefined. *)
Lemma if_evaluates_one_branch_witness :
  (forall P : Platform,
     Eval 4 if_0_then_1_else_2 r_new
     = dropped (Eval 3 (BlockStmt [ExprStmt (num "2")]) r_new))
  /\ (forall P : Platform, fst (Eval 4 if_0_then_1_else_2 r_new) = Ok VNil).
Proof.
  assert (Hif : forall P : Platform,
             Eval 4 if_0_then_1_else_2 r_new
             = dropped (Eval 3 (BlockStmt [ExprStmt (num "2")]) r_new)).
  { intros P.
    exact (proj1 (proj2 (proj1 (if_evaluates_one_branch 3 (num "0")
                                  (BlockStmt [ExprStmt (num "1")])
                                  (BlockStmt [ExprStmt (num "2")]) r_new)
                           (VInt 0) r_new eq_refl)) eq_refl). }
  split; [exact Hif|]. intros P. rewrite (Hif P). reflexivity.
Defined.

(** ** Messages that render a value which holds itself *)

Lemma renders_leaf r v : is_iterable v = false -> renders r v = true.
Proof. intros Hv. destruct v; try discriminate Hv; reflexivity. Qed.

Section SelfHolding.

Context `{Platform}.

(** X28. Where [fmt] is given a value that it cannot get through, an
    object or an array that holds itself, the evaluator does not return:
    the rendering of such a value; the assignment to a constant of the
    active scope that holds one, for the message of the constant-mutation
    error; the call of one, for the message of the not-callable error; a
    sum with one that [+] has no case for, for the message of the
    unsupported-operands error; and an array indexed by one, for the
    message of the non-integer-index error. Only objects and arrays can be
    such values. *)
Theorem a_message_of_a_self_holding_value_never_returns (r : Runtime) (v : value) :
  renders r v = false ->
  is_iterable v = true
  /\ Sprint v r = (OutOfFuel, r)
  /\ (forall n name Y r0 y l s old,
        Eval n Y r0 = (Ok y, r) ->
        Scope r = Some l -> scopes r !! l = Some s ->
        scope.Get s name = Some old -> scope.Constant old = true ->
        scope.Item old = v ->
        Eval (S n) (BinaryExpr EqToken (Var name) Y) r0 = (OutOfFuel, r))
  /\ (forall ev iArgs, Call ev v iArgs r = (OutOfFuel, r))
  /\ (forall y, Add_supported v y = false -> Add v y r = (OutOfFuel, r))
  /\ (forall x, Add_supported x v = false -> Add x v r = (OutOfFuel, r))
  /\ (forall n X K r0 r1 l xs,
        Eval n X r0 = (Ok (VSlice l), r1) ->
        Eval n K r1 = (Ok v, r) ->
        slices r !! l = Some xs ->
        Eval (S n) (IndexExpr X K) r0 = (OutOfFuel, r)).
Proof.
  intros Hr.
  assert (Hv : is_iterable v = true).
  { destruct (is_iterable v) eqn:Hi; [reflexivity|].
    rewrite (renders_leaf r v Hi) in Hr. discriminate Hr. }
  assert (Hfmt : forall A (k : M A), (format v ;; k) r = (OutOfFuel, r))
    by (intros A k; unfold bind, format; rewrite Hr; reflexivity).
  split; [exact Hv|]. split; [|split; [|split; [|split; [|split]]]].
  - unfold Sprint. rewrite Hr. reflexivity.
  - intros n name Y r0 y l s old HY Hl Hs Hold Hconst <-.
    cbn [Eval Eval_node]. unfold EvalBinaryExpr, EvalAssignment, bind.
    rewrite HY, (Scope_Set_never_returns _ _ _ _ _ _ Hl Hs Hold Hconst Hr). reflexivity.
  - intros ev iArgs. unfold Call.
    destruct v; try discriminate Hv; cbn [FuncType_of]; apply Hfmt.
  - intros y Hy. destruct v; try discriminate Hv; destruct y; try discriminate Hy;
      apply Hfmt.
  - intros x Hx.
    assert (Hfail : (format x ;; format v ;; fail (BinaryOpNotImplementedError x v)) r
                    = (@OutOfFuel value, r)).
    { unfold bind at 1. unfold format at 1. destruct (renders r x); [apply Hfmt | reflexivity]. }
    destruct v; try discriminate Hv; destruct x; try discriminate Hx; exact Hfail.
  - intros n X K r0 r1 l xs HX HK Hxs. cbn [Eval Eval_node].
    unfold EvalIndexExpr, bind at 1. rewrite HX. unfold bind at 1. rewrite HK.
    unfold bind at 1, load_slice. rewrite Hxs.
    destruct v; try discriminate Hv; apply Hfmt.
Qed.

End SelfHolding.

(** In [r_self] the object of [a] holds itself: [a = 1] does not return. *)
Lemma a_message_of_a_self_holding_value_never_returns_witness :
  renders r_self (VMap 0) = false
  /\ (forall P : Platform,
        Eval 2 (BinaryExpr EqToken (Var "a") (num "1")) r_self = (OutOfFuel, r_self)).
Proof.
  split; [reflexivity|]. intros P.
  exact (proj1 (proj2 (proj2
           (a_message_of_a_self_holding_value_never_returns r_self (VMap 0) eq_refl)))
           1%nat "a" (num "1") r_self (VInt 1) 0%nat s_self
           (scope.mkBinding (VMap 0) true) eq_refl eq_refl eq_refl eq_refl eq_refl eq_refl).
Defined.

(** [const a = {}; a.self = a; a = 1] does not return, on any platform and
    with any fuel: [Set] renders the constant it is about to refuse. *)
Lemma const_self_then_assign_never_returns (P : Platform) (fuel : nat) :
  fst (Run fuel const_self_then_assign r_new) = OutOfFuel.
Proof.
  do 5 (destruct fuel as [|fuel]; [vm_compute; reflexivity|]).
  vm_compute. reflexivity.
Qed.

(** ** The bound of [renders] loses nothing

    [renders] follows a value for as many steps as the two heaps have
    places, and one more. A descent that long has been to one place twice
    and can go round for ever: where [fmt] comes to an end at all, it does
    so within the bound. *)

Lemma forallb_false {A} (f : A -> bool) (l : list A) :
  forallb f l = false <-> exists x, x ∈ l /\ f x = false.
Proof.
  induction l as [|a l IH]; cbn.
  - split; [discriminate | intros (x & Hx & _); inversion Hx].
  - destruct (f a) eqn:Ha; cbn.
    + rewrite IH. split; intros (x & Hx & Hf).
      * exists x. split; [right; exact Hx | exact Hf].
      * apply elem_of_cons in Hx as [->|Hx]; [congruence | exists x; split; assumption].
    + split; [intros _; exists a; split; [left | exact Ha] | reflexivity].
Qed.

Lemma finite_false n r v :
  finite n r v = false <-> exists ws, length ws = n /\ descends r v ws.
Proof.
  revert v. induction n as [|n IH]; intros v; cbn [finite].
  - split; [intros _; exists []; split; [reflexivity | exact I] | reflexivity].
  - rewrite forallb_false. split.
    + intros (w & Hw & Hf). apply IH in Hf as (ws & Hlen & Hd).
      exists (w :: ws). cbn. split; [lia | split; assumption].
    + intros (ws & Hlen & Hd). destruct ws as [|w ws]; [discriminate Hlen|].
      destruct Hd as [Hw Hd]. exists w. split; [exact Hw|].
      apply IH. exists ws. split; [cbn in Hlen; lia | exact Hd].
Qed.

Lemma last_cons_cons {A} (a : A) (l : list A) (d : A) : List.last (a :: l) d = List.last l a.
Proof.
  revert a d. induction l as [|b l IH]; intros a d; [reflexivity|].
  change (List.last (b :: l) d = List.last (b :: l) a). rewrite (IH b d), (IH b a).
  reflexivity.
Qed.

Lemma last_app_last {A} (l1 l2 : list A) (d : A) :
  List.last (l1 ++ l2) d = List.last l2 (List.last l1 d).
Proof.
  revert d. induction l1 as [|a l1 IH]; intros d; [reflexivity|].
  change ((a :: l1) ++ l2) with (a :: (l1 ++ l2)). rewrite !last_cons_cons. apply IH.
Qed.

Lemma descends_app r v ws1 ws2 :
  descends r v (ws1 ++ ws2) <-> descends r v ws1 /\ descends r (List.last ws1 v) ws2.
Proof.
  revert v. induction ws1 as [|w ws1 IH]; intros v.
  - cbn. tauto.
  - rewrite last_cons_cons. cbn [app descends]. rewrite IH. tauto.
Qed.

Lemma descends_take r v ws k : descends r v ws -> descends r v (take k ws).
Proof.
  revert v k. induction ws as [|w ws IH]; intros v k Hd; destruct k; cbn; try exact I.
  destruct Hd as [Hw Hd]. split; [exact Hw | apply IH; exact Hd].
Qed.

Lemma descends_lookup r v ws i x w :
  descends r v ws -> (v :: ws) !! i = Some x -> ws !! i = Some w -> w ∈ held r x.
Proof.
  revert v i. induction ws as [|w0 ws IH]; intros v i Hd Hx Hw; [discriminate Hw|].
  destruct Hd as [Hw0 Hd]. destruct i as [|i].
  - cbn in Hx, Hw. injection Hx as <-. injection Hw as <-. exact Hw0.
  - exact (IH w0 i Hd Hx Hw).
Qed.

Lemma last_take {A} (l : list A) (d x : A) i :
  (d :: l) !! i = Some x -> List.last (take i l) d = x.
Proof.
  revert d i. induction l as [|a l IH]; intros d i Hx.
  - destruct i as [|i]; [|discriminate Hx]. cbn in Hx |- *. congruence.
  - destruct i as [|i]; [cbn in Hx |- *; congruence|].
    cbn [take]. rewrite last_cons_cons. apply IH. exact Hx.
Qed.

Lemma laps_descends r v c k :
  descends r v c -> List.last c v = v ->
  descends r v (laps k c) /\ List.last (laps k c) v = v.
Proof.
  intros Hd Hlast. induction k as [|k [IHd IHl]]; cbn [laps]; [split; [exact I | reflexivity]|].
  split.
  - apply descends_app. rewrite Hlast. split; assumption.
  - rewrite last_app_last, Hlast. exact IHl.
Qed.

Lemma length_laps k (c : list value) : length (laps k c) = (k * length c)%nat.
Proof. induction k as [|k IH]; cbn [laps]; [reflexivity|]. rewrite length_app, IH. lia. Qed.

(** What holds something has a place in the heaps, and no other value has
    that place. *)
Lemma held_place r x w :
  w ∈ held r x ->
  (place r x < length (maps r) + length (slices r))%nat
  /\ forall y w', w' ∈ held r y -> place r y = place r x -> y = x.
Proof.
  intros Hw.
  assert (Hocc : forall y w', w' ∈ held r y ->
            (exists l, y = VMap l /\ (l < length (maps r))%nat)
            \/ (exists l, y = VSlice l /\ (l < length (slices r))%nat)).
  { intros y w' Hw'. destruct y; try (inversion Hw'; fail); cbn in Hw'.
    - left. exists l. split; [reflexivity|].
      destruct (maps r !! l) eqn:Hl; [eapply lookup_lt_Some; exact Hl | inversion Hw'].
    - right. exists l. split; [reflexivity|].
      destruct (slices r !! l) eqn:Hl; [eapply lookup_lt_Some; exact Hl | inversion Hw']. }
  destruct (Hocc x w Hw) as [(l & -> & Hl)|(l & -> & Hl)]; cbn [place]; (split; [lia|]);
    intros y w' Hw' Hp; destruct (Hocc y w' Hw') as [(l' & -> & Hl')|(l' & -> & Hl')];
    cbn [place] in Hp; first [f_equal; lia | lia].
Qed.

(** A descent longer than the heaps have places goes on for ever. *)
Lemma descends_for_ever r v ws :
  descends r v ws ->
  length ws = S (length (maps r) + length (slices r)) ->
  forall n, exists ws', length ws' = n /\ descends r v ws'.
Proof.
  intros Hd Hlen n. set (N := (length (maps r) + length (slices r))%nat) in *.
  assert (Hholds : forall i x, (i <= N)%nat -> (v :: ws) !! i = Some x ->
                     exists w, w ∈ held r x).
  { intros i x Hi Hx. destruct (lookup_lt_is_Some_2 ws i ltac:(lia)) as [w Hw].
    exists w. exact (descends_lookup _ _ _ _ _ _ Hd Hx Hw). }
  destruct (list_pigeonhole (place r <$> take (S N) (v :: ws)) (seq 0 N))
    as (i1 & i2 & k & Hlt & Hk1 & Hk2).
  { intros k Hk. apply list_elem_of_fmap in Hk as (x & -> & Hx).
    apply list_elem_of_lookup in Hx as (i & Hx). apply lookup_take_Some in Hx as [Hx Hi].
    destruct (Hholds i x ltac:(lia) Hx) as [w Hw].
    apply elem_of_seq. pose proof (proj1 (held_place _ _ _ Hw)). fold N in H. lia. }
  { rewrite length_fmap, length_take, length_seq. cbn [length]. lia. }
  rewrite list_lookup_fmap in Hk1, Hk2.
  destruct (take (S N) (v :: ws) !! i1) as [x1|] eqn:Hx1; [|discriminate Hk1].
  destruct (take (S N) (v :: ws) !! i2) as [x2|] eqn:Hx2; [|discriminate Hk2].
  cbn in Hk1, Hk2. apply lookup_take_Some in Hx1 as [Hx1 Hi1], Hx2 as [Hx2 Hi2].
  destruct (Hholds i1 x1 ltac:(lia) Hx1) as [w1 Hw1].
  destruct (Hholds i2 x2 ltac:(lia) Hx2) as [w2 Hw2].
  assert (Heq : x2 = x1) by (apply (proj2 (held_place _ _ _ Hw1) x2 w2 Hw2); congruence).
  subst x2.
  set (c := take (i2 - i1) (drop i1 ws)).
  assert (Hsplit : ws = take i1 ws ++ c ++ drop i2 ws).
  { unfold c. rewrite <- (take_drop i1 ws) at 1. f_equal.
    rewrite <- (take_drop (i2 - i1) (drop i1 ws)) at 1. f_equal.
    rewrite drop_drop. f_equal. lia. }
  rewrite Hsplit in Hd.
  apply descends_app in Hd as [Hpre Hd]. rewrite (last_take _ _ _ _ Hx1) in Hd.
  apply descends_app in Hd as [Hc _].
  assert (Hlast : List.last c x1 = x1).
  { unfold c. apply last_take. destruct (i2 - i1)%nat as [|d] eqn:Hdiff; [lia|].
    change (drop i1 ws !! d = Some x1). rewrite lookup_drop.
    destruct i2 as [|i2]; [lia|]. replace (i1 + d)%nat with i2 by lia. exact Hx2. }
  assert (Hclen : (1 <= length c)%nat).
  { unfold c. rewrite length_take, length_drop. lia. }
  destruct (laps_descends r x1 c n Hc Hlast) as [Hlaps _].
  exists (take n (take i1 ws ++ laps n c)). split.
  - rewrite length_take, length_app, length_laps. nia.
  - apply descends_take, descends_app. rewrite (last_take _ _ _ _ Hx1).
    split; assumption.
Qed.

(** Where following a value comes to an end at all, it does so within the
    bound of [renders]. *)
Lemma finite_renders n r v : finite n r v = true -> renders r v = true.
Proof.
  intros Hn. unfold renders.
  destruct (finite (S (length (maps r) + length (slices r))) r v) eqn:Hb; [reflexivity|].
  apply finite_false in Hb as (ws & Hlen & Hd).
  destruct (descends_for_ever r v ws Hd Hlen n) as (ws' & Hlen' & Hd').
  assert (Hf : finite n r v = false) by (apply finite_false; exists ws'; split; assumption).
  congruence.
Qed.

(** And beyond the bound nothing changes. *)
Lemma renders_finite n r v :
  renders r v = true -> (length (maps r) + length (slices r) < n)%nat -> finite n r v = true.
Proof.
  intros Hr Hn. destruct (finite n r v) eqn:Hf; [reflexivity|].
  apply finite_false in Hf as (ws & Hlen & Hd).
  assert (Hb : finite (S (length (maps r) + length (slices r))) r v = false).
  { apply finite_false. exists (take (S (length (maps r) + length (slices r))) ws).
    split; [rewrite length_take; lia | apply descends_take; exact Hd]. }
  unfold renders in Hr. congruence.
Qed.
